(** * jaspColumnEncoder: a shallow embedding of columnencoder.cpp

    The development follows the source file top-down: the [std::string]
    operations the encoder relies on, the [columnType] enumeration, the
    per-encoder tables, the process-wide registry with its lazily rebuilt
    aggregate views, and the text substitution routines. *)

From stdpp Require Import gmap strings pretty sorting.
From Stdlib Require Import Ascii.

(** ** Exceptions and results *)

(** The C++ code throws [std::out_of_range] ([substr], [map::at]) and
    [std::runtime_error] ([encode], [decode]); dereferencing a null
    [_columnEncoder] is recorded as a failure of its own. *)
Inductive exn : Type :=
  | out_of_range
  | runtime_error (what : string)
  | null_dereference.

Inductive result (A : Type) : Type :=
  | Ok (a : A)
  | Throw (e : exn).
Arguments Ok {A} a.
Arguments Throw {A} e.

Global Instance exn_eq_dec : EqDecision exn.
Proof. solve_decision. Defined.
Global Instance result_eq_dec `{EqDecision A} : EqDecision (result A).
Proof. solve_decision. Defined.

Global Instance result_ret : MRet result := λ A a, Ok a.
Global Instance result_bind : MBind result := λ A B k r,
  match r with
  | Ok a => k a
  | Throw e => Throw e
  end.
Global Instance result_fmap : FMap result := λ A B f r,
  match r with
  | Ok a => Ok (f a)
  | Throw e => Throw e
  end.

(** ** The [std::string] operations used by the encoder *)

Module StdString.

Definition chars (s : string) : list ascii := String.list_ascii_of_string s.
Definition of_chars (l : list ascii) : string := String.string_of_list_ascii l.

(** [s.size()], [s.length()] *)
Definition size (s : string) : nat := length (chars s).

(** [s[pos]]; reading at [size()] yields the terminating NUL. *)
Definition at_ (s : string) (pos : nat) : ascii := default zero (chars s !! pos).

(** [s.substr(pos, n)]: throws when [pos > size()], clips [n] otherwise. *)
Definition substr (s : string) (pos n : nat) : result string :=
  if decide (pos ≤ size s)
  then Ok (of_chars (take n (drop pos (chars s))))
  else Throw out_of_range.

(** [s.replace(pos, n, r)]: throws when [pos > size()], clips [n]. *)
Definition replace (s : string) (pos n : nat) (r : string) : result string :=
  if decide (pos ≤ size s)
  then Ok (of_chars (take pos (chars s) ++ chars r ++ drop (pos + n) (chars s)))
  else Throw out_of_range.

(** [str] occurs in [cs] at offset [p]. *)
Definition occurs_at (cs str : list ascii) (p : nat) : bool :=
  bool_decide (take (length str) (drop p cs) = str).

(** [s.find(str, pos)]: the lowest offset [>= pos] at which [str] occurs;
    [None] is [std::string::npos]. *)
Definition find (s str : string) (pos : nat) : option nat :=
  head (filter (λ p, occurs_at (chars s) (chars str) p = true)
               (seq pos (S (size s) - pos))).

End StdString.
Import StdString.

(** ** Character classes *)

Definition is_quote (c : ascii) : bool :=
  bool_decide (c = "034"%char) || bool_decide (c = "'"%char).

Definition in_range (lo hi c : ascii) : bool :=
  ((nat_of_ascii lo <=? nat_of_ascii c) && (nat_of_ascii c <=? nat_of_ascii hi))%nat.

(** The bracket expression of [nonNameChar], the regex [[^\.A-Za-z0-9_]]. *)
Definition nameChar (c : ascii) : bool :=
  bool_decide (c = "."%char) || in_range "A"%char "Z"%char c || in_range "a"%char "z"%char c
  || in_range "0"%char "9"%char c || bool_decide (c = "_"%char).

(** [std::regex_match(s, nonNameChar)]: the whole of [s] is one character
    outside the bracket expression. *)
Definition regex_match_nonNameChar (s : string) : bool :=
  match chars s with
  | [c] => negb (nameChar c)
  | _ => false
  end.

(** ** [ColumnEncoder::getPositionsColumnNameMatches] *)

(** The [for] loop over [pos]; [fuel] counts the iterations left, that is
    [text.length() - pos].  The source stores [int(pos)]; positions are taken
    to fit an [int] (texts shorter than 2^31 bytes). *)
Fixpoint getPositions_loop (fuel pos : nat) (inString : bool) (delim : ascii)
    (text columnName : string) : list nat :=
  match fuel with
  | 0 => []
  | S fuel' =>
      if negb inString
         && bool_decide (substr text pos (size columnName) = Ok columnName)
      then pos :: getPositions_loop fuel' (S pos) inString delim text columnName
      else if is_quote (at_ text pos) then
        if negb inString
        then getPositions_loop fuel' (S pos) true (at_ text pos) text columnName
        else if bool_decide (at_ text pos = delim)
             then getPositions_loop fuel' (S pos) false delim text columnName
             else getPositions_loop fuel' (S pos) inString delim text columnName
      else getPositions_loop fuel' (S pos) inString delim text columnName
  end.

Definition getPositionsColumnNameMatches (text columnName : string) : list nat :=
  getPositions_loop (size text) 0 false "?"%char text columnName.

(** ** Lookups that throw: [std::map::at] *)

Definition map_at {V} (m : gmap string V) (k : string) : result V :=
  match m !! k with
  | Some v => Ok v
  | None => Throw out_of_range
  end.

(** A loop over a container whose body may throw. *)
Fixpoint foldl_result {A B} (f : A → B → result A) (a : A) (l : list B) : result A :=
  match l with
  | [] => Ok a
  | b :: l' => a' ← f a b; foldl_result f a' l'
  end.

(** ** [ColumnEncoder::replaceAllStrict] *)

Definition replaceAllStrict (text : string) (map : gmap string string) : string :=
  match map !! text with
  | Some v => v
  | None => text
  end.

(** ** [ColumnEncoder::replaceAll] (the text overload) *)

(** [size_t] positions are [option nat] wherever [npos] can occur: [None] is
    [std::string::npos], the largest [size_t]. *)
Definition npos_lt (a b : option nat) : bool :=
  match a, b with
  | Some x, Some y => bool_decide (x < y)
  | Some _, None => true
  | None, _ => false
  end.

(** The inner [for] loop: the first occurrence of any name from [foundPos]
    on; an earlier name of the list wins a tie. *)
Definition firstFound (text : string) (names : list string) (foundPos : nat)
    : option nat * string :=
  foldl (λ '(firstFoundPos, replaceThis) replaceMe,
           let pos := find text replaceMe foundPos in
           if npos_lt pos firstFoundPos then (pos, replaceMe)
           else (firstFoundPos, replaceThis))
        (None, EmptyString) names.

(** One iteration of the [while] loop: the new text and the new [foundPos]. *)
Definition replaceAll_step (text : string) (map : gmap string string)
    (names : list string) (foundPos : nat) : result (string * option nat) :=
  match firstFound text names foundPos with
  | (Some firstFoundPos, replaceThis) =>
      replacement ← map_at map replaceThis;
      text' ← replace text firstFoundPos (size replaceThis) replacement;
      Ok (text', Some (firstFoundPos + size replacement))
  | (None, _) => Ok (text, None)
  end.

(** The [while (foundPos < npos)] loop.  It has no bound of its own, so the
    model takes [fuel]: [None] means that the loop is still running after
    [fuel] iterations. *)
Fixpoint replaceAll_loop (fuel : nat) (text : string) (map : gmap string string)
    (names : list string) (foundPos : option nat) : option (result string) :=
  match foundPos with
  | None => Some (Ok text)
  | Some pos =>
      match fuel with
      | 0 => None
      | S fuel' =>
          match replaceAll_step text map names pos with
          | Ok (text', foundPos') => replaceAll_loop fuel' text' map names foundPos'
          | Throw e => Some (Throw e)
          end
      end
  end.

Definition replaceAll (fuel : nat) (text : string) (map : gmap string string)
    (names : list string) : option (result string) :=
  replaceAll_loop fuel text map names (Some 0).

(** ** [ColumnEncoder::encodeRScript] with a mandatory prefix *)

Definition testNonNameChar (text : string) (pos : nat) : result bool :=
  if decide (pos = 0) then Ok true
  else s ← substr text (pos - 1) 1; Ok (regex_match_nonNameChar s).

(** [pos - mandatoryPrefix.length()] is unsigned: when the prefix is longer
    than [pos] the difference wraps around to an offset past the end of any
    text, [substr] throws and the handler answers [false]. *)
Definition testFreePrefix (text mandatoryPrefix : string) (pos : nat) : result bool :=
  if decide (mandatoryPrefix = EmptyString) then Ok false
  else
    let try_block :=
      if decide (size mandatoryPrefix ≤ pos) then
        s ← substr text (pos - size mandatoryPrefix) (size mandatoryPrefix);
        if decide (s = mandatoryPrefix)
        then b ← testNonNameChar text (pos - size mandatoryPrefix); Ok (Some b)
        else Ok None
      else Throw out_of_range in
    match try_block with
    | Ok (Some b) => Ok b
    | Ok None => Ok false
    | Throw out_of_range => Ok false
    | Throw e => Throw e
    end.

(** The [for] loop of [testEndFree]; [fuel] is [text.size() - bracePos]. *)
Fixpoint testEndFree_loop (fuel bracePos : nat) (endIsFree keepGoing : bool)
    (text : string) : bool :=
  match fuel with
  | 0 => endIsFree
  | S fuel' =>
      if endIsFree && keepGoing then
        if bool_decide (at_ text bracePos = "("%char)
        then testEndFree_loop fuel' (S bracePos) false keepGoing text
        else if bool_decide (at_ text bracePos ≠ "009"%char)
                && bool_decide (at_ text bracePos ≠ " "%char)
             then testEndFree_loop fuel' (S bracePos) endIsFree false text
             else testEndFree_loop fuel' (S bracePos) endIsFree keepGoing text
      else endIsFree
  end.

Definition testEndFree (text : string) (pos : nat) : result bool :=
  endIsFree ← (if decide (pos = size text) then Ok true
               else s ← substr text pos 1; Ok (regex_match_nonNameChar s));
  Ok (testEndFree_loop (size text - pos) pos endIsFree true text).

(** The body of the loop over [foundColPositions]; the state is the text and
    the set [*columnNamesFound]. *)
Definition encodeAt (oldCol newCol mandatoryPrefix : string)
    (st : string * gset string) (foundPos : nat) : result (string * gset string) :=
  let '(text, found) := st in
  let foundPosEnd := foundPos + size oldCol in
  hasFreePrefix ← testFreePrefix text mandatoryPrefix foundPos;
  if bool_decide (mandatoryPrefix ≠ EmptyString) && negb hasFreePrefix
  then Ok (text, found)
  else
    startIsFree ← (if hasFreePrefix then Ok true else testNonNameChar text foundPos);
    endIsFree ← testEndFree text foundPosEnd;
    if startIsFree && endIsFree
    then text' ← replace text foundPos (size oldCol) newCol;
         Ok (text', {[oldCol]} ∪ found)
    else Ok (text, found).

(** The body of the loop over [names]. *)
Definition encodeName (map : gmap string string) (mandatoryPrefix : string)
    (st : string * gset string) (oldCol : string) : result (string * gset string) :=
  newCol ← map_at map oldCol;
  let foundColPositions := reverse (getPositionsColumnNameMatches st.1 oldCol) in
  foldl_result (encodeAt oldCol newCol mandatoryPrefix) st foundColPositions.

(** The result pairs the text with [*columnNamesFound], which the source
    fills only when the caller passes a set. *)
Definition encodeRScript (text : string) (map : gmap string string)
    (names : list string) (mandatoryPrefix : string) : result (string * gset string) :=
  foldl_result (encodeName map mandatoryPrefix) (text, ∅) names.

(** ** [columnType] (columntype.h) *)

Inductive columnType : Type :=
  | unknown | scale | ordinal | nominal | nominalText.

Global Instance columnType_eq_dec : EqDecision columnType.
Proof. solve_decision. Defined.

(** Modelled from the spec: the [DECLARE_ENUM] macro of enumutilities.h is
    not part of the sources; [columnTypeToString] spells an enumerator the
    way it is declared, which gives the qualified names [name.scale],
    [name.ordinal] and [name.nominal]. *)
Definition columnTypeToString (t : columnType) : string :=
  match t with
  | unknown => "unknown"
  | scale => "scale"
  | ordinal => "ordinal"
  | nominal => "nominal"
  | nominalText => "nominalText"
  end.

(** ** Iteration order of the standard containers *)

(** A [std::map<std::string, V>] is walked by increasing key, bytes compared
    as unsigned values. *)
Definition key_le {V} : relation (string * V) := λ a b, String.le a.1 b.1.
Global Instance key_le_dec {V} : RelDecision (@key_le V).
Proof. intros a b. unfold key_le. apply _. Defined.

Definition std_map_items {V} (m : gmap string V) : list (string * V) :=
  merge_sort key_le (map_to_list m).

(** A [std::set<ColumnEncoder*>] is walked by increasing address. *)
Definition std_set_items (s : gset N) : list N := merge_sort N.le (elements s).

(** ** [std::sort] *)

(** [std::sort(first, last, comp)] orders the elements by [comp]; which of
    two elements that compare equal comes first is left open by the
    standard and decided by the library.  The model follows libstdc++
    (bits/stl_algo.h and bits/stl_heap.h of GCC 12): a range of more than
    sixteen elements is partitioned around the median of three until the
    parts are short or the depth limit is used up, in which case the part
    is sorted as a heap, and one insertion sort finishes the whole range.
    On a range of up to sixteen elements this is the insertion sort alone,
    which keeps elements that compare equal in their order.

    A range is a list, an iterator an offset into it.  The loops that the
    library leaves unguarded stop at the ends of the list here; with a
    comparison that is a strict weak ordering they stop before. *)

(** [std::iter_swap] *)
Definition iter_swap {A} (i j : nat) (l : list A) : list A :=
  match l !! i, l !! j with
  | Some x, Some y => <[i := y]> (<[j := x]> l)
  | _, _ => l
  end.

(** [__unguarded_linear_insert]: [val] moves to the left past the elements
    that [comp] puts behind it.  [before] holds the elements to its left,
    from the nearest to the first. *)
Fixpoint linear_insert {A} (comp : A → A → bool) (val : A) (before : list A) : list A :=
  match before with
  | [] => [val]
  | next :: rest =>
      if comp val next then next :: linear_insert comp val rest else val :: before
  end.

Definition unguarded_linear_insert {A} (comp : A → A → bool) (sorted : list A) (val : A)
    : list A :=
  reverse (linear_insert comp val (reverse sorted)).

(** The body of the loop of [__insertion_sort]: an element that goes before
    the first one is moved there at once. *)
Definition insertion_step {A} (comp : A → A → bool) (sorted : list A) (val : A)
    : list A :=
  match sorted with
  | first :: _ =>
      if comp val first then val :: sorted else unguarded_linear_insert comp sorted val
  | [] => [val]
  end.

Definition insertion_sort {A} (comp : A → A → bool) (l : list A) : list A :=
  foldl (insertion_step comp) [] l.

Definition S_threshold : nat := 16.

(** [__final_insertion_sort] *)
Definition final_insertion_sort {A} (comp : A → A → bool) (l : list A) : list A :=
  if decide (S_threshold < length l) then
    foldl (unguarded_linear_insert comp) (insertion_sort comp (take S_threshold l))
      (drop S_threshold l)
  else insertion_sort comp l.

(** [__move_median_to_first] *)
Definition move_median_to_first {A} (comp : A → A → bool) (result a b c : nat)
    (l : list A) : list A :=
  match l !! a, l !! b, l !! c with
  | Some xa, Some xb, Some xc =>
      if comp xa xb then
        if comp xb xc then iter_swap result b l
        else if comp xa xc then iter_swap result c l
        else iter_swap result a l
      else if comp xa xc then iter_swap result a l
      else if comp xb xc then iter_swap result c l
      else iter_swap result b l
  | _, _, _ => l
  end.

(** The number of elements at the head of [l] that satisfy [P]. *)
Fixpoint run_length {A} (P : A → bool) (l : list A) : nat :=
  match l with
  | x :: l' => if P x then S (run_length P l') else 0
  | [] => 0
  end.

(** [__unguarded_partition]: [first] runs up and [last] runs down to the
    next elements that are on the wrong side of the pivot, which are
    swapped.  The pivot is the first element of the range, which the loop
    does not move.  Every round moves [first] up, so the length of the
    range bounds the rounds. *)
Fixpoint unguarded_partition {A} (fuel : nat) (comp : A → A → bool) (pivot : A)
    (first last : nat) (l : list A) : nat * list A :=
  match fuel with
  | 0 => (first, l)
  | S fuel' =>
      let first := first + run_length (λ x, comp x pivot) (drop first l) in
      let last := last - 1 in
      let last := last - run_length (λ x, comp pivot x) (reverse (take (S last) l)) in
      if decide (first < last)
      then unguarded_partition fuel' comp pivot (S first) last (iter_swap first last l)
      else (first, l)
  end.

(** [__unguarded_partition_pivot] *)
Definition unguarded_partition_pivot {A} (comp : A → A → bool) (l : list A)
    : nat * list A :=
  let mid := length l / 2 in
  let l := move_median_to_first comp 0 1 mid (length l - 1) l in
  match l with
  | pivot :: _ => unguarded_partition (length l) comp pivot 1 (length l) l
  | [] => (0, l)
  end.

(** [__push_heap].  The library holds the element that is on its way in
    [__value] and moves the others into the hole; here the element stays
    in the hole, so that every move is a swap.  The hole moves to its
    parent in every round. *)
Fixpoint push_heap {A} (fuel : nat) (comp : A → A → bool) (holeIndex topIndex : nat)
    (l : list A) : list A :=
  match fuel with
  | 0 => l
  | S fuel' =>
      let parent := (holeIndex - 1) / 2 in
      match l !! parent, l !! holeIndex with
      | Some p, Some value =>
          if bool_decide (topIndex < holeIndex) && comp p value
          then push_heap fuel' comp parent topIndex (iter_swap holeIndex parent l)
          else l
      | _, _ => l
      end
  end.

(** The first loop of [__adjust_heap]: the hole moves down to the child
    that [comp] does not put before the other.  The result is the hole and
    the range. *)
Fixpoint adjust_heap_down {A} (fuel : nat) (comp : A → A → bool) (holeIndex len : nat)
    (l : list A) : nat * list A :=
  match fuel with
  | 0 => (holeIndex, l)
  | S fuel' =>
      if decide (holeIndex < (len - 1) / 2) then
        let secondChild := 2 * (holeIndex + 1) in
        let secondChild :=
          match l !! secondChild, l !! (secondChild - 1) with
          | Some x, Some y => if comp x y then secondChild - 1 else secondChild
          | _, _ => secondChild
          end in
        adjust_heap_down fuel' comp secondChild len (iter_swap holeIndex secondChild l)
      else (holeIndex, l)
  end.

(** [__adjust_heap] *)
Definition adjust_heap {A} (comp : A → A → bool) (holeIndex len : nat) (l : list A)
    : list A :=
  let topIndex := holeIndex in
  let '(holeIndex, l) := adjust_heap_down len comp holeIndex len l in
  let '(holeIndex, l) :=
    if bool_decide (Nat.even len) && bool_decide (holeIndex = (len - 2) / 2) then
      let secondChild := 2 * (holeIndex + 1) in
      (secondChild - 1, iter_swap holeIndex (secondChild - 1) l)
    else (holeIndex, l) in
  push_heap (S holeIndex) comp holeIndex topIndex l.

(** [__make_heap] *)
Definition make_heap {A} (comp : A → A → bool) (l : list A) : list A :=
  let len := length l in
  if decide (len < 2) then l
  else foldl (λ l parent, adjust_heap comp parent len l) l
         (reverse (seq 0 (S ((len - 2) / 2)))).

(** [__pop_heap(first, last, last)] *)
Definition pop_heap {A} (comp : A → A → bool) (last : nat) (l : list A) : list A :=
  adjust_heap comp 0 last (iter_swap 0 last l).

(** [__sort_heap] *)
Definition sort_heap {A} (comp : A → A → bool) (l : list A) : list A :=
  foldl (λ l last, pop_heap comp last l) l (reverse (seq 1 (length l - 1))).

(** [__introsort_loop].  The recursive call sorts the part behind the cut
    and the loop goes on with the part before it, both with the depth
    limit that is left. *)
Fixpoint introsort_loop {A} (comp : A → A → bool) (depth_limit : nat) (l : list A)
    : list A :=
  if decide (S_threshold < length l) then
    match depth_limit with
    | 0 => sort_heap comp (make_heap comp l)
    | S depth_limit =>
        let '(cut, l) := unguarded_partition_pivot comp l in
        introsort_loop comp depth_limit (take cut l)
        ++ introsort_loop comp depth_limit (drop cut l)
    end
  else l.

Definition std_sort {A} (comp : A → A → bool) (l : list A) : list A :=
  final_insertion_sort comp (introsort_loop comp (Nat.log2 (length l) * 2) l).

(** ** The per-encoder tables *)

Record ColumnEncoder : Type := mkColumnEncoder {
  _encodePrefix : string;
  _encodePostfix : string;
  _encodingMap : gmap string string;
  _decodingMap : gmap string string;
  _decodingTypes : gmap string columnType;
  _originalNames : list string;
  _encodedNames : list string;
  _dataSetTypes : gmap string columnType;
}.

(** [sortVectorBigToSmall]: [std::sort] with the comparison
    [a.size() > b.size()].  A list it returns is ordered by [bigger_first]. *)
Definition bigger_first : relation string := λ a b, size b ≤ size a.
Global Instance bigger_first_dec : RelDecision bigger_first.
Proof. intros a b. unfold bigger_first. apply _. Defined.

Definition sortVectorBigToSmall (vec : list string) : list string :=
  std_sort (λ a b, bool_decide (size b < size a)) vec.

(** [runningCounter] is a [size_t]: the increment wraps at 2^64. *)
Definition size_t_succ (n : N) : N := ((n + 1) `mod` 2 ^ 64)%N.

(** The lambda [encodedNameGenerator]: the name for the current counter and
    the incremented counter. *)
Definition encodedNameGenerator (this : ColumnEncoder) (runningCounter : N) : string * N :=
  (_encodePrefix this +:+ pretty runningCounter +:+ _encodePostfix this,
   size_t_succ runningCounter).

(** The branch for a name without a column type. *)
Definition registerUnknown (name : string) (st : N * ColumnEncoder) : N * ColumnEncoder :=
  let '(runningCounter, this) := st in
  let '(encodedName, runningCounter) := encodedNameGenerator this runningCounter in
  (runningCounter,
   mkColumnEncoder (_encodePrefix this) (_encodePostfix this)
     (<[name := encodedName]> (_encodingMap this))
     (<[encodedName := name]> (_decodingMap this))
     (_decodingTypes this)
     (_originalNames this)
     (_encodedNames this ++ [encodedName])
     (_dataSetTypes this)).

(** The body of the loop over the three column types. *)
Definition registerQualified (name : string) (declared : columnType)
    (st : N * ColumnEncoder) (colType : columnType) : N * ColumnEncoder :=
  let '(runningCounter, this) := st in
  let qualifiedName := name +:+ "." +:+ columnTypeToString colType in
  let '(encodedName, runningCounter) := encodedNameGenerator this runningCounter in
  let encodingMap' := <[qualifiedName := encodedName]> (_encodingMap this) in
  (runningCounter,
   mkColumnEncoder (_encodePrefix this) (_encodePostfix this)
     (if decide (colType = declared) then <[name := encodedName]> encodingMap'
      else encodingMap')
     (<[encodedName := name]> (_decodingMap this))
     (<[encodedName := colType]> (_decodingTypes this))
     (_originalNames this ++ [qualifiedName])
     (_encodedNames this ++ [encodedName])
     (_dataSetTypes this)).

Definition pushOriginalName (name : string) (this : ColumnEncoder) : ColumnEncoder :=
  mkColumnEncoder (_encodePrefix this) (_encodePostfix this)
    (_encodingMap this) (_decodingMap this) (_decodingTypes this)
    (_originalNames this ++ [name]) (_encodedNames this) (_dataSetTypes this).

(** The body of the loop over [namesWithTypes]. *)
Definition registerName (st : N * ColumnEncoder) (nameType : string * columnType)
    : N * ColumnEncoder :=
  let st := (st.1, pushOriginalName nameType.1 st.2) in
  if decide (nameType.2 = unknown)
  then registerUnknown nameType.1 st
  else foldl (registerQualified nameType.1 nameType.2) st [scale; ordinal; nominal].

(** [ColumnEncoder::setCurrentNames], the part that works on the encoder's
    own members: the source clears [_encodingMap], [_decodingMap] and
    [_encodedNames], and nothing else. *)
Definition setCurrentNames_members (namesWithTypes : gmap string columnType)
    (this : ColumnEncoder) : ColumnEncoder :=
  let cleared :=
    mkColumnEncoder (_encodePrefix this) (_encodePostfix this)
      ∅ ∅ (_decodingTypes this) (_originalNames this) [] namesWithTypes in
  let this := (foldl registerName (0%N, cleared) (std_map_items namesWithTypes)).2 in
  mkColumnEncoder (_encodePrefix this) (_encodePostfix this)
    (_encodingMap this) (_decodingMap this) (_decodingTypes this)
    (sortVectorBigToSmall (_originalNames this)) (_encodedNames this)
    (_dataSetTypes this).

(** A freshly constructed encoder: every container is empty. *)
Definition emptyEncoder (prefix postfix : string) : ColumnEncoder :=
  mkColumnEncoder prefix postfix ∅ ∅ ∅ [] [] ∅.

(** ** The registry: the static members and the encoders they point to *)

(** Encoders live on the heap and are known by address: [_columnEncoder]
    and the elements of [*_otherEncoders] are pointers, and the primary
    encoder is usually an element of [*_otherEncoders] as well.  The last
    five fields are the function-local statics of the aggregate views. *)
Record Registry : Type := mkRegistry {
  heap : gmap N ColumnEncoder;
  _columnEncoder : option N;
  _otherEncoders : option (gset N);
  _encodingMapInvalidated : bool;
  _decodingMapInvalidated : bool;
  _decodingTypeInvalidated : bool;
  _decoSafeMapInvalidated : bool;
  _originalNamesInvalidated : bool;
  _encodedNamesInvalidated : bool;
  encodingMap_map : gmap string string;
  decodingMap_map : gmap string string;
  decodingTypes_map : gmap string columnType;
  originalNames_vec : list string;
  encodedNames_vec : list string;
}.

(** The state of the statics when the program starts. *)
Definition initialRegistry : Registry :=
  mkRegistry ∅ None None true true true true true true ∅ ∅ ∅ [] [].

Definition invalidateAll (r : Registry) : Registry :=
  mkRegistry (heap r) (_columnEncoder r) (_otherEncoders r)
    true true true true true true
    (encodingMap_map r) (decodingMap_map r) (decodingTypes_map r)
    (originalNames_vec r) (encodedNames_vec r).

Definition with_heap (h : gmap N ColumnEncoder) (r : Registry) : Registry :=
  mkRegistry h (_columnEncoder r) (_otherEncoders r)
    (_encodingMapInvalidated r) (_decodingMapInvalidated r)
    (_decodingTypeInvalidated r) (_decoSafeMapInvalidated r)
    (_originalNamesInvalidated r) (_encodedNamesInvalidated r)
    (encodingMap_map r) (decodingMap_map r) (decodingTypes_map r)
    (originalNames_vec r) (encodedNames_vec r).

(** [ColumnEncoder::ColumnEncoder(prefix, postfix)], run for the object
    allocated at [this]. *)
Definition construct (this : N) (prefix postfix : string) (r : Registry) : Registry :=
  let r := with_heap (<[this := emptyEncoder prefix postfix]> (heap r)) r in
  let r := match _otherEncoders r with
           | None => invalidateAll r
           | Some _ => r
           end in
  mkRegistry (heap r) (_columnEncoder r)
    (Some ({[this]} ∪ default ∅ (_otherEncoders r)))
    (_encodingMapInvalidated r) (_decodingMapInvalidated r)
    (_decodingTypeInvalidated r) (_decoSafeMapInvalidated r)
    (_originalNamesInvalidated r) (_encodedNamesInvalidated r)
    (encodingMap_map r) (decodingMap_map r) (decodingTypes_map r)
    (originalNames_vec r) (encodedNames_vec r).

(** [ColumnEncoder::columnEncoder()]: the primary encoder, created on first
    use at the address [fresh] the allocator hands out.  The default
    arguments of the constructor are declared in columnencoder.h, which is
    not part of the sources; they are parameters here. *)
Definition columnEncoder (fresh : N) (prefix postfix : string) (r : Registry)
    : N * Registry :=
  match _columnEncoder r with
  | Some p => (p, r)
  | None =>
      let r := construct fresh prefix postfix r in
      (fresh,
       mkRegistry (heap r) (Some fresh) (_otherEncoders r)
         (_encodingMapInvalidated r) (_decodingMapInvalidated r)
         (_decodingTypeInvalidated r) (_decoSafeMapInvalidated r)
         (_originalNamesInvalidated r) (_encodedNamesInvalidated r)
         (encodingMap_map r) (decodingMap_map r) (decodingTypes_map r)
         (originalNames_vec r) (encodedNames_vec r))
  end.

(** [ColumnEncoder::setCurrentNames] on the encoder at address [this]. *)
Definition setCurrentNames (this : N) (namesWithTypes : gmap string columnType)
    (r : Registry) : result Registry :=
  match heap r !! this with
  | None => Throw null_dereference
  | Some e =>
      Ok (invalidateAll
            (with_heap (<[this := setCurrentNames_members namesWithTypes e]> (heap r)) r))
  end.

(** *** Aggregate views *)

Definition deref (r : Registry) (p : N) : result ColumnEncoder :=
  match heap r !! p with
  | Some e => Ok e
  | None => Throw null_dereference
  end.

(** The two inner loops of a map view: every entry of [other] whose key is
    not yet in [map] is added. *)
Definition fillAbsent {V} (map other : gmap string V) : gmap string V :=
  foldl (λ map keyVal, match map !! keyVal.1 with
                       | None => <[keyVal.1 := keyVal.2]> map
                       | Some _ => map
                       end)
        map (std_map_items other).

(** The rebuild of a map view: the primary encoder's table, then the tables
    of the encoders of [*_otherEncoders] in address order. *)
Definition mergedMap {V} (member : ColumnEncoder → gmap string V) (r : Registry)
    : result (gmap string V) :=
  match _columnEncoder r with
  | None => Throw null_dereference
  | Some p =>
      primary ← deref r p;
      match _otherEncoders r with
      | None => Ok (member primary)
      | Some others =>
          foldl_result (λ map q, other ← deref r q; Ok (fillAbsent map (member other)))
                       (member primary) (std_set_items others)
      end
  end.

(** The rebuild of a list view. *)
Definition mergedVec (member : ColumnEncoder → list string) (r : Registry)
    : result (list string) :=
  match _columnEncoder r with
  | None => Throw null_dereference
  | Some p =>
      primary ← deref r p;
      match _otherEncoders r with
      | None => Ok (member primary)
      | Some others =>
          foldl_result (λ vec q, other ← deref r q; Ok (vec ++ member other))
                       (member primary) (std_set_items others)
      end
  end.

(** [ColumnEncoder::encodingMap()] *)
Definition encodingMap (r : Registry) : result (gmap string string) * Registry :=
  if _encodingMapInvalidated r then
    match mergedMap _encodingMap r with
    | Ok map =>
        (Ok map,
         mkRegistry (heap r) (_columnEncoder r) (_otherEncoders r)
           false (_decodingMapInvalidated r)
           (_decodingTypeInvalidated r) (_decoSafeMapInvalidated r)
           (_originalNamesInvalidated r) (_encodedNamesInvalidated r)
           map (decodingMap_map r) (decodingTypes_map r)
           (originalNames_vec r) (encodedNames_vec r))
    | Throw e => (Throw e, r)
    end
  else (Ok (encodingMap_map r), r).

(** [ColumnEncoder::decodingMap()] *)
Definition decodingMap (r : Registry) : result (gmap string string) * Registry :=
  if _decodingMapInvalidated r then
    match mergedMap _decodingMap r with
    | Ok map =>
        (Ok map,
         mkRegistry (heap r) (_columnEncoder r) (_otherEncoders r)
           (_encodingMapInvalidated r) false
           (_decodingTypeInvalidated r) (_decoSafeMapInvalidated r)
           (_originalNamesInvalidated r) (_encodedNamesInvalidated r)
           (encodingMap_map r) map (decodingTypes_map r)
           (originalNames_vec r) (encodedNames_vec r))
    | Throw e => (Throw e, r)
    end
  else (Ok (decodingMap_map r), r).

(** [ColumnEncoder::decodingTypes()] *)
Definition decodingTypes (r : Registry) : result (gmap string columnType) * Registry :=
  if _decodingTypeInvalidated r then
    match mergedMap _decodingTypes r with
    | Ok map =>
        (Ok map,
         mkRegistry (heap r) (_columnEncoder r) (_otherEncoders r)
           (_encodingMapInvalidated r) (_decodingMapInvalidated r)
           false (_decoSafeMapInvalidated r)
           (_originalNamesInvalidated r) (_encodedNamesInvalidated r)
           (encodingMap_map r) (decodingMap_map r) map
           (originalNames_vec r) (encodedNames_vec r))
    | Throw e => (Throw e, r)
    end
  else (Ok (decodingTypes_map r), r).

(** [ColumnEncoder::originalNames()]: the static vector is sorted on every
    call, rebuilt or not. *)
Definition originalNames (r : Registry) : result (list string) * Registry :=
  let rebuilt :=
    if _originalNamesInvalidated r then mergedVec _originalNames r
    else Ok (originalNames_vec r) in
  match rebuilt with
  | Ok vec =>
      let vec := sortVectorBigToSmall vec in
      (Ok vec,
       mkRegistry (heap r) (_columnEncoder r) (_otherEncoders r)
         (_encodingMapInvalidated r) (_decodingMapInvalidated r)
         (_decodingTypeInvalidated r) (_decoSafeMapInvalidated r)
         false (_encodedNamesInvalidated r)
         (encodingMap_map r) (decodingMap_map r) (decodingTypes_map r)
         vec (encodedNames_vec r))
  | Throw e => (Throw e, r)
  end.

(** [ColumnEncoder::encodedNames()] *)
Definition encodedNames (r : Registry) : result (list string) * Registry :=
  let rebuilt :=
    if _encodedNamesInvalidated r then mergedVec _encodedNames r
    else Ok (encodedNames_vec r) in
  match rebuilt with
  | Ok vec =>
      let vec := sortVectorBigToSmall vec in
      (Ok vec,
       mkRegistry (heap r) (_columnEncoder r) (_otherEncoders r)
         (_encodingMapInvalidated r) (_decodingMapInvalidated r)
         (_decodingTypeInvalidated r) (_decoSafeMapInvalidated r)
         (_originalNamesInvalidated r) false
         (encodingMap_map r) (decodingMap_map r) (decodingTypes_map r)
         (originalNames_vec r) vec)
  | Throw e => (Throw e, r)
  end.

(** *** [encode], [decode], [columnTypeFromEncoded] *)

(** The spec calls the two [std::runtime_error]s NotAColumnName and
    NotAnEncodedName. *)
Definition NotAColumnName (name : string) : exn :=
  runtime_error ("Trying to encode columnName but '" +:+ name +:+ "' is not a columnName!").
Definition NotAnEncodedName (name : string) : exn :=
  runtime_error ("Trying to decode columnName but '" +:+ name
                 +:+ "' is not an encoded columnName!").

(** [ColumnEncoder::encode] *)
Definition encode (name : string) (r : Registry) : result string * Registry :=
  if decide (name = EmptyString) then (Ok EmptyString, r)
  else
    match encodingMap r with
    | (Throw e, r) => (Throw e, r)
    | (Ok map, r) =>
        match map !! name with
        | None => (Throw (NotAColumnName name), r)
        | Some _ =>
            match encodingMap r with
            | (Throw e, r) => (Throw e, r)
            | (Ok map, r) => (map_at map name, r)
            end
        end
    end.

(** [ColumnEncoder::decode] *)
Definition decode (name : string) (r : Registry) : result string * Registry :=
  if decide (name = EmptyString) then (Ok EmptyString, r)
  else
    match decodingMap r with
    | (Throw e, r) => (Throw e, r)
    | (Ok map, r) =>
        match map !! name with
        | None => (Throw (NotAnEncodedName name), r)
        | Some _ =>
            match decodingMap r with
            | (Throw e, r) => (Throw e, r)
            | (Ok map, r) => (map_at map name, r)
            end
        end
    end.

(** [ColumnEncoder::columnTypeFromEncoded] *)
Definition columnTypeFromEncoded (name : string) (r : Registry)
    : result columnType * Registry :=
  if decide (name = EmptyString) then (Ok unknown, r)
  else
    match decodingTypes r with
    | (Throw e, r) => (Throw e, r)
    | (Ok map, r) =>
        match map !! name with
        | None => (Ok unknown, r)
        | Some _ =>
            match decodingTypes r with
            | (Throw e, r) => (Throw e, r)
            | (Ok map, r) => (map_at map name, r)
            end
        end
    end.

(** *** [ColumnEncoder::encodeRScript] with a set of allowed prefixes *)

Definition shorter_first : relation string := λ l r, size l ≤ size r.
Global Instance shorter_first_dec : RelDecision shorter_first.
Proof. intros a b. unfold shorter_first. apply _. Defined.

(** The prefixes as the loop sees them: the elements of the [std::set] in
    its own order, sorted by [std::sort] with the comparison
    [l.size() < r.size()], behind an empty prefix. *)
Definition prefixOrder (allowedPrefixes : gset string) : list string :=
  EmptyString
  :: std_sort (λ l r, bool_decide (size l < size r))
       (merge_sort String.le (elements allowedPrefixes)).

(** The body of the loop over the prefixes; [std::map::insert] keeps an
    entry that is already there.  The two aggregate views are arguments of
    one call, evaluated here in the order they are written. *)
Definition encodeWithPrefix (st : string * gmap string (gset string) * Registry)
    (prefix : string) : result (string * gmap string (gset string) * Registry) :=
  let '(text, prefixedColumnsFound, r) := st in
  match encodingMap r with
  | (Throw e, _) => Throw e
  | (Ok map, r) =>
      match originalNames r with
      | (Throw e, _) => Throw e
      | (Ok names, r) =>
          '(text, columnNamesFound) ← encodeRScript text map names prefix;
          Ok (text,
              match prefixedColumnsFound !! prefix with
              | None => <[prefix := columnNamesFound]> prefixedColumnsFound
              | Some _ => prefixedColumnsFound
              end,
              r)
      end
  end.

Definition encodeRScript_prefixes (text : string) (allowedPrefixes : gset string)
    (r : Registry) : result (string * gmap string (gset string) * Registry) :=
  foldl_result encodeWithPrefix (text, ∅, r) (prefixOrder allowedPrefixes).

(** [ColumnEncoder::encodeRScript(text, columnNamesFound)]: the aggregate
    views and no mandatory prefix. *)
Definition encodeRScript_static (text : string) (r : Registry)
    : result (string * gset string) * Registry :=
  match encodingMap r with
  | (Throw e, r) => (Throw e, r)
  | (Ok map, r) =>
      match originalNames r with
      | (Throw e, r) => (Throw e, r)
      | (Ok names, r) => (encodeRScript text map names EmptyString, r)
      end
  end.

(** ** [shouldEncode], [shouldDecode], [columnNames], [columnNamesEncoded] *)

Definition shouldEncode (this : ColumnEncoder) (name : string) : bool :=
  bool_decide (is_Some (_encodingMap this !! name)).

Definition shouldDecode (this : ColumnEncoder) (name : string) : bool :=
  bool_decide (is_Some (_decodingMap this !! name)).

Definition columnNames (r : Registry) : result (list string) :=
  match _columnEncoder r with
  | Some p => e ← deref r p; Ok (_originalNames e)
  | None => Ok []
  end.

Definition columnNamesEncoded (r : Registry) : result (list string) :=
  match _columnEncoder r with
  | Some p => e ← deref r p; Ok (_encodedNames e)
  | None => Ok []
  end.

(** ** The encoder that replaces names: [ColumnEncoder(decodeDifferently)] *)

(** The body of the constructor's loop over [_encodedNames].  Reading
    [_decodingMap[encodedName]] makes an empty entry when there is none;
    [decodeDifferently.at] is called only for a key that [count] has found. *)
Definition redirect (decodeDifferently : gmap string string) (this : ColumnEncoder)
    (encodedName : string) : ColumnEncoder :=
  let decodingMap :=
    match _decodingMap this !! encodedName with
    | Some _ => _decodingMap this
    | None => <[encodedName := EmptyString]> (_decodingMap this)
    end in
  let current := default EmptyString (decodingMap !! encodedName) in
  mkColumnEncoder (_encodePrefix this) (_encodePostfix this)
    (_encodingMap this)
    (match decodeDifferently !! current with
     | Some different => <[encodedName := different]> decodingMap
     | None => decodingMap
     end)
    (_decodingTypes this) (_originalNames this) (_encodedNames this)
    (_dataSetTypes this).

(** The constructor.  The object lives on the caller's stack and does not
    enter [*_otherEncoders]; [setCurrentNames] still invalidates the static
    views.  The result is the encoder and the new state of the statics. *)
Definition replacerEncoder (decodeDifferently : gmap string string) (r : Registry)
    : ColumnEncoder * Registry :=
  let originalNames : gmap string columnType := (λ _, unknown) <$> decodeDifferently in
  let this :=
    setCurrentNames_members originalNames
      (emptyEncoder "JASPColumn_" "_For_Replacement") in
  (foldl (redirect decodeDifferently) this (_encodedNames this), invalidateAll r).

(** [ColumnEncoder::replaceColumnNamesInRScript].  [fuel] bounds the loop of
    the inner [replaceAll]; the destructor of the temporary encoder finds it
    neither primary nor among the other encoders and does nothing. *)
Definition replaceColumnNamesInRScript (fuel : nat) (rCode : string)
    (changedNames : gmap string string) (r : Registry)
    : option (result string) * Registry :=
  let '(tempEncoder, r) := replacerEncoder changedNames r in
  (match encodeRScript rCode (_encodingMap tempEncoder) (_originalNames tempEncoder)
           EmptyString with
   | Ok (text, _) =>
       replaceAll fuel text (_decodingMap tempEncoder) (_encodedNames tempEncoder)
   | Throw e => Some (Throw e)
   end, r).

(** [ColumnEncoder::removeColumnNamesFromRScript] *)
Definition removedColumn (col : string) : string :=
  "stop('column " +:+ col +:+ " was removed from this RScript')".

(** The map the loop over [colsToRemove] fills. *)
Definition replaceBy (colsToRemove : list string) : gmap string string :=
  foldl (λ replaceBy col, <[col := removedColumn col]> replaceBy) ∅ colsToRemove.

Definition removeColumnNamesFromRScript (fuel : nat) (rCode : string)
    (colsToRemove : list string) (r : Registry) : option (result string) * Registry :=
  replaceColumnNamesInRScript fuel rCode (replaceBy colsToRemove) r.

(** ** [ColumnEncoder::~ColumnEncoder] *)

Definition with_pointers (columnEncoder : option N) (otherEncoders : option (gset N))
    (r : Registry) : Registry :=
  mkRegistry (heap r) columnEncoder otherEncoders
    (_encodingMapInvalidated r) (_decodingMapInvalidated r)
    (_decodingTypeInvalidated r) (_decoSafeMapInvalidated r)
    (_originalNamesInvalidated r) (_encodedNamesInvalidated r)
    (encodingMap_map r) (decodingMap_map r) (decodingTypes_map r)
    (originalNames_vec r) (encodedNames_vec r).

(** The branch for an encoder that is not the primary one: it leaves
    [*_otherEncoders] when it is an element. *)
Definition destroyOther (this : N) (r : Registry) : Registry :=
  with_pointers (_columnEncoder r) ((λ others, others ∖ {[this]}) <$> _otherEncoders r) r.

(** [delete colEnc] in the loop of the primary encoder's destructor, where
    [_columnEncoder] is null already: the destructor takes the branch above
    and the object is freed.  Deleting an object that is not there is
    undefined behaviour; the model records it as a failure. *)
Definition deleteOther (colEnc : N) (r : Registry) : result Registry :=
  match heap r !! colEnc with
  | None => Throw null_dereference
  | Some _ =>
      let r := destroyOther colEnc r in
      Ok (with_heap (delete colEnc (heap r)) r)
  end.

(** The destructor of the object at [this]. *)
Definition destroy (this : N) (r : Registry) : result Registry :=
  if decide (_columnEncoder r ≠ Some this) then Ok (destroyOther this r)
  else
    let r := with_pointers None (_otherEncoders r) r in
    others ← match _otherEncoders r with
             | Some others => Ok others
             | None => Throw null_dereference
             end;
    r ← foldl_result (λ r colEnc, deleteOther colEnc r) r (std_set_items others);
    Ok (invalidateAll (with_pointers (_columnEncoder r) None r)).

(** [delete p]: the destructor runs, then the object is freed. *)
Definition delete_ (p : N) (r : Registry) : result Registry :=
  match heap r !! p with
  | None => Throw null_dereference
  | Some _ =>
      r ← destroy p r;
      match heap r !! p with
      | None => Throw null_dereference
      | Some _ => Ok (with_heap (delete p (heap r)) r)
      end
  end.

(** ** JSON values (jsoncpp's [Json::Value]) *)

(** A value is one of the eight [Json::ValueType]s.  An object keeps its
    members in a map ordered by name; a real is kept as the bits of its
    double, which the encoder never looks at. *)
Inductive Json : Type :=
  | nullValue
  | intValue (i : Z)
  | uintValue (u : N)
  | realValue (bits : N)
  | stringValue (s : string)
  | booleanValue (b : bool)
  | arrayValue (elements : list Json)
  | objectValue (members : gmap string Json).

(** Computations that may throw and, through the loop of the text
    [replaceAll], may run out of fuel. *)
Definition andThen {A B} (x : option (result A)) (k : A → option (result B))
    : option (result B) :=
  match x with
  | Some (Ok a) => k a
  | Some (Throw e) => Some (Throw e)
  | None => None
  end.

(** A loop over a container, and the elements of an array in turn. *)
Fixpoint foldl_andThen {A B} (f : A → B → option (result A)) (a : A) (l : list B)
    : option (result A) :=
  match l with
  | [] => Some (Ok a)
  | b :: l' => andThen (f a b) (λ a', foldl_andThen f a' l')
  end.

Fixpoint allThen {A} (l : list (option (result A))) : option (result (list A)) :=
  match l with
  | [] => Some (Ok [])
  | x :: l' => andThen x (λ a, andThen (allThen l') (λ r, Some (Ok (a :: r))))
  end.

(** ** [ColumnEncoder::replaceAll] on JSON *)

(** The replacement of one string: [replaceAllStrict] or the text
    [replaceAll]. *)
Definition replaceString (fuel : nat) (map : gmap string string) (names : list string)
    (replaceStrict : bool) (text : string) : option (result string) :=
  if replaceStrict then Some (Ok (replaceAllStrict text map))
  else replaceAll fuel text map names.

(** The body of the loop over the member names of an object: [replaced] is
    what the recursive call makes of the member; the state is the object and
    [changedMembers]. *)
Definition replaceMember (fuel : nat) (map : gmap string string) (names : list string)
    (replaceNames replaceStrict : bool)
    (st : gmap string Json * gmap string string)
    (member : string * option (result Json))
    : option (result (gmap string Json * gmap string string)) :=
  let '(json, changedMembers) := st in
  let '(optionName, replaced) := member in
  andThen replaced (λ value,
    let json := <[optionName := value]> json in
    if replaceNames then
      andThen (replaceString fuel map names replaceStrict optionName) (λ replacedName,
        Some (Ok (json,
                  if decide (replacedName ≠ optionName)
                  then <[optionName := replacedName]> changedMembers
                  else changedMembers)))
    else Some (Ok (json, changedMembers))).

(** The body of the loop over [changedMembers]:
    [json[new] = json[orig]; json.removeMember(orig)]. *)
Definition renameMember (json : gmap string Json) (origNew : string * string)
    : gmap string Json :=
  delete origNew.1 (<[origNew.2 := default nullValue (json !! origNew.1)]> json).

Fixpoint replaceAll_json (fuel : nat) (map : gmap string string) (names : list string)
    (replaceNames replaceStrict : bool) (json : Json) : option (result Json) :=
  match json with
  | arrayValue elements =>
      andThen (allThen (replaceAll_json fuel map names replaceNames replaceStrict
                          <$> elements))
              (λ elements, Some (Ok (arrayValue elements)))
  | objectValue members =>
      let replaced :=
        replaceAll_json fuel map names replaceNames replaceStrict <$> members in
      andThen (foldl_andThen (replaceMember fuel map names replaceNames replaceStrict)
                 (members, ∅) (std_map_items replaced))
              (λ '(json, changedMembers),
                 Some (Ok (objectValue
                             (foldl renameMember json (std_map_items changedMembers)))))
  | stringValue s =>
      andThen (replaceString fuel map names replaceStrict s)
              (λ s, Some (Ok (stringValue s)))
  | _ => Some (Ok json)
  end.

(** [ColumnEncoder::encodeJson] and [ColumnEncoder::decodeJson]: the
    aggregate views, in the order the arguments are written. *)
Definition encodeJson (fuel : nat) (json : Json) (replaceNames replaceStrict : bool)
    (r : Registry) : option (result Json) * Registry :=
  match encodingMap r with
  | (Throw e, r) => (Some (Throw e), r)
  | (Ok map, r) =>
      match originalNames r with
      | (Throw e, r) => (Some (Throw e), r)
      | (Ok names, r) =>
          (replaceAll_json fuel map names replaceNames replaceStrict json, r)
      end
  end.

Definition decodeJson (fuel : nat) (json : Json) (replaceNames : bool) (r : Registry)
    : option (result Json) * Registry :=
  match decodingMap r with
  | (Throw e, r) => (Some (Throw e), r)
  | (Ok map, r) =>
      match encodedNames r with
      | (Throw e, r) => (Some (Throw e), r)
      | (Ok names, r) => (replaceAll_json fuel map names replaceNames false json, r)
      end
  end.

(** * utils.cpp *)

Module Utils.

(** [Utils::remove]: for every string of [toRemove] in turn, the
    erase-remove idiom takes its occurrences out of [target]. *)
Definition remove (target toRemove : list string) : list string :=
  foldl (λ target remove, filter (λ str, str ≠ remove) target) target toRemove.

(** [path.find_last_of(c)]: the highest offset at which [c] stands. *)
Definition find_last_of (s : string) (c : ascii) : option nat :=
  last (filter (λ p, chars s !! p = Some c) (seq 0 (size s))).

Section getTypeFromFileName.
(** The enumeration [FileType] and [FileTypeBaseToString] are declared in
    utilenums.h, which is not part of the sources: the values of
    [FileType::empty] and [FileType::unknown] and the table of names are
    parameters.  A file type is the integer of its enumerator. *)
Context (empty unknown : Z) (FileTypeBaseToString : Z → string).

(** The [for] loop: the first [i] from [i] on, below [int(FileType::empty)],
    whose name is the suffix; [fuel] is the number of values left. *)
Fixpoint findFileType (fuel : nat) (i : Z) (suffix : string) (filetype : Z) : Z :=
  match fuel with
  | 0 => filetype
  | S fuel' =>
      if decide (suffix = FileTypeBaseToString i) then i
      else findFileType fuel' (i + 1) suffix filetype
  end.

(** [Utils::getTypeFromFileName] *)
Definition getTypeFromFileName (path : string) : result Z :=
  let lastPoint := find_last_of path "."%char in
  let filetype := match lastPoint with None => empty | Some _ => unknown end in
  match lastPoint with
  | Some lastPoint =>
      if decide (lastPoint + 1 < size path) then
        suffix ← substr path (lastPoint + 1) (size path);
        Ok (findFileType (Z.to_nat empty) 0 suffix filetype)
      else Ok filetype
  | None => Ok filetype
  end.
End getTypeFromFileName.

End Utils.
(** * What the specification says, and notions used in the statements *)

(** ** Scanner (spec section 4.2) *)

(** Quote tracking as a plain toggle: a quote character opens a run when
    none is open, the same delimiter closes it, nothing is escaped. *)
Definition quoteToggle (q : option ascii) (c : ascii) : option ascii :=
  if is_quote c then
    match q with
    | None => Some c
    | Some d => if decide (c = d) then None else Some d
    end
  else q.

(** Offset [pos] lies inside a quoted run: a run is open once the
    characters before [pos] have been read. *)
Definition insideQuotedRun (text : string) (pos : nat) : bool :=
  bool_decide (foldl quoteToggle None (take pos (chars text)) ≠ None).

(** [findOccurrences] as the specification words it: the offsets at which
    [name] occurs, without those inside a quoted run. *)
Definition findOccurrences_spec (text name : string) : list nat :=
  filter (λ p, occurs_at (chars text) (chars name) p = true
               ∧ insideQuotedRun text p = false)
         (seq 0 (size text)).

(** The scanner's two variables against the toggle state. *)
Definition quoteState (q : option ascii) (inString : bool) (delim : ascii) : Prop :=
  match q with
  | None => inString = false
  | Some d => inString = true ∧ delim = d
  end.

(** ** The end boundary *)

Definition isBlank (c : ascii) : bool :=
  bool_decide (c = "009"%char) || bool_decide (c = " "%char).

Fixpoint skipBlanks (l : list ascii) : list ascii :=
  match l with
  | c :: l' => if isBlank c then skipBlanks l' else l
  | [] => []
  end.

(** The first character behind the blanks is not an opening parenthesis. *)
Definition noCallParen (rest : list ascii) : bool :=
  negb (bool_decide (head (skipBlanks rest) = Some "("%char)).

(** The end boundary as the code decides it, on the text [rest] behind
    the match: the match ends the text or is followed by a character
    outside the identifier class, and no call parenthesis follows. *)
Definition endBoundaryFree (rest : list ascii) : bool :=
  match rest with
  | [] => true
  | c :: _ => negb (nameChar c)
  end
  && noCallParen rest.

(** ** Aggregate views *)

(** The first table of a list that knows [k]. *)
Fixpoint firstHit {V} (k : string) (tables : list (gmap string V)) : option V :=
  match tables with
  | [] => None
  | t :: tables' =>
      match t !! k with
      | Some v => Some v
      | None => firstHit k tables'
      end
  end.

(** Two registry states with the same encoders behind the same pointers. *)
Definition sameObjects (r r' : Registry) : Prop :=
  heap r' = heap r ∧ _columnEncoder r' = _columnEncoder r
  ∧ _otherEncoders r' = _otherEncoders r.

(** The primary encoder exists at [p] and every other encoder is alive. *)
Definition wellFormed (r : Registry) (p : N) (primary : ColumnEncoder) : Prop :=
  _columnEncoder r = Some p ∧ heap r !! p = Some primary
  ∧ ∀ others q, _otherEncoders r = Some others → q ∈ others → is_Some (heap r !! q).

(** ** Name tables *)

(** The qualified spelling of a name. *)
Definition qualified (name : string) (t : columnType) : string :=
  name +:+ "." +:+ columnTypeToString t.

(** The encoded name the generator makes for a counter value. *)
Definition encodedName (prefix postfix : string) (c : N) : string :=
  prefix +:+ pretty c +:+ postfix.

(** The tables keep the prefix and postfix they were built with. *)
Definition affixes (prefix postfix : string) (st : N * ColumnEncoder) : Prop :=
  _encodePrefix st.2 = prefix ∧ _encodePostfix st.2 = postfix.

(** The entry for [q] is in place: [q] encodes to the name made for the
    counter value [cid], which decodes to [name] with type [t]. *)
Definition entryInPlace (prefix postfix q name : string) (t : columnType) (cid : N)
    (st : N * ColumnEncoder) : Prop :=
  (cid < st.1)%N
  ∧ _encodingMap st.2 !! q = Some (encodedName prefix postfix cid)
  ∧ _decodingMap st.2 !! encodedName prefix postfix cid = Some name
  ∧ _decodingTypes st.2 !! encodedName prefix postfix cid = Some t.

(** ** Substitution (spec section 4.3 on the occurrences of section 4.2) *)

(** The boundary test of [encodeAt] on its own. *)
Definition isFree (text oldCol mandatoryPrefix : string) (foundPos : nat) : result bool :=
  hasFreePrefix ← testFreePrefix text mandatoryPrefix foundPos;
  if bool_decide (mandatoryPrefix ≠ EmptyString) && negb hasFreePrefix
  then Ok false
  else
    startIsFree ← (if hasFreePrefix then Ok true else testNonNameChar text foundPos);
    endIsFree ← testEndFree text (foundPos + size oldCol);
    Ok (startIsFree && endIsFree).

(** The next free, unquoted occurrence of [name] from [cursor] on. *)
Definition nextFreeOccurrence (text name mandatoryPrefix : string) (cursor : nat)
    : option nat :=
  head (filter (λ p, cursor ≤ p ∧ isFree text name mandatoryPrefix p = Ok true)
               (getPositionsColumnNameMatches text name)).

(** Among all names the one whose next free occurrence starts first; the
    earlier name of the list wins a tie. *)
Definition firstFreeFound (text : string) (names : list string)
    (mandatoryPrefix : string) (cursor : nat) : option nat * string :=
  foldl (λ '(firstFoundPos, replaceThis) replaceMe,
           let pos := nextFreeOccurrence text replaceMe mandatoryPrefix cursor in
           if npos_lt pos firstFoundPos then (pos, replaceMe)
           else (firstFoundPos, replaceThis))
        (None, EmptyString) names.

(** Replace that occurrence and move the cursor behind the inserted text. *)
Definition cursorResuming_step (text : string) (map : gmap string string)
    (names : list string) (mandatoryPrefix : string) (cursor : nat)
    : result (string * option nat) :=
  match firstFreeFound text names mandatoryPrefix cursor with
  | (Some firstFoundPos, replaceThis) =>
      replacement ← map_at map replaceThis;
      text' ← replace text firstFoundPos (size replaceThis) replacement;
      Ok (text', Some (firstFoundPos + size replacement))
  | (None, _) => Ok (text, None)
  end.

Fixpoint cursorResuming_loop (fuel : nat) (text : string) (map : gmap string string)
    (names : list string) (mandatoryPrefix : string) (cursor : option nat)
    : option (result string) :=
  match cursor with
  | None => Some (Ok text)
  | Some pos =>
      match fuel with
      | 0 => None
      | S fuel' =>
          match cursorResuming_step text map names mandatoryPrefix pos with
          | Ok (text', cursor') =>
              cursorResuming_loop fuel' text' map names mandatoryPrefix cursor'
          | Throw e => Some (Throw e)
          end
      end
  end.

(** [encodeInScriptText] as the specification words it: the cursor-resuming
    algorithm of [replaceAll], run on the free, unquoted occurrences. *)
Definition encodeInScriptText_spec (fuel : nat) (text : string)
    (map : gmap string string) (names : list string) (mandatoryPrefix : string)
    : option (result string) :=
  cursorResuming_loop fuel text map names mandatoryPrefix (Some 0).

(** A non-empty run of identifier characters. *)
Definition identifier (s : string) : Prop :=
  s ≠ EmptyString ∧ Forall (λ c, nameChar c = true) (chars s).

(** ** Texts as tokens *)

(** The substitution theorem reads a text as runs of identifier characters
    (tokens) between other characters. *)

(** The leading run of identifier characters, and what follows it. *)
Fixpoint identRun (l : list ascii) : list ascii :=
  match l with
  | c :: l' => if nameChar c then c :: identRun l' else []
  | [] => []
  end.

Fixpoint afterRun (l : list ascii) : list ascii :=
  match l with
  | c :: l' => if nameChar c then afterRun l' else l
  | [] => []
  end.

(** [l] does not begin with an identifier character. *)
Definition atBoundary (l : list ascii) : bool :=
  match l with
  | c :: _ => negb (nameChar c)
  | [] => true
  end.

(** The last character of [pre] is an identifier character. *)
Definition prevIdent (pre : list ascii) : bool :=
  match last pre with
  | Some c => nameChar c
  | None => false
  end.

(** What a token is rewritten to: its replacement when it stands outside
    quoted runs and no call parenthesis follows, else the token itself. *)
Definition tokenOut (rep : list ascii → option (list ascii)) (q : option ascii)
    (l : list ascii) : list ascii :=
  if bool_decide (q = None) && noCallParen (afterRun l)
  then default (identRun l) (rep (identRun l))
  else identRun l.

(** The text rewritten token by token, from the left.  [inToken] says that
    the token at the head of [l] has been dealt with already. *)
Fixpoint rewriteTokens (rep : list ascii → option (list ascii)) (q : option ascii)
    (inToken : bool) (l : list ascii) : list ascii :=
  match l with
  | [] => []
  | c :: l' =>
      if nameChar c
      then (if inToken then [] else tokenOut rep q l) ++ rewriteTokens rep q true l'
      else c :: rewriteTokens rep (quoteToggle q c) false l'
  end.

(** The replacement function of one name. *)
Definition repOne (n r : list ascii) : list ascii → option (list ascii) :=
  λ w, if decide (w = n) then Some r else None.

(** The replacement function of a name list with its map. *)
Definition repAll (map : gmap string string) (names : list string)
    : list ascii → option (list ascii) :=
  λ w, if decide (of_chars w ∈ names) then chars <$> map !! of_chars w else None.

(** Replacements are non-empty runs of identifier characters. *)
Definition repIdent (rep : list ascii → option (list ascii)) : Prop :=
  ∀ w r, rep w = Some r → r ≠ [] ∧ Forall (λ c, nameChar c = true) r.

Abbreviation identChars := (Forall (λ c, nameChar c = true)).

(** What a pass has made of the text behind an offset: behind an identifier
    character the rest of that token stands as it was. *)
Definition resumeTokens (rep : list ascii → option (list ascii)) (q : option ascii)
    (prev : bool) (l : list ascii) : list ascii :=
  if prev then identRun l ++ rewriteTokens rep q false (afterRun l)
  else rewriteTokens rep q false l.

(** The names of a list are identifiers and are mapped to identifiers that
    are no names of [all]. *)
Definition identifierNames (map : gmap string string) (all names : list string) : Prop :=
  ∀ n, n ∈ names →
    identifier n ∧ ∃ r, map !! n = Some r ∧ identifier r ∧ r ∉ all.

(** [name] has a free, unquoted occurrence at offset [p] of the text [l]. *)
Definition candAt (l : list ascii) (name : string) (p : nat) : Prop :=
  foldl quoteToggle None (take p l) = None
  ∧ take (size name) (drop p l) = chars name
  ∧ isFree (of_chars l) name EmptyString p = Ok true.

(** What the search over all names finds: the first offset at which some
    name has a free occurrence, with a name that has one there. *)
Definition firstFreeInv (l : list ascii) (names : list string) (cursor : nat)
    (acc : option nat * string) : Prop :=
  match acc.1 with
  | Some p => acc.2 ∈ names ∧ cursor ≤ p ∧ candAt l acc.2 p
              ∧ ∀ n' p', n' ∈ names → cursor ≤ p' < p → ¬ candAt l n' p'
  | None => ∀ n' p', n' ∈ names → cursor ≤ p' → ¬ candAt l n' p'
  end.

(** ** Invariants of the loops and tables *)

(** What one replacement step keeps: the names found are names tried, and
    as long as none is found the text is the one the call started with. *)
Definition foundInv (text0 : string) (tried : gset string) (st : string * gset string)
    : Prop :=
  st.2 ⊆ tried ∧ (st.2 = ∅ → st.1 = text0).

Abbreviation firstFound_body text pos :=
  (λ '(firstFoundPos, replaceThis) replaceMe,
     let pos0 := find text replaceMe pos in
     if npos_lt pos0 firstFoundPos then (pos0, replaceMe)
     else (firstFoundPos, replaceThis)).

(** Every entry of the encoding map leads back to a registered name: the
    identifier was made for a counter value below the current one, decodes
    to the name [n] of an input entry, and the key is [n] itself or one of
    its qualified spellings, with the column type recorded to match. *)
Definition encodingSound (prefix postfix : string) (m : gmap string columnType)
    (st : N * ColumnEncoder) : Prop :=
  ∀ q id, _encodingMap st.2 !! q = Some id →
    ∃ cid n t,
      id = encodedName prefix postfix cid ∧ (cid < st.1)%N
      ∧ m !! n = Some t
      ∧ _decodingMap st.2 !! id = Some n
      ∧ ((q = n ∧ (t = unknown ∨ _decodingTypes st.2 !! id = Some t))
         ∨ (t ≠ unknown ∧ ∃ ct, ct ∈ [scale; ordinal; nominal]
              ∧ q = qualified n ct ∧ _decodingTypes st.2 !! id = Some ct)).

(** [q] is a key that the entries [l] of the input give rise to: the bare
    name of an entry (unless its type is nominalText, for which the loop
    over the three types never meets the declared type) or a qualified
    spelling of a name that has a type. *)
Definition keyOf (l : list (string * columnType)) (q : string) : Prop :=
  ∃ n t, (n, t) ∈ l
    ∧ ((q = n ∧ t ≠ nominalText)
       ∨ (t ≠ unknown ∧ ∃ ct, ct ∈ [scale; ordinal; nominal] ∧ q = qualified n ct)).

(** The generated names and the decoding map go together: the names made
    for the counter values from [c0] on are appended in order, and they are
    the keys added to the decoding map. *)
Definition generatedFrom (prefix postfix : string) (c0 : N) (e0 : ColumnEncoder)
    (st : N * ColumnEncoder) : Prop :=
  (c0 ≤ st.1)%N
  ∧ _encodedNames st.2
    = _encodedNames e0
      ++ ((λ k, encodedName prefix postfix (c0 + N.of_nat k))
            <$> seq 0 (N.to_nat (st.1 - c0)))
  ∧ ∀ id, is_Some (_decodingMap st.2 !! id)
          ↔ is_Some (_decodingMap e0 !! id)
            ∨ id ∈ drop (length (_encodedNames e0)) (_encodedNames st.2).

(** [q] is a name that the entries [l] of the input put on the list of
    original names: the bare name of an entry, or a qualified spelling of a
    name that has a type. *)
Definition listedOf (l : list (string * columnType)) (q : string) : Prop :=
  ∃ n t, (n, t) ∈ l
    ∧ (q = n
       ∨ (t ≠ unknown ∧ ∃ ct, ct ∈ [scale; ordinal; nominal] ∧ q = qualified n ct)).

(** The encoders the aggregate views read: the primary one and those of
    [*_otherEncoders]. *)
Definition consulted (r : Registry) (q : N) : Prop :=
  _columnEncoder r = Some q
  ∨ ∃ others, _otherEncoders r = Some others ∧ q ∈ others.

Definition isDigit (c : ascii) : bool := in_range "0"%char "9"%char c.

(** What a token is renamed to. *)
Definition renamed (changedNames : gmap string string)
    : list ascii → option (list ascii) :=
  λ w, chars <$> changedNames !! of_chars w.

(** ** JSON: what the statements speak of *)

(** The value with [f] applied to every string in it, member names apart. *)
Fixpoint mapStrings (f : string → string) (json : Json) : Json :=
  match json with
  | stringValue s => stringValue (f s)
  | arrayValue elements => arrayValue (mapStrings f <$> elements)
  | objectValue members => objectValue (mapStrings f <$> members)
  | _ => json
  end.

(** Every string in the value, member names apart, satisfies [P]. *)
Inductive stringsIn (P : string → Prop) : Json → Prop :=
  | stringsIn_null : stringsIn P nullValue
  | stringsIn_int i : stringsIn P (intValue i)
  | stringsIn_uint u : stringsIn P (uintValue u)
  | stringsIn_real bits : stringsIn P (realValue bits)
  | stringsIn_boolean b : stringsIn P (booleanValue b)
  | stringsIn_string s : P s → stringsIn P (stringValue s)
  | stringsIn_array elements :
      Forall (stringsIn P) elements → stringsIn P (arrayValue elements)
  | stringsIn_object members :
      map_Forall (λ _, stringsIn P) members → stringsIn P (objectValue members).

Fixpoint Json_size (json : Json) : nat :=
  match json with
  | arrayValue elements => S (foldr (λ j acc, Json_size j + acc) 0 elements)
  | objectValue members => S (map_fold (λ _ j acc, Json_size j + acc) 0 members)
  | _ => 1
  end.

(** ** Registries of the examples *)

(** As [registryOfTables], with the primary encoder apart from the set of
    the other encoders. *)
Definition registryApart (primary auxiliary : gmap string string) : Registry :=
  mkRegistry
    {[ 1%N := mkColumnEncoder "JASPColumn_" "_Encoded" primary ∅ ∅ [] [] ∅;
       2%N := mkColumnEncoder "JASPColumn_" "_For_Replacement" auxiliary ∅ ∅ [] [] ∅ ]}
    (Some 1%N) (Some {[ 2%N ]})
    true true true true true true ∅ ∅ ∅ [] [].

(** One encoder, the primary, after [setCurrentNames]. *)
Definition registryOfNames (namesWithTypes : gmap string columnType) : Registry :=
  mkRegistry
    {[ 1%N := setCurrentNames_members namesWithTypes
                (emptyEncoder "JASPColumn_" "_Encoded") ]}
    (Some 1%N) (Some {[ 1%N ]})
    true true true true true true ∅ ∅ ∅ [] [].


(** A primary encoder and one auxiliary encoder, apart from it, each after
    [setCurrentNames]. *)
Definition registryOfNameLists (primary auxiliary : gmap string columnType) : Registry :=
  mkRegistry
    {[ 1%N := setCurrentNames_members primary (emptyEncoder "JASPColumn_" "_Encoded");
       2%N := setCurrentNames_members auxiliary
                (emptyEncoder "JASPColumn_" "_For_Replacement") ]}
    (Some 1%N) (Some {[ 2%N ]})
    true true true true true true ∅ ∅ ∅ [] [].
(** ** Concrete registries used in the examples *)

(** The primary encoder, created at address 1 with the prefix and postfix
    of the encoded names JASP shows, after one call of [setCurrentNames]. *)
Definition registryWith (namesWithTypes : gmap string columnType) : result Registry :=
  let '(p, r) := columnEncoder 1 "JASPColumn_" "_Encoded" initialRegistry in
  setCurrentNames p namesWithTypes r.

(** The same encoder after a second call of [setCurrentNames]. *)
Definition registryRenamed (first second : gmap string columnType) : result Registry :=
  r ← registryWith first; setCurrentNames 1 second r.

(** A primary encoder at address 1 and one auxiliary encoder at address 2
    with the given encoding tables. *)
Definition registryOfTables (primary auxiliary : gmap string string) : Registry :=
  mkRegistry
    {[ 1%N := mkColumnEncoder "JASPColumn_" "_Encoded" primary ∅ ∅ [] [] ∅;
       2%N := mkColumnEncoder "JASPColumn_" "_For_Replacement" auxiliary ∅ ∅ [] [] ∅ ]}
    (Some 1%N) (Some {[ 1%N; 2%N ]})
    true true true true true true ∅ ∅ ∅ [] [].

(** The text of the quote example: ['x'], then a double-quoted run that
    holds two single quotes and an [x]. *)
Definition quoteExampleText : string :=
  "'x'" +:+ String "034"%char "''x" +:+ String "034"%char EmptyString.

(** * Theorems *)

(** ** The model at work *)

Example getPositions_ex1 :
  getPositionsColumnNameMatches "colname + 'colname' colname" "colname" = [0; 20].
Proof. vm_compute. reflexivity. Qed.

Example encodeRScript_ex1 :
  fst <$> encodeRScript "colname + 'colname' TRUEcolname" {[ "colname" := "X0" ]}
            ["colname"] EmptyString
  = Ok "X0 + 'colname' TRUEcolname".
Proof. vm_compute. reflexivity. Qed.

Example replaceAll_ex1 :
  replaceAll 10 "abc ab" {[ "ab" := "X"; "abc" := "Y" ]} ["abc"; "ab"] = Some (Ok "Y X").
Proof. vm_compute. reflexivity. Qed.

Example setCurrentNames_ex1 :
  let e := setCurrentNames_members {[ "b" := unknown; "a" := ordinal ]}
             (emptyEncoder "JASPColumn_" "_Encoded") in
  _originalNames e = ["a.ordinal"; "a.nominal"; "a.scale"; "a"; "b"]
  ∧ _encodedNames e = ["JASPColumn_0_Encoded"; "JASPColumn_1_Encoded";
                       "JASPColumn_2_Encoded"; "JASPColumn_3_Encoded"]
  ∧ _encodingMap e !! "a" = Some "JASPColumn_1_Encoded"
  ∧ _encodingMap e !! "b" = Some "JASPColumn_3_Encoded".
Proof. vm_compute. auto. Qed.

(** Up to sixteen names, those of one length keep their order, as do
    prefixes of one size; beyond, the partitioning moves them. *)
Example sortVectorBigToSmall_ex1 :
  sortVectorBigToSmall ["a"; "b"; "ccc"; "c"; "dd"; "eee"]
  = ["ccc"; "eee"; "dd"; "a"; "b"; "c"].
Proof. vm_compute. reflexivity. Qed.

Example sortVectorBigToSmall_ex2 :
  sortVectorBigToSmall
    ["a"; "b"; "c"; "d"; "e"; "f"; "g"; "h"; "i"; "j";
     "k"; "l"; "m"; "n"; "o"; "p"; "q"; "r"; "s"; "t"]
  = ["k"; "t"; "s"; "r"; "q"; "p"; "o"; "n"; "m"; "l";
     "a"; "j"; "i"; "h"; "g"; "f"; "e"; "d"; "c"; "b"].
Proof. vm_compute. reflexivity. Qed.

Example sortVectorBigToSmall_ex3 :
  sortVectorBigToSmall
    ["a"; "bb"; "c"; "dd"; "e"; "ff"; "g"; "hh"; "i"; "jj"; "k"; "ll"; "m"; "nn"; "o";
     "pp"; "q"; "rr"]
  = ["jj"; "rr"; "pp"; "nn"; "ll"; "hh"; "ff"; "dd"; "bb"; "g"; "i"; "a"; "k"; "e"; "m";
     "o"; "c"; "q"].
Proof. vm_compute. reflexivity. Qed.

Example prefixOrder_ex1 :
  prefixOrder {[ "c."; "data$"; "a."; "b." ]} = [EmptyString; "a."; "b."; "c."; "data$"].
Proof. vm_compute. reflexivity. Qed.

(** ** Strings as character lists *)

Lemma chars_of_chars l : chars (of_chars l) = l.
Proof. apply String.list_ascii_of_string_of_list_ascii. Qed.
Lemma of_chars_chars s : of_chars (chars s) = s.
Proof. apply String.string_of_list_ascii_of_string. Qed.
Lemma chars_inj s1 s2 : chars s1 = chars s2 → s1 = s2.
Proof. intros H. rewrite <-(of_chars_chars s1), <-(of_chars_chars s2). by rewrite H. Qed.
Lemma of_chars_eq l s : of_chars l = s ↔ l = chars s.
Proof.
  split; [intros <-; by rewrite chars_of_chars | intros ->; apply of_chars_chars].
Qed.

Lemma substr_eq_Ok text pos n s :
  substr text pos n = Ok s ↔ pos ≤ size text ∧ take n (drop pos (chars text)) = chars s.
Proof.
  unfold substr. destruct (decide (pos ≤ size text)); split.
  - intros [= H%of_chars_eq]. done.
  - intros [_ H]. f_equal. by apply of_chars_eq.
  - done.
  - intros [? _]. lia.
Qed.

Lemma at_split text pre c suf :
  chars text = pre ++ c :: suf → at_ text (length pre) = c.
Proof.
  intros H. unfold at_. rewrite H.
  rewrite lookup_app_r by lia. by rewrite Nat.sub_diag.
Qed.

Lemma filter_ext_in {A} (P Q : A → Prop) `{!∀ x, Decision (P x), !∀ x, Decision (Q x)}
    (l : list A) :
  (∀ x, x ∈ l → P x ↔ Q x) → filter P l = filter Q l.
Proof.
  induction l as [|a l IH]; intros Hl; [done|].
  rewrite !filter_cons. rewrite IH by (intros; apply Hl; by right).
  destruct (decide (P a)), (decide (Q a)); try done;
    exfalso; specialize (Hl a); rewrite elem_of_cons in Hl; naive_solver.
Qed.

Lemma getPositions_loop_spec text name pre suf q inString delim :
  chars text = pre ++ suf →
  name ≠ EmptyString →
  (∀ c, head (chars name) = Some c → is_quote c = false) →
  quoteState q inString delim →
  getPositions_loop (length suf) (length pre) inString delim text name
  = filter (λ p, occurs_at (chars text) (chars name) p = true
                 ∧ foldl quoteToggle q (take (p - length pre) suf) = None)
           (seq (length pre) (length suf)).
Proof.
  intros Htext Hne Hq. revert pre q inString delim Htext.
  induction suf as [|c suf IH]; intros pre q inString delim Htext Hst; [done|].
  assert (Hat : at_ text (length pre) = c) by by eapply at_split.
  assert (Hocc : bool_decide (substr text (length pre) (size name) = Ok name)
                 = occurs_at (chars text) (chars name) (length pre)).
  { unfold occurs_at. apply bool_decide_ext. rewrite substr_eq_Ok.
    unfold size. rewrite Htext, length_app. simpl. intuition lia. }
  assert (Hnq : occurs_at (chars text) (chars name) (length pre) = true →
                is_quote c = false).
  { intros Ho. apply Hq. unfold occurs_at in Ho. apply bool_decide_eq_true in Ho.
    rewrite Htext, drop_app_length in Ho.
    destruct (chars name) as [|c' n'] eqn:Hn.
    - destruct Hne. apply chars_inj. by rewrite Hn.
    - simpl in Ho. by injection Ho as -> _. }
  assert (IH' : ∀ q' inString' delim', quoteState q' inString' delim' →
    getPositions_loop (length suf) (S (length pre)) inString' delim' text name
    = filter (λ p, occurs_at (chars text) (chars name) p = true
                 ∧ foldl quoteToggle q (take (p - length pre) (c :: suf)) = None)
           (seq (S (length pre)) (length suf)) ∨ quoteToggle q c ≠ q').
  { intros q' i' d' Hst'. destruct (decide (quoteToggle q c = q')) as [<-|]; [left|by right].
    specialize (IH (pre ++ [c]) (quoteToggle q c) i' d').
    rewrite length_app in IH. simpl in IH. rewrite Nat.add_1_r in IH.
    rewrite IH; [|by rewrite <-app_assoc|done].
    apply filter_ext_in. intros p Hp%elem_of_seq.
    replace (p - length pre) with (S (p - S (length pre))) by lia. done. }
  cbn [getPositions_loop length seq]. rewrite filter_cons.
  rewrite Nat.sub_diag. cbn [take foldl]. rewrite Hat.
  destruct q as [d|]; simpl in Hst.
  - destruct Hst as [-> ->]. cbn [negb andb].
    rewrite decide_False by naive_solver.
    destruct (is_quote c) eqn:Hqc.
    + destruct (decide (c = d)) as [->|Hne'].
      * rewrite bool_decide_true by done.
        destruct (IH' None false d) as [->|[]]; [done..|].
        unfold quoteToggle. rewrite Hqc. by rewrite decide_True.
      * rewrite bool_decide_false by done.
        destruct (IH' (Some d) true d) as [->|[]]; [done..|].
        unfold quoteToggle. rewrite Hqc. by rewrite decide_False.
    + destruct (IH' (Some d) true d) as [->|[]]; [done..|].
      unfold quoteToggle. by rewrite Hqc.
  - subst inString. cbn [negb andb]. rewrite Hocc.
    destruct (occurs_at (chars text) (chars name) (length pre)) eqn:Ho.
    + rewrite decide_True by done. f_equal.
      destruct (IH' None false delim) as [->|[]]; [done..|].
      unfold quoteToggle. by rewrite Hnq.
    + rewrite decide_False by naive_solver.
      destruct (is_quote c) eqn:Hqc.
      * destruct (IH' (Some c) true c) as [->|[]]; [done..|].
        unfold quoteToggle. by rewrite Hqc.
      * destruct (IH' None false delim) as [->|[]]; [done..|].
        unfold quoteToggle. by rewrite Hqc.
Qed.

(** C5 (amended): for a non-empty name that does not begin with a quote
    character, the scanner returns exactly the offsets at which the name
    occurs in the text and which lie outside the quoted runs of the plain
    delimiter toggle. *)
Theorem getPositionsColumnNameMatches_spec text name :
  name ≠ EmptyString →
  (∀ c, head (chars name) = Some c → is_quote c = false) →
  getPositionsColumnNameMatches text name = findOccurrences_spec text name.
Proof.
  intros Hne Hq. unfold getPositionsColumnNameMatches, findOccurrences_spec.
  rewrite (getPositions_loop_spec text name [] (chars text) None) by done.
  simpl. apply list_filter_iff. intros p. rewrite Nat.sub_0_r.
  unfold insideQuotedRun. rewrite bool_decide_eq_false. 
  split; intros [? ?]; split; try done.
  - naive_solver.
  - by destruct (decide (foldl quoteToggle None (take p (chars text)) = None)).
Qed.

Lemma size_chars text : size text = length (chars text).
Proof. done. Qed.

Lemma testEndFree_loop_false fuel pos keepGoing text :
  testEndFree_loop fuel pos false keepGoing text = false.
Proof. by destruct fuel. Qed.

Lemma testEndFree_loop_stop fuel pos endIsFree text :
  testEndFree_loop fuel pos endIsFree false text = endIsFree.
Proof. destruct fuel; simpl; [done|]. by rewrite andb_false_r. Qed.

Lemma testEndFree_loop_spec text pre suf :
  chars text = pre ++ suf →
  testEndFree_loop (length suf) (length pre) true true text
  = noCallParen suf.
Proof.
  unfold noCallParen.
  revert pre. induction suf as [|c suf IH]; intros pre Htext; [done|].
  cbn [testEndFree_loop length andb skipBlanks].
  rewrite (at_split _ _ _ _ Htext).
  destruct (decide (c = "("%char)) as [->|Hp].
  - rewrite bool_decide_true by done. by rewrite testEndFree_loop_false.
  - rewrite (bool_decide_false (c = _)) by done.
    unfold isBlank.
    destruct (decide (c = "009"%char)) as [Ht|Ht].
    { subst c. simpl. specialize (IH (pre ++ ["009"%char])).
      rewrite length_app, Nat.add_1_r in IH. apply IH. by rewrite <-app_assoc. }
    destruct (decide (c = " "%char)) as [Hs|Hs].
    { subst c. simpl. specialize (IH (pre ++ [" "%char])).
      rewrite length_app, Nat.add_1_r in IH. apply IH. by rewrite <-app_assoc. }
    rewrite (bool_decide_true (c ≠ "009"%char)), (bool_decide_true (c ≠ " "%char)),
      (bool_decide_false (c = "009"%char)), (bool_decide_false (c = " "%char)) by done.
    simpl. rewrite testEndFree_loop_stop.
    symmetry. apply negb_true_iff, bool_decide_eq_false. naive_solver.
Qed.

Lemma testEndFree_split text pre suf :
  chars text = pre ++ suf →
  testEndFree text (length pre) = Ok (endBoundaryFree suf).
Proof.
  intros Htext. unfold testEndFree, endBoundaryFree.
  assert (Hsz : size text = length pre + length suf).
  { by rewrite size_chars, Htext, length_app. }
  destruct suf as [|c suf].
  - rewrite decide_True by (simpl in Hsz; lia). simpl.
    replace (size text - length pre) with 0 by (simpl in Hsz; lia). done.
  - rewrite decide_False by (simpl in Hsz; lia).
    unfold substr. rewrite decide_True by lia.
    rewrite Htext, drop_app_length. cbn [take]. rewrite take_0.
    cbn [mbind result_bind].
    unfold regex_match_nonNameChar. rewrite chars_of_chars.
    replace (size text - length pre) with (length (c :: suf)) by lia.
    destruct (nameChar c) eqn:Hc; cbn [negb andb].
    + by rewrite testEndFree_loop_false.
    + f_equal. by apply testEndFree_loop_spec.
Qed.

(** C4 (amended): the end-boundary check fails past the end of the text;
    inside it answers that the boundary is free exactly when the match ends
    the text or is followed by a character outside the identifier class,
    and the first character behind the blanks (spaces and tabs) that follow
    is not an opening parenthesis.  A name followed by a call parenthesis is
    therefore not free. *)
Theorem testEndFree_spec text pos :
  testEndFree text pos
  = if decide (pos ≤ size text)
    then Ok (endBoundaryFree (drop pos (chars text)))
    else Throw out_of_range.
Proof.
  destruct (decide (pos ≤ size text)) as [Hle|Hgt].
  - assert (length (take pos (chars text)) = pos) as Hlen.
    { rewrite length_take. rewrite size_chars in Hle. lia. }
    rewrite <-Hlen at 1. apply testEndFree_split. by rewrite take_drop.
  - unfold testEndFree. rewrite decide_False by lia.
    unfold substr. by rewrite decide_False by lia.
Qed.

Lemma size_empty_iff s : size s = 0 ↔ s = EmptyString.
Proof.
  split; [|by intros ->]. unfold size. intros H%length_zero_iff_nil.
  apply chars_inj. by rewrite H.
Qed.

Lemma find_Some text str pos p :
  find text str pos = Some p →
  pos ≤ p ∧ p + size str ≤ size text
  ∧ take (size str) (drop p (chars text)) = chars str.
Proof.
  unfold find. intros H%head_Some_elem_of.
  apply list_elem_of_filter in H as [Ho Hp%elem_of_seq].
  unfold occurs_at in Ho. apply bool_decide_eq_true in Ho.
  split; [lia|]. split; [|done].
  apply (f_equal length) in Ho. rewrite length_take, length_drop in Ho.
  unfold size in *. lia.
Qed.

Lemma firstFound_Some text names pos p name :
  firstFound text names pos = (Some p, name) →
  name ∈ names ∧ find text name pos = Some p.
Proof.
  unfold firstFound.
  cut (∀ acc, foldl (λ '(firstFoundPos, replaceThis) replaceMe,
           let pos0 := find text replaceMe pos in
           if npos_lt pos0 firstFoundPos then (pos0, replaceMe)
           else (firstFoundPos, replaceThis)) acc names = (Some p, name) →
         (name ∈ names ∧ find text name pos = Some p) ∨ acc = (Some p, name)).
  { intros H Hf. by destruct (H _ Hf). }
  induction names as [|n names IH]; intros [fp rt] Hf; simpl in Hf; [by right|].
  apply IH in Hf as [[? ?]|Hacc]; [left; split; [by right|done]|].
  destruct (npos_lt (find text n pos) fp) eqn:Hlt.
  - injection Hacc as Hfind ->. left. split; [by left|done].
  - by right.
Qed.

Lemma replaceAll_loop_terminates map names :
  (∀ n, n ∈ names → n ≠ EmptyString ∧ is_Some (map !! n)) →
  ∀ fuel text pos, pos ≤ size text → size text - pos < fuel →
     ∃ r, replaceAll_loop fuel text map names (Some pos) = Some (Ok r).
Proof.
  intros Hnames. induction fuel as [|fuel IH]; intros text pos Hpos Hfuel; [lia|].
  cbn [replaceAll_loop]. unfold replaceAll_step.
  destruct (firstFound text names pos) as [[p|] name] eqn:Hff.
  - apply firstFound_Some in Hff as [Hin Hfind].
    apply find_Some in Hfind as (Hle & Hend & _).
    destruct (Hnames _ Hin) as [Hne [v Hv]].
    assert (size name ≠ 0) by by rewrite size_empty_iff.
    unfold map_at. rewrite Hv. cbn [mbind result_bind].
    unfold replace. rewrite decide_True by lia. cbn [mbind result_bind].
    apply IH.
    + unfold size. rewrite chars_of_chars, !length_app, length_take.
      fold (size text) (size v). lia.
    + unfold size. rewrite chars_of_chars, !length_app, length_take, length_drop.
      fold (size text) (size v) (size name). lia.
  - cbn [mbind result_bind]. destruct fuel; simpl; eauto.
Qed.

(** C10: when every listed name is non-empty and a key of the map, the
    loop of [replaceAll] stops: [size text + 1] iterations are enough for it
    to return a text. *)
Theorem replaceAll_terminates text map names :
  (∀ n, n ∈ names → n ≠ EmptyString ∧ is_Some (map !! n)) →
  ∃ r, replaceAll (S (size text)) text map names = Some (Ok r).
Proof.
  intros Hnames. apply replaceAll_loop_terminates; [done|lia..].
Qed.

(** With the empty name on the list the loop never leaves: the empty string
    is found at the cursor itself, over and over. *)
Lemma find_empty text pos : pos ≤ size text → find text EmptyString pos = Some pos.
Proof.
  intros Hle. unfold find.
  replace (S (size text) - pos) with (S (size text - pos)) by lia.
  cbn [seq]. rewrite filter_cons. rewrite decide_True; [done|].
  unfold occurs_at. by apply bool_decide_eq_true.
Qed.

Lemma replaceAll_empty_name_diverges v fuel text pos :
  pos ≤ size text →
  replaceAll_loop fuel text {[ EmptyString := v ]} [EmptyString] (Some pos) = None.
Proof.
  revert text pos. induction fuel as [|fuel IH]; intros text pos Hle; [done|].
  cbn [replaceAll_loop]. unfold replaceAll_step, firstFound. cbn [foldl].
  rewrite find_empty by done. cbn [npos_lt].
  unfold map_at. rewrite lookup_singleton_eq. cbn [mbind result_bind].
  unfold replace. rewrite decide_True by lia. cbn [mbind result_bind].
  apply IH. unfold size. rewrite chars_of_chars, !length_app, length_take.
  fold (size text). lia.
Qed.

Section std_map.
Context {V : Type}.
Implicit Types m : gmap string V.

Lemma std_map_items_perm m : std_map_items m ≡ₚ map_to_list m.
Proof. apply merge_sort_Permutation. Qed.

Lemma elem_of_std_map_items m k v : (k, v) ∈ std_map_items m ↔ m !! k = Some v.
Proof. rewrite std_map_items_perm. apply elem_of_map_to_list. Qed.

Lemma NoDup_fst_std_map_items m : NoDup (std_map_items m).*1.
Proof. rewrite std_map_items_perm. apply NoDup_fst_map_to_list. Qed.

Lemma list_to_map_std_map_items m : list_to_map (std_map_items m) = m.
Proof.
  rewrite <-(list_to_map_to_list m) at 2.
  apply list_to_map_proper; [apply NoDup_fst_std_map_items|apply std_map_items_perm].
Qed.

Lemma fillAbsent_lookup m other k :
  fillAbsent m other !! k = match m !! k with Some v => Some v | None => other !! k end.
Proof.
  unfold fillAbsent.
  replace (other !! k) with ((list_to_map (std_map_items other) : gmap string V) !! k)
    by by rewrite list_to_map_std_map_items.
  generalize (NoDup_fst_std_map_items other).
  generalize (std_map_items other) as l. clear other.
  intros l. revert m. induction l as [|[k0 v0] l IH]; intros m Hnd.
  { simpl. rewrite lookup_empty. by destruct (m !! k). }
  rewrite fmap_cons in Hnd. apply NoDup_cons in Hnd as [Hk0 Hnd]. simpl in Hk0.
  cbn [foldl fst snd]. rewrite IH by done. rewrite list_to_map_cons.
  destruct (decide (k = k0)) as [Heq|Hne].
  - subst k. rewrite lookup_insert_eq.
    rewrite (not_elem_of_list_to_map_1 (M:=gmap string) l k0) by done.
    destruct (m !! k0) eqn:Hm; [by rewrite Hm|]. by rewrite lookup_insert_eq.
  - rewrite (lookup_insert_ne _ k0 k) by done.
    destruct (m !! k0); [done|]. by rewrite lookup_insert_ne.
Qed.

Lemma fillAbsent_union m other : fillAbsent m other = m ∪ other.
Proof.
  apply map_eq. intros k. rewrite fillAbsent_lookup, lookup_union.
  by destruct (m !! k), (other !! k).
Qed.
End std_map.

Section merged.
Context {V : Type} (member : ColumnEncoder → gmap string V).

Lemma mergedMap_fold_lookup r qs m0 m k :
  foldl_result (λ map q, other ← deref r q; Ok (fillAbsent map (member other))) m0 qs
    = Ok m →
  ∃ es, mapM (λ q, heap r !! q) qs = Some es
        ∧ m !! k = firstHit k (m0 :: (member <$> es)).
Proof.
  revert m0. induction qs as [|q qs IH]; intros m0 Hf; simpl in Hf.
  { injection Hf as <-. exists []. split; [done|]. simpl. by destruct (m0 !! k). }
  unfold deref in Hf. destruct (heap r !! q) as [e|] eqn:Hq; [|done].
  cbn [mbind result_bind] in Hf.
  apply IH in Hf as (es & Hes & Hm). exists (e :: es). split.
  - cbn [mapM]. rewrite Hq. simpl. by rewrite Hes.
  - rewrite Hm. cbn [firstHit fmap list_fmap]. rewrite fillAbsent_lookup.
    by destruct (m0 !! k).
Qed.

Lemma mergedMap_fold_Ok r qs m0 :
  Forall (λ q, is_Some (heap r !! q)) qs →
  ∃ m, foldl_result (λ map q, other ← deref r q; Ok (fillAbsent map (member other)))
         m0 qs = Ok m.
Proof.
  intros Hqs. revert m0. induction Hqs as [|q qs [e Hq] _ IH]; intros m0; simpl; [eauto|].
  unfold deref. rewrite Hq. cbn [mbind result_bind]. apply IH.
Qed.
End merged.

Lemma encodingMap_idem r map r' :
  encodingMap r = (Ok map, r') → encodingMap r' = (Ok map, r').
Proof.
  unfold encodingMap at 1. destruct (_encodingMapInvalidated r) eqn:Hinv.
  - destruct (mergedMap _ r); [|done]. by intros [= <- <-].
  - intros [= <- <-]. unfold encodingMap. by rewrite Hinv.
Qed.

Lemma decodingMap_idem r map r' :
  decodingMap r = (Ok map, r') → decodingMap r' = (Ok map, r').
Proof.
  unfold decodingMap at 1. destruct (_decodingMapInvalidated r) eqn:Hinv.
  - destruct (mergedMap _ r); [|done]. by intros [= <- <-].
  - intros [= <- <-]. unfold decodingMap. by rewrite Hinv.
Qed.

Lemma decodingTypes_idem r map r' :
  decodingTypes r = (Ok map, r') → decodingTypes r' = (Ok map, r').
Proof.
  unfold decodingTypes at 1. destruct (_decodingTypeInvalidated r) eqn:Hinv.
  - destruct (mergedMap _ r); [|done]. by intros [= <- <-].
  - intros [= <- <-]. unfold decodingTypes. by rewrite Hinv.
Qed.

Lemma encode_lookup r name map r' :
  encodingMap r = (Ok map, r') →
  encode name r
  = if decide (name = EmptyString) then (Ok EmptyString, r)
    else (match map !! name with
          | Some id => Ok id
          | None => Throw (NotAColumnName name)
          end, r').
Proof.
  intros Hm. unfold encode. destruct (decide (name = EmptyString)); [done|].
  rewrite Hm. destruct (map !! name) eqn:Hl; [|done].
  rewrite (encodingMap_idem _ _ _ Hm). unfold map_at. by rewrite Hl.
Qed.

Lemma decode_lookup r name map r' :
  decodingMap r = (Ok map, r') →
  decode name r
  = if decide (name = EmptyString) then (Ok EmptyString, r)
    else (match map !! name with
          | Some n => Ok n
          | None => Throw (NotAnEncodedName name)
          end, r').
Proof.
  intros Hm. unfold decode. destruct (decide (name = EmptyString)); [done|].
  rewrite Hm. destruct (map !! name) eqn:Hl; [|done].
  rewrite (decodingMap_idem _ _ _ Hm). unfold map_at. by rewrite Hl.
Qed.

Lemma columnTypeFromEncoded_lookup r name map r' :
  decodingTypes r = (Ok map, r') →
  columnTypeFromEncoded name r
  = if decide (name = EmptyString) then (Ok unknown, r)
    else (Ok (default unknown (map !! name)), r').
Proof.
  intros Hm. unfold columnTypeFromEncoded. destruct (decide (name = EmptyString)); [done|].
  rewrite Hm. destruct (map !! name) eqn:Hl; [|done].
  rewrite (decodingTypes_idem _ _ _ Hm). unfold map_at. by rewrite Hl.
Qed.

(** C7: [encode] hands the empty string back without an error; a non-empty
    name fails with NotAColumnName exactly when the merged encode map has
    no entry for it, and yields the mapped identifier otherwise.  [decode]
    does the same on the merged decode map with NotAnEncodedName. *)
Theorem encode_decode_spec r name emap r1 dmap r2 :
  encodingMap r = (Ok emap, r1) →
  decodingMap r = (Ok dmap, r2) →
  encode name r
  = (if decide (name = EmptyString) then (Ok EmptyString, r)
     else (match emap !! name with
           | Some id => Ok id
           | None => Throw (NotAColumnName name)
           end, r1))
  ∧ decode name r
  = (if decide (name = EmptyString) then (Ok EmptyString, r)
     else (match dmap !! name with
           | Some n => Ok n
           | None => Throw (NotAnEncodedName name)
           end, r2)).
Proof. intros He Hd. split; [by apply encode_lookup|by apply decode_lookup]. Qed.

Lemma elem_of_std_set_items (s : gset N) q : q ∈ std_set_items s ↔ q ∈ s.
Proof. unfold std_set_items. rewrite merge_sort_Permutation. apply elem_of_elements. Qed.

Section merged_lookup.
Context {V : Type} (member : ColumnEncoder → gmap string V).

(** What a rebuilt view holds: the primary encoder's entry when it has
    one, else the entry of the first other encoder that has one. *)
Lemma mergedMap_lookup r p primary :
  _columnEncoder r = Some p → heap r !! p = Some primary →
  (∀ others q, _otherEncoders r = Some others → q ∈ others → is_Some (heap r !! q)) →
  ∃ m es,
    mergedMap member r = Ok m
    ∧ mapM (λ q, heap r !! q) (from_option std_set_items [] (_otherEncoders r)) = Some es
    ∧ ∀ k, m !! k = firstHit k (member primary :: (member <$> es)).
Proof.
  intros Hp Hprim Hlive. unfold mergedMap, deref. rewrite Hp, Hprim.
  cbn [mbind result_bind].
  destruct (_otherEncoders r) as [others|] eqn:Ho; simpl.
  - destruct (mergedMap_fold_Ok member r (std_set_items others) (member primary))
      as [m Hm].
    { apply Forall_forall. intros q Hq%elem_of_std_set_items. by eapply Hlive. }
    exists m.
    destruct (mergedMap_fold_lookup member _ _ _ _ EmptyString Hm) as (es & Hes & _).
    exists es. split; [done|]. split; [done|]. intros k.
    destruct (mergedMap_fold_lookup member _ _ _ _ k Hm) as (es' & Hes' & Hk).
    rewrite Hk. by replace es' with es by congruence.
  - exists (member primary), []. split; [done|]. split; [done|].
    intros k. simpl. by destruct (member primary !! k).
Qed.

End merged_lookup.


Lemma chars_app s1 s2 : chars (s1 +:+ s2) = chars s1 ++ chars s2.
Proof. induction s1 as [|c s1 IH]; [done|]. simpl. by rewrite <-IH. Qed.

Lemma string_app_inj_r s1 s2 t : s1 +:+ t = s2 +:+ t → s1 = s2.
Proof.
  intros H. apply chars_inj. apply (f_equal chars) in H.
  rewrite !chars_app in H. by apply app_inv_tail in H.
Qed.

Lemma size_app s1 s2 : size (s1 +:+ s2) = size s1 + size s2.
Proof. unfold size. by rewrite chars_app, length_app. Qed.

Lemma qualified_ne_name name t : qualified name t ≠ name.
Proof.
  intros H. apply (f_equal size) in H. unfold qualified in H.
  rewrite !size_app in H. change (size ".") with 1 in H. lia.
Qed.

Lemma qualified_inj n1 t1 n2 t2 :
  t1 ∈ [scale; ordinal; nominal] → t2 ∈ [scale; ordinal; nominal] →
  qualified n1 t1 = qualified n2 t2 → n1 = n2 ∧ t1 = t2.
Proof.
  intros H1 H2 H. apply (f_equal (λ s, reverse (chars s))) in H.
  unfold qualified in H. rewrite !chars_app, !reverse_app in H.
  assert (∀ a b : string, reverse (chars a) = reverse (chars b) → a = b) as Hrev.
  { intros a b Hab. apply chars_inj. by apply (inj reverse). }
  repeat (apply elem_of_cons in H1 as [->|H1]); [| | |by apply elem_of_nil in H1];
  repeat (apply elem_of_cons in H2 as [->|H2]); try (by apply elem_of_nil in H2);
    vm_compute in H; try discriminate;
    (split; [|done]); apply Hrev; vm_compute; congruence.
Qed.

Lemma qualified_nonempty n t : qualified n t ≠ EmptyString.
Proof.
  intros H. apply (f_equal size) in H. unfold qualified in H.
  rewrite !size_app in H. change (size ".") with 1 in H.
  change (size EmptyString) with 0 in H. lia.
Qed.

Lemma encodedName_inj prefix postfix c1 c2 :
  encodedName prefix postfix c1 = encodedName prefix postfix c2 → c1 = c2.
Proof.
  unfold encodedName. intros H%(inj (String.app prefix)).
  apply string_app_inj_r in H. by apply (inj pretty).
Qed.

Lemma pretty_N_nonempty (c : N) : pretty c ≠ EmptyString.
Proof.
  unfold pretty, pretty_N. case_decide; [done|].
  intros Hp. assert (pretty_N_go c EmptyString = pretty_N_go 0 EmptyString) as Heq by done.
  clear Hp. revert Heq.
  rewrite pretty_N_go_step by lia. rewrite pretty_N_go_0.
  generalize (pretty_N_char (c `mod` 10)). intros a.
  generalize (c `div` 10)%N. intros x.
  cut (∀ s, s ≠ EmptyString → pretty_N_go x s ≠ EmptyString); [naive_solver|].
  induction (N.lt_wf_0 x) as [x _ IH]. intros s Hs.
  destruct (decide (0 < x)%N).
  - rewrite pretty_N_go_step by done. apply IH; [|done]. by apply N.div_lt.
  - replace x with 0%N by lia. by rewrite pretty_N_go_0.
Qed.

Lemma encodedName_nonempty prefix postfix c : encodedName prefix postfix c ≠ EmptyString.
Proof.
  unfold encodedName. intros H. apply (f_equal size) in H. rewrite !size_app in H.
  assert (size (pretty c) ≠ 0) by (rewrite size_empty_iff; apply pretty_N_nonempty).
  change (size EmptyString) with 0 in H. lia.
Qed.

Lemma size_t_succ_small (c : N) : (c + 1 < 2 ^ 64)%N → size_t_succ c = (c + 1)%N.
Proof. intros H. unfold size_t_succ. by apply N.mod_small. Qed.

Lemma counter_unknown n st :
  (st.1 + 1 < 2 ^ 64)%N → (registerUnknown n st).1 = (st.1 + 1)%N.
Proof. destruct st as [c e]. intros H. simpl. by apply size_t_succ_small. Qed.

Lemma counter_qualified n d st ct :
  (st.1 + 1 < 2 ^ 64)%N → (registerQualified n d st ct).1 = (st.1 + 1)%N.
Proof. destruct st as [c e]. intros H. simpl. by apply size_t_succ_small. Qed.

Ltac solve_counter :=
  cbn [fst snd] in *;
  first [ lia | rewrite counter_qualified; [solve_counter | solve_counter] ].

Section roundtrip.
Context (prefix postfix : string).
Context (q : string) (name : string) (t : columnType) (cid : N).

Lemma affixes_push n st :
  affixes prefix postfix st → affixes prefix postfix (st.1, pushOriginalName n st.2).
Proof. done. Qed.

Lemma affixes_unknown n st :
  affixes prefix postfix st → affixes prefix postfix (registerUnknown n st).
Proof. by destruct st. Qed.

Lemma affixes_qualified n d st ct :
  affixes prefix postfix st → affixes prefix postfix (registerQualified n d st ct).
Proof. by destruct st. Qed.

Lemma affixes_registerName st nt :
  affixes prefix postfix st → affixes prefix postfix (registerName st nt).
Proof.
  intros H. unfold registerName. case_decide.
  - by apply affixes_unknown.
  - cbn [foldl]. by repeat apply affixes_qualified.
Qed.

Lemma counter_registerName st nt :
  (st.1 + 3 < 2 ^ 64)%N →
  (st.1 < (registerName st nt).1 ≤ st.1 + 3)%N.
Proof.
  intros H. unfold registerName. case_decide.
  - rewrite counter_unknown; simpl; lia.
  - cbn [foldl]. solve_counter.
Qed.

Lemma entry_unknown n st :
  affixes prefix postfix st → (st.1 + 1 < 2 ^ 64)%N → n ≠ q →
  entryInPlace prefix postfix q name t cid st →
  entryInPlace prefix postfix q name t cid (registerUnknown n st).
Proof.
  destruct st as [c e]. intros [Hp Hs] Hc Hn (Hlt & He & Hd & Ht).
  simpl in *. unfold entryInPlace. simpl. rewrite size_t_succ_small by done.
  fold (encodedName (_encodePrefix e) (_encodePostfix e) c). rewrite Hp, Hs.
  assert (encodedName prefix postfix c ≠ encodedName prefix postfix cid).
  { intros ?%encodedName_inj. lia. }
  split; [lia|]. by rewrite !lookup_insert_ne.
Qed.

Lemma entry_qualified n d st ct :
  affixes prefix postfix st → (st.1 + 1 < 2 ^ 64)%N → n ≠ q → qualified n ct ≠ q →
  entryInPlace prefix postfix q name t cid st →
  entryInPlace prefix postfix q name t cid (registerQualified n d st ct).
Proof.
  destruct st as [c e]. intros [Hp Hs] Hc Hn Hq (Hlt & He & Hd & Ht).
  simpl in *. unfold entryInPlace. simpl. rewrite size_t_succ_small by done.
  fold (encodedName (_encodePrefix e) (_encodePostfix e) c). rewrite Hp, Hs.
  fold (qualified n ct).
  assert (encodedName prefix postfix c ≠ encodedName prefix postfix cid).
  { intros ?%encodedName_inj. lia. }
  split; [lia|]. split; [|by rewrite !lookup_insert_ne].
  case_decide; by rewrite !lookup_insert_ne.
Qed.

Lemma entry_registerName st nt :
  affixes prefix postfix st → (st.1 + 3 < 2 ^ 64)%N → nt.1 ≠ q →
  (∀ ct, ct ∈ [scale; ordinal; nominal] → qualified nt.1 ct ≠ q) →
  entryInPlace prefix postfix q name t cid st →
  entryInPlace prefix postfix q name t cid (registerName st nt).
Proof.
  intros Ha Hc Hn Hq Hin. unfold registerName. case_decide.
  - apply entry_unknown; [done|solve_counter|done|by destruct st].
  - cbn [foldl].
    apply entry_qualified; [by repeat apply affixes_qualified| |done| |].
    { solve_counter. }
    { apply Hq. set_solver. }
    apply entry_qualified; [by repeat apply affixes_qualified| |done| |].
    { solve_counter. }
    { apply Hq. set_solver. }
    apply entry_qualified; [done| |done| |].
    { solve_counter. }
    { apply Hq. set_solver. }
    destruct st. apply Hin.
Qed.

Lemma entry_foldl l st :
  affixes prefix postfix st → (st.1 + 3 * N.of_nat (length l) < 2 ^ 64)%N →
  (∀ nt, nt ∈ l → nt.1 ≠ q) →
  (∀ nt ct, nt ∈ l → ct ∈ [scale; ordinal; nominal] → qualified nt.1 ct ≠ q) →
  entryInPlace prefix postfix q name t cid st →
  entryInPlace prefix postfix q name t cid (foldl registerName st l).
Proof.
  revert st. induction l as [|nt l IH]; intros st Ha Hc Hn Hq Hin; [done|].
  cbn [foldl]. cbn [length] in Hc.
  assert (st.1 + 3 < 2 ^ 64)%N by lia.
  apply IH.
  - by apply affixes_registerName.
  - pose proof (counter_registerName st nt). lia.
  - intros ??. apply Hn. by right.
  - intros ????. apply Hq; [by right|done].
  - apply entry_registerName; [done..| | |done].
    + apply Hn. by left.
    + intros ??. apply Hq; [by left|done].
Qed.

Lemma counter_foldl l st :
  (st.1 + 3 * N.of_nat (length l) < 2 ^ 64)%N →
  ((foldl registerName st l).1 ≤ st.1 + 3 * N.of_nat (length l))%N.
Proof.
  revert st. induction l as [|nt l IH]; intros st Hc; [simpl; lia|].
  cbn [foldl]. cbn [length] in *.
  assert (st.1 + 3 < 2 ^ 64)%N by lia.
  pose proof (counter_registerName st nt).
  etrans; [apply IH|]; lia.
Qed.

Lemma affixes_foldl l st :
  affixes prefix postfix st → affixes prefix postfix (foldl registerName st l).
Proof.
  revert st. induction l as [|nt l IH]; intros st Ha; [done|].
  cbn [foldl]. by apply IH, affixes_registerName.
Qed.
End roundtrip.

(** Registering a column with one of the three types puts the entry for its
    qualified spelling in place. *)
Lemma entry_established prefix postfix name t st :
  affixes prefix postfix st → (st.1 + 3 < 2 ^ 64)%N →
  t ∈ [scale; ordinal; nominal] →
  ∃ cid, entryInPlace prefix postfix (qualified name t) name t cid
           (registerName st (name, t)).
Proof.
  intros Ha Hc Ht. unfold registerName. cbn [fst snd].
  rewrite decide_False by (intros ->; set_solver).
  assert (∀ st' ct, affixes prefix postfix st' → (st'.1 + 1 < 2 ^ 64)%N →
            entryInPlace prefix postfix (qualified name ct) name ct st'.1
              (registerQualified name ct st' ct)) as Hset.
  { intros [c e] ct [Hp Hs] Hc'. simpl in *. unfold entryInPlace. simpl.
    rewrite size_t_succ_small by done.
    fold (encodedName (_encodePrefix e) (_encodePostfix e) c). rewrite Hp, Hs.
    fold (qualified name ct). rewrite decide_True by done.
    split; [lia|]. rewrite !lookup_insert_eq.
    split; [|done]. rewrite lookup_insert_ne by (symmetry; apply qualified_ne_name).
    by rewrite lookup_insert_eq. }
  assert (∀ ct d st' cid, ct ∈ [scale; ordinal; nominal] → d ∈ [scale; ordinal; nominal] →
            ct ≠ d → affixes prefix postfix st' → (st'.1 + 1 < 2 ^ 64)%N →
            entryInPlace prefix postfix (qualified name d) name d cid st' →
            entryInPlace prefix postfix (qualified name d) name d cid
              (registerQualified name d st' ct)) as Hkeep.
  { intros ct d st' cid Hct Hd Hne Ha' Hc' Hin. apply entry_qualified; [done..| | |done].
    - symmetry. apply qualified_ne_name.
    - intros [_ ?]%qualified_inj; done. }
  set (st0 := (st.1, pushOriginalName name st.2)).
  assert (affixes prefix postfix st0) as Ha0 by done.
  assert (st0.1 = st.1) as Hc0 by done.
  cbn [foldl].
  repeat (apply elem_of_cons in Ht as [->|Ht]); [| | |by apply elem_of_nil in Ht].
  - eexists. apply Hkeep; [set_solver..|done| | |].
    { by repeat apply affixes_qualified. }
    { solve_counter. }
    apply Hkeep; [set_solver..|done| | |].
    { by repeat apply affixes_qualified. }
    { solve_counter. }
    apply Hset; [done|solve_counter].
  - eexists. apply Hkeep; [set_solver..|done| | |].
    { by repeat apply affixes_qualified. }
    { solve_counter. }
    apply Hset; [by apply affixes_qualified|]. solve_counter.
  - eexists. apply Hset; [by repeat apply affixes_qualified|]. solve_counter.
Qed.

Lemma length_std_map_items {V} (m : gmap string V) : length (std_map_items m) = base.size m.
Proof. rewrite std_map_items_perm. apply length_map_to_list. Qed.

Lemma setCurrentNames_members_entry (m : gmap string columnType) e n t :
  m !! n = Some t →
  t ∈ [scale; ordinal; nominal] →
  m !! qualified n t = None →
  (3 * N.of_nat (base.size m) < 2 ^ 64)%N →
  ∃ cid,
    let e' := setCurrentNames_members m e in
    let id := encodedName (_encodePrefix e) (_encodePostfix e) cid in
    _encodingMap e' !! qualified n t = Some id
    ∧ _decodingMap e' !! id = Some n
    ∧ _decodingTypes e' !! id = Some t.
Proof.
  intros Hn Ht Hq Hsz.
  pose proof (NoDup_fst_std_map_items m) as Hnd.
  pose proof (length_std_map_items m) as Hlen.
  assert ((n, t) ∈ std_map_items m) as Hin by by apply elem_of_std_map_items.
  assert (∀ nt, nt ∈ std_map_items m → m !! nt.1 = Some nt.2) as Hitems.
  { intros [??] ?. by apply elem_of_std_map_items. }
  apply list_elem_of_split in Hin as (l1 & l2 & Hl).
  unfold setCurrentNames_members. cbn zeta. simpl.
  rewrite Hl in *. clear Hl. rewrite foldl_app. cbn [foldl].
  rewrite length_app in Hlen. cbn [length] in Hlen.
  rewrite fmap_app, fmap_cons in Hnd. apply NoDup_app in Hnd as (_ & _ & Hnd).
  apply NoDup_cons in Hnd as [Hnl2 _]. simpl in Hnl2.
  set (cleared := mkColumnEncoder _ _ _ _ _ _ _ _).
  set (st1 := foldl registerName (0%N, cleared) l1).
  assert (affixes (_encodePrefix e) (_encodePostfix e) (0%N, cleared)) as Ha0 by done.
  assert (affixes (_encodePrefix e) (_encodePostfix e) st1) as Ha1
    by by apply affixes_foldl.
  assert (st1.1 ≤ 3 * N.of_nat (length l1))%N as Hc1.
  { pose proof (counter_foldl l1 (0%N, cleared)) as Hc. simpl in Hc. apply Hc. lia. }
  destruct (entry_established _ _ n t st1 Ha1) as [cid Hentry]; [lia|done|].
  exists cid.
  pose proof (counter_registerName st1 (n, t)) as Hc2.
  eapply (entry_foldl _ _ _ _ _ _ l2) in Hentry.
  - destruct Hentry as (_ & ? & ? & ?). done.
  - by apply affixes_registerName.
  - lia.
  - intros nt Hnt Heq. specialize (Hitems nt). rewrite Heq, Hq in Hitems.
    assert (None = Some nt.2) by (apply Hitems; set_solver). done.
  - intros nt ct Hnt Hct [Heq _]%qualified_inj; [|done..].
    apply Hnl2. apply list_elem_of_fmap. eauto.
Qed.

Lemma mergedMap_sameObjects {V} (member : ColumnEncoder → gmap string V) r r' :
  sameObjects r r' → mergedMap member r' = mergedMap member r.
Proof.
  intros (Hh & Hc & Ho). unfold mergedMap, deref. rewrite Hh, Hc, Ho. done.
Qed.

Lemma encodingMap_frame r res r' :
  encodingMap r = (res, r') →
  sameObjects r r'
  ∧ _decodingMapInvalidated r' = _decodingMapInvalidated r
  ∧ _decodingTypeInvalidated r' = _decodingTypeInvalidated r.
Proof.
  unfold encodingMap. destruct (_encodingMapInvalidated r).
  - destruct (mergedMap _ r); by intros [= <- <-].
  - by intros [= <- <-].
Qed.

Lemma decodingMap_frame r res r' :
  decodingMap r = (res, r') →
  sameObjects r r'
  ∧ _decodingTypeInvalidated r' = _decodingTypeInvalidated r.
Proof.
  unfold decodingMap. destruct (_decodingMapInvalidated r).
  - destruct (mergedMap _ r); by intros [= <- <-].
  - by intros [= <- <-].
Qed.

Lemma wellFormed_sameObjects r r' p primary :
  sameObjects r r' → wellFormed r p primary → wellFormed r' p primary.
Proof.
  intros (Hh & Hc & Ho) (? & ? & ?). unfold wellFormed. rewrite Hh, Hc, Ho. done.
Qed.

(** The primary encoder's entries are in every rebuilt view. *)
Lemma mergedMap_primary {V} (member : ColumnEncoder → gmap string V) r p primary k v :
  wellFormed r p primary → member primary !! k = Some v →
  ∃ m, mergedMap member r = Ok m ∧ m !! k = Some v.
Proof.
  intros (Hp & Hprim & Hlive) Hk.
  destruct (mergedMap_lookup member r p primary Hp Hprim Hlive) as (m & es & Hm & _ & Hl).
  exists m. split; [done|]. rewrite Hl. simpl. by rewrite Hk.
Qed.

(** C9 (amended): for a name [n] registered on the primary encoder with
    declared type [t], one of scale, ordinal and nominal, whose qualified
    spelling [n.t] is not itself a registered name, encoding [n.t] gives an
    identifier that decodes to [n] and whose type is [t]. *)
Theorem roundtrip_qualified r p primary (namesWithTypes : gmap string columnType) n t :
  wellFormed r p primary →
  namesWithTypes !! n = Some t →
  t ∈ [scale; ordinal; nominal] →
  namesWithTypes !! (n +:+ "." +:+ columnTypeToString t) = None →
  (3 * N.of_nat (base.size namesWithTypes) < 2 ^ 64)%N →
  ∃ r1 id r2 r3 r4,
    setCurrentNames p namesWithTypes r = Ok r1
    ∧ encode (n +:+ "." +:+ columnTypeToString t) r1 = (Ok id, r2)
    ∧ decode id r2 = (Ok n, r3)
    ∧ columnTypeFromEncoded id r3 = (Ok t, r4).
Proof.
  intros (Hp & Hprim & Hlive) Hn Ht Hq Hsz.
  destruct (setCurrentNames_members_entry _ primary n t Hn Ht Hq Hsz)
    as (cid & He & Hd & Hty).
  cbn zeta in *. fold (qualified n t).
  set (e' := setCurrentNames_members namesWithTypes primary) in *.
  set (id := encodedName _ _ cid) in *.
  unfold setCurrentNames. rewrite Hprim.
  set (r1 := invalidateAll _).
  assert (wellFormed r1 p e') as Hwf1.
  { split; [done|]. split; [by apply lookup_insert_eq|].
    intros others q' Ho Hq'. simpl. rewrite lookup_insert.
    case_decide; [done|]. by eapply Hlive. }
  (* encode *)
  destruct (mergedMap_primary _encodingMap r1 p e' _ _ Hwf1 He) as (m1 & Hm1 & Hl1).
  assert (∃ r2, encodingMap r1 = (Ok m1, r2)) as [r2 Hem].
  { unfold encodingMap. cbn [_encodingMapInvalidated r1 invalidateAll]. rewrite Hm1. eauto. }
  destruct (encodingMap_frame _ _ _ Hem) as (Hsame12 & Hf2 & Hf2').
  (* decode *)
  assert (wellFormed r2 p e') as Hwf2 by by eapply wellFormed_sameObjects.
  destruct (mergedMap_primary _decodingMap r2 p e' _ _ Hwf2 Hd) as (m2 & Hm2 & Hl2).
  assert (∃ r3, decodingMap r2 = (Ok m2, r3)) as [r3 Hdm].
  { unfold decodingMap. rewrite Hf2. cbn [_decodingMapInvalidated r1 invalidateAll].
    rewrite Hm2. eauto. }
  destruct (decodingMap_frame _ _ _ Hdm) as (Hsame23 & Hf3).
  (* type *)
  assert (wellFormed r3 p e') as Hwf3 by by eapply wellFormed_sameObjects.
  destruct (mergedMap_primary _decodingTypes r3 p e' _ _ Hwf3 Hty) as (m3 & Hm3 & Hl3).
  assert (∃ r4, decodingTypes r3 = (Ok m3, r4)) as [r4 Htm].
  { unfold decodingTypes. rewrite Hf3, Hf2'.
    cbn [_decodingTypeInvalidated r1 invalidateAll]. rewrite Hm3. eauto. }
  exists r1, id, r2, r3, r4. split; [done|].
  rewrite (encode_lookup _ _ _ _ Hem), (decode_lookup _ _ _ _ Hdm),
    (columnTypeFromEncoded_lookup _ _ _ _ Htm).
  rewrite decide_False by apply qualified_nonempty.
  rewrite !decide_False by apply encodedName_nonempty.
  by rewrite Hl1, Hl2, Hl3.
Qed.

(** ** Substitution: [encodeRScript] against the cursor-resuming algorithm *)

(** [isFree] is the test [encodeAt] makes before it replaces. *)
Lemma encodeAt_isFree oldCol newCol mandatoryPrefix text found foundPos :
  encodeAt oldCol newCol mandatoryPrefix (text, found) foundPos
  = (free ← isFree text oldCol mandatoryPrefix foundPos;
     if (free : bool)
     then text' ← replace text foundPos (size oldCol) newCol;
          Ok (text', {[oldCol]} ∪ found)
     else Ok (text, found)).
Proof.
  unfold encodeAt, isFree.
  destruct (testFreePrefix text mandatoryPrefix foundPos) as [hasFreePrefix|e]; [|done].
  cbn [mbind result_bind].
  destruct (bool_decide (mandatoryPrefix ≠ EmptyString) && negb hasFreePrefix); [done|].
  destruct (if hasFreePrefix then Ok true else testNonNameChar text foundPos)
    as [startIsFree|e]; [|done].
  cbn [mbind result_bind].
  by destruct (testEndFree text (foundPos + size oldCol)) as [endIsFree|e].
Qed.

(** *** Character classes *)

Lemma nameChar_not_quote c : nameChar c = true → is_quote c = false.
Proof.
  intros H. unfold is_quote.
  destruct (bool_decide_reflect (c = "034"%char)) as [->|_]; [done|].
  destruct (bool_decide_reflect (c = "'"%char)) as [->|_]; done.
Qed.

Lemma nameChar_not_paren c : nameChar c = true → c ≠ "("%char.
Proof. by intros H ->. Qed.

Lemma nameChar_not_blank c : nameChar c = true → isBlank c = false.
Proof.
  intros H. unfold isBlank.
  destruct (bool_decide_reflect (c = "009"%char)) as [->|_]; [done|].
  destruct (bool_decide_reflect (c = " "%char)) as [->|_]; done.
Qed.

Lemma quoteToggle_nameChar q c : nameChar c = true → quoteToggle q c = q.
Proof. intros H. unfold quoteToggle. by rewrite nameChar_not_quote. Qed.

Lemma quoteToggle_ident q w : identChars w → foldl quoteToggle q w = q.
Proof.
  induction 1 as [|c w Hc _ IH]; [done|]. simpl. by rewrite quoteToggle_nameChar.
Qed.

(** *** Runs *)

Lemma identRun_afterRun l : identRun l ++ afterRun l = l.
Proof. induction l as [|c l IH]; [done|]. simpl. destruct (nameChar c); simpl; congruence. Qed.

Lemma identRun_ident l : identChars (identRun l).
Proof.
  induction l as [|c l IH]; [constructor|]. simpl.
  destruct (nameChar c) eqn:Hc; by constructor.
Qed.

Lemma afterRun_atBoundary l : atBoundary (afterRun l) = true.
Proof.
  induction l as [|c l IH]; [done|]. simpl.
  destruct (nameChar c) eqn:Hc; [done|]. simpl. by rewrite Hc.
Qed.

Lemma identRun_app w l : identChars w → atBoundary l = true → identRun (w ++ l) = w.
Proof.
  intros Hw Hl. induction Hw as [|c w Hc _ IH]; simpl.
  - destruct l as [|c l]; [done|]. simpl in *. by destruct (nameChar c).
  - by rewrite Hc, IH.
Qed.

Lemma afterRun_app w l : identChars w → atBoundary l = true → afterRun (w ++ l) = l.
Proof.
  intros Hw Hl. induction Hw as [|c w Hc _ IH]; simpl.
  - destruct l as [|c l]; [done|]. simpl in *. by destruct (nameChar c).
  - by rewrite Hc, IH.
Qed.

Lemma noCallParen_ident_head c l : nameChar c = true → noCallParen (c :: l) = true.
Proof.
  intros Hc. unfold noCallParen. simpl. rewrite nameChar_not_blank by done. simpl.
  apply negb_true_iff, bool_decide_eq_false. intros [= ->]. done.
Qed.

Lemma endBoundaryFree_atBoundary l :
  atBoundary l = true → endBoundaryFree l = noCallParen l.
Proof. intros H. unfold endBoundaryFree. destruct l; simpl in *; by rewrite ?H. Qed.

(** *** The token-wise rewriting *)

Section rewriteTokens.
Context (rep : list ascii → option (list ascii)) (Hrep : repIdent rep).

Lemma tokenOut_ident q l : identChars (tokenOut rep q l).
Proof.
  unfold tokenOut. destruct (_ && _); [|apply identRun_ident].
  destruct (rep (identRun l)) eqn:Hr; simpl; [by apply (Hrep _ _ Hr)|apply identRun_ident].
Qed.

Lemma tokenOut_nonempty q c l : nameChar c = true → tokenOut rep q (c :: l) ≠ [].
Proof.
  intros Hc. unfold tokenOut. simpl identRun. rewrite Hc.
  destruct (_ && _); [|done].
  destruct (rep _) eqn:Hr; simpl; [by apply (Hrep _ _ Hr)|done].
Qed.

Lemma rewriteTokens_boundary q b1 b2 l :
  atBoundary l = true → rewriteTokens rep q b1 l = rewriteTokens rep q b2 l.
Proof. destruct l as [|c l]; [done|]. simpl. by destruct (nameChar c). Qed.

(** Behind a token that has been dealt with, the rewriting goes on with
    what follows the token. *)
Lemma rewriteTokens_inToken q w l :
  identChars w → atBoundary l = true →
  rewriteTokens rep q true (w ++ l) = rewriteTokens rep q false l.
Proof.
  intros Hw Hl. induction Hw as [|c w Hc _ IH]; simpl.
  - by apply rewriteTokens_boundary.
  - by rewrite Hc.
Qed.

Lemma rewriteTokens_token q c l :
  nameChar c = true →
  rewriteTokens rep q false (c :: l)
  = tokenOut rep q (c :: l) ++ rewriteTokens rep q false (afterRun (c :: l)).
Proof.
  intros Hc. cbn [rewriteTokens]. rewrite Hc. f_equal.
  rewrite <-(identRun_afterRun l) at 1. simpl afterRun. rewrite Hc.
  apply rewriteTokens_inToken; [apply identRun_ident|apply afterRun_atBoundary].
Qed.

Lemma rewriteTokens_atBoundary q l :
  atBoundary l = true → atBoundary (rewriteTokens rep q false l) = true.
Proof.
  destruct l as [|c l]; [done|]. simpl. intros Hc.
  destruct (nameChar c) eqn:Hc'; [done|]. simpl. by rewrite Hc'.
Qed.

Lemma noCallParen_rewriteTokens q l :
  noCallParen (rewriteTokens rep q false l) = noCallParen l.
Proof.
  revert q. induction l as [|c l IH]; intros q; [done|].
  destruct (nameChar c) eqn:Hc.
  - rewrite rewriteTokens_token by done. rewrite (noCallParen_ident_head c) by done.
    pose proof (tokenOut_ident q (c :: l)) as Hid.
    pose proof (tokenOut_nonempty q c l Hc) as Hne.
    destruct (tokenOut rep q (c :: l)) as [|d w]; [by destruct Hne|].
    simpl. apply noCallParen_ident_head. by inversion Hid.
  - cbn [rewriteTokens]. rewrite Hc. unfold noCallParen in *. simpl.
    destruct (isBlank c); [apply IH|done].
Qed.
End rewriteTokens.


Lemma length_afterRun l : length (afterRun l) ≤ length l.
Proof. induction l as [|c l IH]; [done|]. simpl. destruct (nameChar c); simpl; lia. Qed.

Lemma rewriteTokens_compose f g h :
  repIdent f →
  (∀ w, h w = match f w with Some r => Some r | None => g w end) →
  (∀ w r, f w = Some r → g r = None) →
  ∀ l q, rewriteTokens g q false (rewriteTokens f q false l) = rewriteTokens h q false l.
Proof.
  intros Hf Hh Hfg l.
  remember (length l) as k eqn:Hk. revert l Hk.
  induction (lt_wf k) as [k _ IH]. intros l -> q.
  destruct l as [|c l]; [done|].
  destruct (nameChar c) eqn:Hc.
  - rewrite (rewriteTokens_token f) by done. rewrite (rewriteTokens_token h) by done.
    set (X := afterRun (c :: l)). set (w := identRun (c :: l)).
    pose proof (tokenOut_ident f Hf q (c :: l)) as Hid.
    pose proof (tokenOut_nonempty f Hf q c l Hc) as Hne.
    assert (atBoundary (rewriteTokens f q false X) = true) as HY.
    { apply rewriteTokens_atBoundary, afterRun_atBoundary. }
    destruct (tokenOut f q (c :: l)) as [|d w'] eqn:Hout; [done|].
    assert (nameChar d = true) as Hd by by inversion Hid.
    rewrite <-app_comm_cons. rewrite (rewriteTokens_token g) by done.
    rewrite app_comm_cons. rewrite afterRun_app by done.
    rewrite (IH (length X)); [| |done].
    2:{ pose proof (length_afterRun l). unfold X. simpl. rewrite Hc. simpl. lia. }
    f_equal. unfold tokenOut. rewrite identRun_app, afterRun_app by done.
    rewrite (noCallParen_rewriteTokens f Hf). fold X w.
    rewrite <-Hout. unfold tokenOut. fold X w.
    destruct (bool_decide (q = None) && noCallParen X); [|done].
    rewrite (Hh w). destruct (f w) as [r|] eqn:Hfw; simpl; [|done].
    by rewrite (Hfg _ _ Hfw).
  - cbn [rewriteTokens]. rewrite Hc. cbn [rewriteTokens]. rewrite Hc. f_equal.
    apply (IH (length l)); [simpl; lia|done].
Qed.

Lemma rewriteTokens_id rep :
  (∀ w, rep w = None) → ∀ l q, rewriteTokens rep q false l = l.
Proof.
  intros Hrep l. remember (length l) as k eqn:Hk. revert l Hk.
  induction (lt_wf k) as [k _ IH]. intros l -> q.
  destruct l as [|c l]; [done|].
  destruct (nameChar c) eqn:Hc.
  - rewrite (rewriteTokens_token rep) by done.
    rewrite (IH (length (afterRun (c :: l)))); [| |done].
    2:{ pose proof (length_afterRun l). simpl. rewrite Hc. simpl. lia. }
    rewrite <-(identRun_afterRun (c :: l)) at 3. f_equal.
    unfold tokenOut. rewrite Hrep. by destruct (_ && _).
  - cbn [rewriteTokens]. rewrite Hc. f_equal. apply (IH (length l)); [simpl; lia|done].
Qed.


(** *** The boundary tests on a split text *)

Lemma prevIdent_snoc pre c : prevIdent (pre ++ [c]) = nameChar c.
Proof. unfold prevIdent. by rewrite last_snoc. Qed.

Lemma testNonNameChar_split text pre suf :
  chars text = pre ++ suf →
  testNonNameChar text (length pre) = Ok (negb (prevIdent pre)).
Proof.
  intros Htext. unfold testNonNameChar.
  destruct pre as [|c0 pre0] using rev_ind; [done|].
  rewrite length_app. simpl. rewrite decide_False by lia.
  replace (length pre0 + 1 - 1) with (length pre0) by lia.
  unfold substr. rewrite decide_True.
  2:{ rewrite size_chars, Htext, !length_app. lia. }
  rewrite Htext, <-app_assoc, drop_app_length. simpl. rewrite ?take_0.
  cbn [mbind result_bind]. unfold regex_match_nonNameChar. simpl.
  by rewrite prevIdent_snoc.
Qed.

Lemma replace_split text pre suf n r :
  chars text = pre ++ suf →
  replace text (length pre) n r = Ok (of_chars (pre ++ chars r ++ drop n suf)).
Proof.
  intros Htext. unfold replace. rewrite decide_True.
  2:{ rewrite size_chars, Htext, length_app. lia. }
  rewrite Htext. rewrite take_app_length. rewrite drop_app_add'; done.
Qed.

Lemma testEndFree_behind text pre suf k :
  chars text = pre ++ suf → k ≤ length suf →
  testEndFree text (length pre + k) = Ok (endBoundaryFree (drop k suf)).
Proof.
  intros Htext Hk.
  rewrite <-(testEndFree_split text (pre ++ take k suf) (drop k suf)).
  - by rewrite length_app, length_take_le.
  - by rewrite <-app_assoc, take_drop.
Qed.

Lemma isFree_split text pre suf n :
  chars text = pre ++ suf → size n ≤ length suf →
  isFree text n EmptyString (length pre)
  = Ok (negb (prevIdent pre) && endBoundaryFree (drop (size n) suf)).
Proof.
  intros Htext Hn. unfold isFree, testFreePrefix.
  rewrite decide_True by done. cbn [mbind result_bind].
  rewrite bool_decide_false by naive_solver. cbn [andb negb].
  rewrite (testNonNameChar_split _ _ _ Htext). cbn [mbind result_bind].
  rewrite (testEndFree_behind _ _ _ _ Htext Hn). done.
Qed.

Lemma encodeAt_split text pre suf n r found :
  chars text = pre ++ suf → size n ≤ length suf →
  encodeAt n r EmptyString (text, found) (length pre)
  = Ok (if negb (prevIdent pre) && endBoundaryFree (drop (size n) suf)
        then (of_chars (pre ++ chars r ++ drop (size n) suf), {[n]} ∪ found)
        else (text, found)).
Proof.
  intros Htext Hn. unfold encodeAt, testFreePrefix.
  rewrite decide_True by done. cbn [mbind result_bind].
  rewrite bool_decide_false by naive_solver. cbn [andb negb].
  rewrite (testNonNameChar_split _ _ _ Htext). cbn [mbind result_bind].
  rewrite (testEndFree_behind _ _ _ _ Htext Hn). cbn [mbind result_bind].
  destruct (_ && _); [|done].
  by rewrite (replace_split _ _ _ _ _ Htext).
Qed.

(** *** One step of the scanner *)

Lemma getPositions_loop_step text name pre c suf q inString delim :
  chars text = pre ++ c :: suf →
  name ≠ EmptyString →
  (∀ c, head (chars name) = Some c → is_quote c = false) →
  quoteState q inString delim →
  ∃ inString' delim',
    quoteState (quoteToggle q c) inString' delim'
    ∧ getPositions_loop (S (length suf)) (length pre) inString delim text name
      = (if bool_decide (q = None)
            && bool_decide (take (size name) (c :: suf) = chars name)
         then [length pre] else [])
        ++ getPositions_loop (length suf) (S (length pre)) inString' delim' text name.
Proof.
  intros Htext Hne Hq Hst.
  assert (Hat : at_ text (length pre) = c) by by eapply at_split.
  assert (Hocc : bool_decide (substr text (length pre) (size name) = Ok name)
                 = bool_decide (take (size name) (c :: suf) = chars name)).
  { apply bool_decide_ext. rewrite substr_eq_Ok.
    rewrite size_chars, Htext, length_app, drop_app_length. simpl. intuition lia. }
  assert (Hnq : take (size name) (c :: suf) = chars name → is_quote c = false).
  { intros Ho. apply Hq. destruct (chars name) as [|c' n'] eqn:Hn.
    - destruct Hne. apply chars_inj. by rewrite Hn.
    - unfold size in Ho. rewrite Hn in Ho. simpl in Ho. by injection Ho as -> _. }
  cbn [getPositions_loop]. rewrite Hat, Hocc.
  destruct q as [d|]; simpl in Hst.
  - destruct Hst as [-> ->]. cbn [negb andb].
    rewrite (bool_decide_false (Some d = None)) by done. cbn [andb app].
    unfold quoteToggle. destruct (is_quote c) eqn:Hqc.
    + destruct (decide (c = d)) as [->|Hne'].
      * rewrite bool_decide_true by done. by exists false, d.
      * rewrite bool_decide_false by done. by exists true, d.
    + by exists true, d.
  - subst inString. cbn [negb andb]. rewrite (bool_decide_true (None = None)) by done.
    cbn [andb].
    destruct (bool_decide (take (size name) (c :: suf) = chars name)) eqn:Ho.
    + apply bool_decide_eq_true in Ho.
      exists false, delim. unfold quoteToggle. by rewrite Hnq.
    + unfold quoteToggle. destruct (is_quote c) eqn:Hqc.
      * by exists true, c.
      * by exists false, delim.
Qed.

(** *** A pass for one name *)

Lemma foldl_result_snoc {A B} (f : A → B → result A) a l b :
  foldl_result f a (l ++ [b]) = foldl_result f a l ≫= λ a', f a' b.
Proof.
  revert a. induction l as [|x l IH]; intros a; simpl.
  - by destruct (f a b).
  - destruct (f a x); simpl; [apply IH|done].
Qed.

Lemma foldl_result_reverse {A B} (f : A → B → result A) a l :
  foldl_result f a (reverse l) = foldr (λ b acc, acc ≫= λ a', f a' b) (Ok a) l.
Proof.
  induction l as [|x l IH]; [done|].
  by rewrite reverse_cons, foldl_result_snoc, IH.
Qed.

Lemma identRun_ident_app w l : identChars w → identRun (w ++ l) = w ++ identRun l.
Proof. induction 1 as [|c w Hc _ IH]; [done|]. simpl. by rewrite Hc, IH. Qed.

Lemma afterRun_ident_app w l : identChars w → afterRun (w ++ l) = afterRun l.
Proof. induction 1 as [|c w Hc _ IH]; [done|]. simpl. by rewrite Hc, IH. Qed.

Lemma take_eq_app {A} (n l : list A) : take (length n) l = n → l = n ++ drop (length n) l.
Proof. intros H. by rewrite <-H at 1; rewrite take_drop. Qed.

Lemma identifier_chars n : identifier n → chars n ≠ [] ∧ identChars (chars n).
Proof.
  intros [Hne Hid]. split; [|done]. intros H. apply Hne, chars_inj. by rewrite H.
Qed.

Lemma identifier_no_quote n c : identifier n → head (chars n) = Some c → is_quote c = false.
Proof.
  intros [_ Hid] Hc. destruct (chars n) as [|c' n']; [done|].
  injection Hc as ->. apply nameChar_not_quote. by inversion Hid.
Qed.


Lemma repOne_ident n r : r ≠ [] → identChars r → repIdent (repOne n r).
Proof. intros ?? w r'. unfold repOne. case_decide; [|done]. by intros [= <-]. Qed.

Lemma tokenOut_repOne_other n r q l :
  (q = None → identRun l ≠ n) → tokenOut (repOne n r) q l = identRun l.
Proof.
  intros H. unfold tokenOut. destruct (bool_decide_reflect (q = None)) as [Hq|]; [|done].
  cbn [andb]. destruct (noCallParen _); [|done].
  unfold repOne. by rewrite decide_False by auto.
Qed.

Lemma endBoundaryFree_ident_head c l : nameChar c = true → endBoundaryFree (c :: l) = false.
Proof. intros Hc. unfold endBoundaryFree. by rewrite Hc. Qed.

Lemma resumeTokens_nil rep q prev : resumeTokens rep q prev [] = [].
Proof. by destruct prev. Qed.

Lemma pass_rewrite text0 n r :
  identifier n → identifier r →
  ∀ suf pre q inString delim found,
    chars text0 = pre ++ suf → quoteState q inString delim →
    ∃ found',
      foldr (λ p acc, acc ≫= λ st, encodeAt n r EmptyString st p) (Ok (text0, found))
            (getPositions_loop (length suf) (length pre) inString delim text0 n)
      = Ok (of_chars (pre ++ resumeTokens (repOne (chars n) (chars r)) q (prevIdent pre) suf),
            found').
Proof.
  intros Hn Hr.
  destruct (identifier_chars n Hn) as [Hnne Hnid].
  destruct (identifier_chars r Hr) as [Hrne Hrid].
  pose proof (repOne_ident (chars n) (chars r) Hrne Hrid) as Hrep.
  induction suf as [|c suf IH]; intros pre q inString delim found Htext Hst.
  { exists found. simpl. rewrite resumeTokens_nil, <-Htext. by rewrite of_chars_chars. }
  destruct (getPositions_loop_step text0 n pre c suf q inString delim Htext)
    as (inString' & delim' & Hst' & Hstep);
    [apply Hn|intros ?; by apply identifier_no_quote|done|].
  cbn [length]. rewrite Hstep, foldr_app. clear Hstep.
  destruct (IH (pre ++ [c]) (quoteToggle q c) inString' delim' found) as [found1 Hin];
    [by rewrite <-app_assoc|done|].
  rewrite length_app, Nat.add_1_r in Hin. rewrite Hin. clear Hin IH.
  rewrite prevIdent_snoc, <-app_assoc. cbn [app].
  set (l := c :: suf).
  destruct (nameChar c) eqn:Hc.
  - (* [c] is an identifier character *)
    rewrite quoteToggle_nameChar by done.
    assert (resumeTokens (repOne (chars n) (chars r)) q true suf
            = identRun suf
                ++ rewriteTokens (repOne (chars n) (chars r)) q false (afterRun l))
      as -> by (unfold l; simpl; by rewrite Hc).
    set (Y := rewriteTokens (repOne (chars n) (chars r)) q false (afterRun l)).
    assert (atBoundary Y = true) as HY
      by apply rewriteTokens_atBoundary, afterRun_atBoundary.
    assert (c :: identRun suf = identRun l) as Hw by (unfold l; simpl; by rewrite Hc).
    rewrite app_comm_cons, Hw.
    assert (rewriteTokens (repOne (chars n) (chars r)) q false l
            = tokenOut (repOne (chars n) (chars r)) q l ++ Y) as HRT
      by by apply rewriteTokens_token.
    destruct (bool_decide_reflect (q = None)) as [Hq|Hq]; cbn [andb].
    2:{ exists found1. simpl. do 3 f_equal. unfold resumeTokens.
        destruct (prevIdent pre); [done|]. rewrite HRT.
        by rewrite tokenOut_repOne_other. }
    destruct (bool_decide_reflect (take (size n) l = chars n)) as [Htake|Htake].
    2:{ exists found1. simpl. do 3 f_equal. unfold resumeTokens.
        destruct (prevIdent pre); [done|]. rewrite HRT.
        rewrite tokenOut_repOne_other; [done|]. intros _ Hwn. apply Htake.
        rewrite <-(identRun_afterRun l), Hwn. unfold size. by rewrite take_app_length. }
    (* a match at this offset *)
    unfold size in Htake. apply take_eq_app in Htake. fold (size n) in Htake.
    set (rest := drop (size n) l) in *.
    assert (identRun l = chars n ++ identRun rest) as Hwl
      by (rewrite Htake at 1; by apply identRun_ident_app).
    assert (afterRun l = afterRun rest) as HXl
      by (rewrite Htake at 1; by apply afterRun_ident_app).
    cbn [foldr mbind result_bind].
    rewrite (encodeAt_split _ pre (identRun l ++ Y)); [|by rewrite chars_of_chars|].
    2:{ rewrite Hwl, !length_app. unfold size. lia. }
    assert (drop (size n) (identRun l ++ Y) = identRun rest ++ Y) as ->.
    { rewrite Hwl, <-app_assoc. unfold size. by rewrite drop_app_length. }
    unfold resumeTokens. rewrite HRT.
    destruct (prevIdent pre); cbn [negb andb].
    { by eexists. }
    destruct (identRun rest) as [|d w2] eqn:Hw2.
    + rewrite app_nil_r in Hwl. cbn [app].
      rewrite endBoundaryFree_atBoundary by done.
      unfold Y at 1. rewrite (noCallParen_rewriteTokens (repOne (chars n) (chars r)) Hrep).
      unfold tokenOut. rewrite Hwl, bool_decide_true by done. cbn [andb].
      destruct (noCallParen (afterRun l)).
      * eexists. do 3 f_equal. unfold repOne. by rewrite decide_True.
      * by eexists.
    + assert (nameChar d = true) as Hd.
      { pose proof (identRun_ident rest) as Hi. rewrite Hw2 in Hi. by inversion Hi. }
      cbn [app]. rewrite endBoundaryFree_ident_head by done.
      eexists. do 3 f_equal.
      rewrite tokenOut_repOne_other; [done|].
      intros _. rewrite Hwl. intros Heq.
      apply (f_equal length) in Heq. rewrite length_app in Heq. simpl in Heq. lia.
  - (* [c] is no identifier character: no match starts here *)
    assert (bool_decide (take (size n) l = chars n) = false) as ->.
    { apply bool_decide_eq_false. intros Htake.
      destruct (chars n) as [|c' n'] eqn:Hcn; [done|].
      unfold size in Htake. rewrite Hcn in Htake. simpl in Htake.
      injection Htake as -> _. inversion Hnid. congruence. }
    rewrite andb_false_r. cbn [app foldr].
    exists found1. do 3 f_equal.
    unfold resumeTokens, l. cbn [identRun afterRun rewriteTokens]. rewrite Hc.
    destruct (prevIdent pre); [|done]. cbn [app rewriteTokens]. by rewrite Hc.
Qed.


Lemma encodeName_rewrite map n r text found :
  identifier n → map !! n = Some r → identifier r →
  ∃ found',
    encodeName map EmptyString (text, found) n
    = Ok (of_chars (rewriteTokens (repOne (chars n) (chars r)) None false (chars text)),
          found').
Proof.
  intros Hn Hm Hr. unfold encodeName, map_at. rewrite Hm. cbn [mbind result_bind fst].
  rewrite foldl_result_reverse. unfold getPositionsColumnNameMatches.
  apply (pass_rewrite text n r Hn Hr (chars text) [] None false "?"%char found); done.
Qed.

Lemma repAll_ident map all names : identifierNames map all names → repIdent (repAll map names).
Proof.
  intros Hnames w r. unfold repAll. case_decide as Hin; [|done].
  destruct (Hnames _ Hin) as (_ & r' & Hr' & Hid & _). rewrite Hr'. simpl.
  intros [= <-]. by apply identifier_chars.
Qed.

Lemma encodeRScript_rewrite map all names :
  names ⊆ all → identifierNames map all names →
  ∀ text found,
  ∃ found',
    foldl_result (encodeName map EmptyString) (text, found) names
    = Ok (of_chars (rewriteTokens (repAll map names) None false (chars text)), found').
Proof.
  induction names as [|n names IH]; intros Hsub Hnames text found.
  { exists found. simpl. rewrite rewriteTokens_id; [by rewrite of_chars_chars|].
    intros w. unfold repAll. rewrite decide_False; [done|]. apply not_elem_of_nil. }
  destruct (Hnames n) as (Hn & r & Hm & Hr & Hrall); [by left|].
  assert (names ⊆ all) as Hsub'.
  { intros x Hx. apply Hsub. by right. }
  assert (identifierNames map all names) as Hnames'.
  { intros x Hx. apply Hnames. by right. }
  cbn [foldl_result].
  destruct (encodeName_rewrite map n r text found Hn Hm Hr) as [found1 ->].
  cbn [mbind result_bind].
  destruct (IH Hsub' Hnames' (of_chars (rewriteTokens (repOne (chars n) (chars r)) None
                                          false (chars text))) found1) as [found2 ->].
  exists found2. do 3 f_equal. rewrite chars_of_chars.
  apply rewriteTokens_compose.
  - apply repOne_ident; by apply identifier_chars.
  - intros w. unfold repOne, repAll. destruct (decide (w = chars n)) as [->|Hw].
    + rewrite of_chars_chars. rewrite decide_True by by left. by rewrite Hm.
    + destruct (decide (of_chars w ∈ names)) as [Hin|Hin].
      * rewrite decide_True; [done|by right].
      * rewrite decide_False; [done|].
        intros [Heq|?]%elem_of_cons; [|done]. apply Hw. by rewrite <-Heq, chars_of_chars.
  - intros w r'. unfold repOne, repAll. case_decide; [|done]. intros [= <-].
    rewrite of_chars_chars. rewrite decide_False; [done|].
    intros Hin. by apply Hrall, Hsub'.
Qed.


Lemma head_filter_seq (P : nat → Prop) `{!∀ p, Decision (P p)} a k :
  match head (filter P (seq a k)) with
  | Some p => a ≤ p < a + k ∧ P p ∧ ∀ p', a ≤ p' < p → ¬ P p'
  | None => ∀ p', a ≤ p' < a + k → ¬ P p'
  end.
Proof.
  revert a. induction k as [|k IH]; intros a; simpl; [lia|].
  rewrite filter_cons. destruct (decide (P a)) as [Ha|Ha]; simpl.
  - split; [lia|]. split; [done|]. lia.
  - specialize (IH (S a)). destruct (head (filter P (seq (S a) k))) as [p|].
    + destruct IH as (? & ? & Hmin). split; [lia|]. split; [done|].
      intros p' Hp'. destruct (decide (p' = a)) as [->|]; [done|]. apply Hmin. lia.
    + intros p' Hp'. destruct (decide (p' = a)) as [->|]; [done|]. apply IH. lia.
Qed.

Lemma nextFreeOccurrence_spec text n cursor :
  identifier n →
  match nextFreeOccurrence text n EmptyString cursor with
  | Some p => cursor ≤ p ∧ candAt (chars text) n p
              ∧ ∀ p', cursor ≤ p' < p → ¬ candAt (chars text) n p'
  | None => ∀ p', cursor ≤ p' → ¬ candAt (chars text) n p'
  end.
Proof.
  intros Hn. unfold nextFreeOccurrence, getPositionsColumnNameMatches.
  pose proof (getPositions_loop_spec text n [] (chars text) None false "?"%char
                eq_refl (proj1 Hn) (λ c, identifier_no_quote n c Hn) eq_refl) as Hg.
  cbn [length] in Hg. unfold size at 1. rewrite Hg. clear Hg.
  rewrite list_filter_filter.
  set (P := λ p, (cursor ≤ p ∧ isFree text n EmptyString p = Ok true)
                 ∧ occurs_at (chars text) (chars n) p = true
                 ∧ foldl quoteToggle None (take (p - 0) (chars text)) = None).
  assert (∀ p, P p ↔ cursor ≤ p ∧ candAt (chars text) n p) as HP.
  { intros p. unfold P, candAt, occurs_at. rewrite Nat.sub_0_r, bool_decide_eq_true.
    rewrite of_chars_chars. unfold size. tauto. }
  pose proof (head_filter_seq P 0 (length (chars text))) as Hh.
  destruct (head (filter P (seq 0 (length (chars text))))) as [p|].
  - destruct Hh as (_ & [Hc Hp]%HP & Hmin). split; [done|]. split; [done|].
    intros p' Hp' Hcand. apply (Hmin p'); [lia|]. apply HP. split; [lia|done].
  - intros p' Hp' Hcand.
    destruct (decide (p' < length (chars text))) as [Hlt|Hge].
    + apply (Hh p'); [lia|]. by apply HP.
    + destruct Hcand as (_ & Htake & _).
      rewrite drop_ge, take_nil in Htake by lia.
      by destruct (identifier_chars n Hn).
Qed.

Lemma firstFreeFound_spec text names cursor :
  (∀ n, n ∈ names → identifier n) →
  firstFreeInv (chars text) names cursor (firstFreeFound text names EmptyString cursor).
Proof.
  intros Hnames. unfold firstFreeFound.
  cut (∀ done acc, firstFreeInv (chars text) done cursor acc →
         firstFreeInv (chars text) (done ++ names) cursor
           (foldl (λ '(firstFoundPos, replaceThis) replaceMe,
                     let pos := nextFreeOccurrence text replaceMe EmptyString cursor in
                     if npos_lt pos firstFoundPos then (pos, replaceMe)
                     else (firstFoundPos, replaceThis)) acc names)).
  { intros H. apply (H [] (None, EmptyString)). intros n' p' Hin. by apply elem_of_nil in Hin. }
  induction names as [|n names IH]; intros done acc Hinv.
  { by rewrite app_nil_r. }
  cbn [foldl]. replace (done ++ n :: names) with ((done ++ [n]) ++ names)
    by by rewrite <-app_assoc.
  apply IH; [intros; apply Hnames; by right|].
  pose proof (nextFreeOccurrence_spec text n cursor (Hnames n ltac:(by left))) as Hnext.
  destruct acc as [fp rt]. unfold firstFreeInv in *. cbn [fst snd] in *.
  destruct (nextFreeOccurrence text n EmptyString cursor) as [p1|];
    destruct fp as [p|]; cbn [npos_lt fst snd].
  - destruct Hinv as (Hrt & Hc & Hcand & Hmin). destruct Hnext as (Hc1 & Hcand1 & Hmin1).
    case_bool_decide; cbn [fst snd].
    + split; [apply elem_of_app; right; by left|]. split; [done|]. split; [done|].
      intros n' p' [Hin| ->%list_elem_of_singleton]%elem_of_app Hp'.
      * apply Hmin; [done|lia].
      * by apply Hmin1.
    + split; [apply elem_of_app; by left|]. split; [done|]. split; [done|].
      intros n' p' [Hin| ->%list_elem_of_singleton]%elem_of_app Hp'.
      * by apply Hmin.
      * apply Hmin1. lia.
  - destruct Hnext as (Hc1 & Hcand1 & Hmin1).
    split; [apply elem_of_app; right; by left|]. split; [done|]. split; [done|].
    intros n' p' [Hin| ->%list_elem_of_singleton]%elem_of_app Hp'.
    + apply Hinv; [done|lia].
    + by apply Hmin1.
  - destruct Hinv as (Hrt & Hc & Hcand & Hmin).
    split; [apply elem_of_app; by left|]. split; [done|]. split; [done|].
    intros n' p' [Hin| ->%list_elem_of_singleton]%elem_of_app Hp'.
    + by apply Hmin.
    + apply Hnext. lia.
  - intros n' p' [Hin| ->%list_elem_of_singleton]%elem_of_app Hp'.
    + by apply Hinv.
    + by apply Hnext.
Qed.


Lemma endBoundaryFree_iff l :
  endBoundaryFree l = true ↔ atBoundary l = true ∧ noCallParen l = true.
Proof. unfold endBoundaryFree, atBoundary. by rewrite andb_true_iff. Qed.

Lemma candAt_split pre suf n :
  candAt (pre ++ suf) n (length pre)
  ↔ foldl quoteToggle None pre = None
    ∧ take (size n) suf = chars n
    ∧ prevIdent pre = false
    ∧ endBoundaryFree (drop (size n) suf) = true.
Proof.
  unfold candAt. rewrite take_app_length, drop_app_length.
  assert (take (size n) suf = chars n → size n ≤ length suf) as Hlen.
  { intros H%(f_equal length). rewrite length_take in H. unfold size in *. lia. }
  split.
  - intros (Hq & Ht & Hf).
    rewrite (isFree_split _ pre suf) in Hf; [|by rewrite chars_of_chars|auto].
    injection Hf as Hf. apply andb_true_iff in Hf as [Hp ?].
    apply negb_true_iff in Hp. done.
  - intros (Hq & Ht & Hp & He). split; [done|]. split; [done|].
    rewrite (isFree_split _ pre suf); [|by rewrite chars_of_chars|auto].
    by rewrite Hp, He.
Qed.

Lemma atBoundary_runs l : atBoundary l = true → identRun l = [] ∧ afterRun l = l.
Proof. destruct l as [|c l]; [done|]. simpl. by destruct (nameChar c). Qed.

(** A token that is a name with a free end, and the other way round. *)
Lemma token_cand n suf :
  identifier n →
  take (size n) suf = chars n ∧ endBoundaryFree (drop (size n) suf) = true
  ↔ identRun suf = chars n ∧ noCallParen (afterRun suf) = true.
Proof.
  intros Hn. destruct (identifier_chars n Hn) as [Hne Hid]. split.
  - intros [Ht [Hb Hp]%endBoundaryFree_iff]. unfold size in *.
    apply take_eq_app in Ht. rewrite Ht.
    by rewrite identRun_app, afterRun_app.
  - intros [Hw Hp]. rewrite <-(identRun_afterRun suf), Hw. unfold size.
    rewrite take_app_length, drop_app_length. split; [done|].
    apply endBoundaryFree_iff. split; [apply afterRun_atBoundary|done].
Qed.

Lemma runs_app A Y :
  afterRun A ≠ [] ∨ atBoundary Y = true →
  identRun (A ++ Y) = identRun A ∧ afterRun (A ++ Y) = afterRun A ++ Y.
Proof.
  induction A as [|c A IH]; intros H; simpl.
  - destruct H as [?|H]; [done|]. by apply atBoundary_runs.
  - simpl in H. destruct (nameChar c); [|done].
    destruct (IH H) as [-> ->]. done.
Qed.

Lemma prevIdent_app pre A : A ≠ [] → prevIdent (pre ++ A) = prevIdent A.
Proof.
  intros HA. unfold prevIdent. destruct A as [|a A] using rev_ind; [done|].
  by rewrite app_assoc, !last_snoc.
Qed.

Lemma prevIdent_ident A : A ≠ [] → identChars A → prevIdent A = true.
Proof.
  intros HA Hid. unfold prevIdent. destruct A as [|a A] using rev_ind; [done|].
  rewrite last_snoc. apply Forall_app in Hid as [_ Ha]. by inversion Ha.
Qed.

Lemma afterRun_nil_ident A : afterRun A = [] → identChars A.
Proof. intros H. rewrite <-(identRun_afterRun A), H, app_nil_r. apply identRun_ident. Qed.

Lemma length_afterRun_lt c l : nameChar c = true → length (afterRun (c :: l)) < length (c :: l).
Proof. intros Hc. simpl. rewrite Hc. pose proof (length_afterRun l). simpl. lia. Qed.

Lemma rewriteTokens_token_head rep q l c :
  head l = Some c → nameChar c = true →
  rewriteTokens rep q false l = tokenOut rep q l ++ rewriteTokens rep q false (afterRun l).
Proof. destruct l as [|c' l]; [done|]. intros [= ->]. apply rewriteTokens_token. Qed.

Section scan.
Context (map : gmap string string) (names : list string).
Context (Hnames : ∀ n, n ∈ names → identifier n).

(** Up to the first free occurrence of a name the token-wise rewriting
    leaves the text as it is. *)
Lemma rewriteTokens_scan A :
  ∀ Y pre,
    prevIdent pre = false ∨ atBoundary (A ++ Y) = true →
    prevIdent (pre ++ A) = false ∨ atBoundary Y = true →
    (∀ n j, n ∈ names → j < length A → ¬ candAt (pre ++ A ++ Y) n (length pre + j)) →
    rewriteTokens (repAll map names) (foldl quoteToggle None pre) false (A ++ Y)
    = A ++ rewriteTokens (repAll map names) (foldl quoteToggle None (pre ++ A)) false Y.
Proof.
  remember (length A) as k eqn:Hk. revert A Hk.
  induction (lt_wf k) as [k _ IH]. intros A -> Y pre Hstart Hend Hnone.
  destruct A as [|c A1]; [by rewrite app_nil_r|].
  set (A := c :: A1) in *.
  destruct (nameChar c) eqn:Hc.
  - assert (prevIdent pre = false) as Hprev.
    { destruct Hstart as [?|Hs]; [done|]. unfold A in Hs. simpl in Hs. by rewrite Hc in Hs. }
    assert (afterRun A ≠ [] ∨ atBoundary Y = true) as Hruns.
    { destruct (afterRun A) eqn:HA; [|by left]. right.
      destruct Hend as [He|?]; [|done].
      assert (A ≠ []) as HAne by (unfold A; done).
      rewrite prevIdent_app in He by done.
      rewrite prevIdent_ident in He; [done|done|by apply afterRun_nil_ident]. }
    destruct (runs_app A Y Hruns) as [Hw HX].
    rewrite (rewriteTokens_token_head _ _ (A ++ Y) c) by done. rewrite HX.
    assert (tokenOut (repAll map names) (foldl quoteToggle None pre) (A ++ Y) = identRun A)
      as ->.
    { unfold tokenOut. rewrite Hw, HX.
      destruct (bool_decide_reflect (foldl quoteToggle None pre = None)) as [Hq|]; [|done].
      cbn [andb]. destruct (noCallParen (afterRun A ++ Y)) eqn:Hp; [|done].
      unfold repAll. case_decide as Hin; [|done]. exfalso.
      apply (Hnone _ 0 Hin); [simpl; lia|]. rewrite Nat.add_0_r.
      apply candAt_split.
      assert (take (size (of_chars (identRun A))) (A ++ Y) = chars (of_chars (identRun A))
              ∧ endBoundaryFree (drop (size (of_chars (identRun A))) (A ++ Y)) = true)
        as [? ?]; [|done].
      apply token_cand; [by apply Hnames|]. rewrite Hw, HX, chars_of_chars. done. }
    rewrite <-(quoteToggle_ident (foldl quoteToggle None pre) (identRun A))
      by apply identRun_ident.
    rewrite <-foldl_app.
    rewrite (IH (length (afterRun A))); [| |done| | |].
    + replace ((pre ++ identRun A) ++ afterRun A) with (pre ++ A)
        by by rewrite <-app_assoc, identRun_afterRun.
      by rewrite app_assoc, identRun_afterRun.
    + by apply length_afterRun_lt.
    + right. destruct Hruns as [HA|HY].
      * destruct (afterRun A) as [|a A2] eqn:HA2; [done|].
        pose proof (afterRun_atBoundary A) as Hb. rewrite HA2 in Hb. done.
      * destruct (afterRun A) as [|a A2] eqn:HA2; [done|].
        pose proof (afterRun_atBoundary A) as Hb. rewrite HA2 in Hb. done.
    + by rewrite <-app_assoc, identRun_afterRun.
    + intros n j Hin Hj.
      replace ((pre ++ identRun A) ++ afterRun A ++ Y) with (pre ++ A ++ Y).
      2:{ rewrite <-(identRun_afterRun A) at 1. by rewrite <-!app_assoc. }
      rewrite length_app, <-Nat.add_assoc. apply Hnone; [done|].
      assert (length A = length (identRun A) + length (afterRun A)) as ->
        by by rewrite <-length_app, identRun_afterRun.
      lia.
  - unfold A in *. cbn [app rewriteTokens]. rewrite Hc. f_equal.
    replace (quoteToggle (foldl quoteToggle None pre) c)
      with (foldl quoteToggle None (pre ++ [c])) by by rewrite foldl_app.
    rewrite (IH (length A1)); [| |done| | |].
    + by rewrite <-app_assoc.
    + simpl. lia.
    + left. by rewrite prevIdent_snoc.
    + by rewrite <-app_assoc.
    + intros n j Hin Hj.
      replace ((pre ++ [c]) ++ A1 ++ Y) with (pre ++ (c :: A1) ++ Y)
        by by rewrite <-app_assoc.
      rewrite length_app. cbn [length]. rewrite <-Nat.add_assoc.
      apply (Hnone n (1 + j) Hin). simpl. lia.
Qed.
End scan.


Lemma cursorResuming_rewrite map names :
  identifierNames map names names →
  ∀ fuel suf pre,
    length suf < fuel →
    prevIdent pre = false ∨ atBoundary suf = true →
    cursorResuming_loop fuel (of_chars (pre ++ suf)) map names EmptyString
      (Some (length pre))
    = Some (Ok (of_chars (pre ++ rewriteTokens (repAll map names)
                                   (foldl quoteToggle None pre) false suf))).
Proof.
  intros Hnames.
  assert (∀ n, n ∈ names → identifier n) as Hid by (intros n Hn; by apply Hnames).
  induction fuel as [|fuel IH]; intros suf pre Hfuel Hstart; [lia|].
  cbn [cursorResuming_loop]. unfold cursorResuming_step.
  pose proof (firstFreeFound_spec (of_chars (pre ++ suf)) names (length pre) Hid) as Hff.
  rewrite chars_of_chars in Hff. unfold firstFreeInv in Hff.
  destruct (firstFreeFound _ names EmptyString (length pre)) as [[p|] n];
    cbn [fst snd] in Hff.
  - destruct Hff as (Hin & Hle & Hcand & Hmin).
    destruct (Hnames n Hin) as (Hn & r & Hm & Hr & _).
    destruct (identifier_chars n Hn) as [Hnne Hnid].
    destruct (identifier_chars r Hr) as [Hrne Hrid].
    (* split the text at the occurrence *)
    assert (p < length (pre ++ suf)) as Hp.
    { destruct Hcand as (_ & Ht & _). destruct (decide (p < length (pre ++ suf))); [done|].
      rewrite drop_ge, take_nil in Ht by lia. done. }
    rewrite length_app in Hp.
    assert (∃ A rest, suf = A ++ rest ∧ length A = p - length pre)
      as (A & rest & Hsuf & HA).
    { exists (take (p - length pre) suf), (drop (p - length pre) suf).
      rewrite take_drop, length_take. split; [done|lia]. }
    assert (length (pre ++ A) = p) as HpA by (rewrite length_app; lia).
    assert (pre ++ suf = (pre ++ A) ++ rest) as Htext by by rewrite Hsuf at 1; rewrite app_assoc.
    rewrite Htext in Hcand. rewrite <-HpA in Hcand.
    apply candAt_split in Hcand as (Hq & Htake & Hprev & Hend).
    pose proof Htake as Hrest. unfold size in Hrest. apply take_eq_app in Hrest.
    fold (size n) in Hrest. revert Hrest Hend.
    generalize (drop (size n) rest) as X. intros X Hrest Hend.
    apply endBoundaryFree_iff in Hend as [HXb HXp].
    (* run the step *)
    unfold map_at. rewrite Hm. cbn [mbind result_bind].
    rewrite Htext. rewrite <-HpA at 1.
    rewrite (replace_split _ (pre ++ A) rest) by by rewrite chars_of_chars.
    cbn [mbind result_bind].
    replace (drop (size n) rest) with X
      by (rewrite Hrest at 1; unfold size; by rewrite drop_app_length).
    replace (p + size r) with (length ((pre ++ A) ++ chars r))
      by (rewrite length_app; unfold size; lia).
    rewrite app_assoc.
    rewrite IH; [|
      | by right].
    2:{ assert (length suf = length A + (length (chars n) + length X)) as Hl
          by by rewrite Hsuf, Hrest, !length_app.
        destruct (chars n); [done|]. simpl in Hl. lia. }
    do 3 f_equal.
    rewrite foldl_app, quoteToggle_ident, Hq by done.
    rewrite <-!app_assoc. f_equal. rewrite Hsuf at 1.
    rewrite (rewriteTokens_scan map names Hid A rest pre); [|by rewrite <-Hsuf|by left|].
    2:{ intros n' j' Hn' Hj'. rewrite <-Hsuf. apply Hmin; [done|lia]. }
    f_equal. rewrite Hq.
    destruct (chars n) as [|c cn] eqn:Hcn; [done|].
    rewrite (rewriteTokens_token_head _ _ rest c);
      [|by rewrite Hrest|by inversion Hnid].
    assert (identRun rest = c :: cn) as Hw by (rewrite Hrest; by apply identRun_app).
    assert (afterRun rest = X) as HaX by (rewrite Hrest; by apply afterRun_app).
    unfold tokenOut. rewrite Hw, HaX, HXp. rewrite bool_decide_true by done. cbn [andb].
    unfold repAll. rewrite <-Hcn, of_chars_chars, decide_True by done.
    by rewrite Hm.
  - assert (rewriteTokens (repAll map names) (foldl quoteToggle None pre) false suf = suf)
      as ->.
    { rewrite <-(app_nil_r suf) at 1.
      rewrite (rewriteTokens_scan map names Hid suf [] pre);
        [by rewrite app_nil_r| by rewrite app_nil_r | by right|].
      intros n' j' Hn' Hj'. rewrite app_nil_r. apply Hff; [done|lia]. }
    by destruct fuel.
Qed.

(** C1 (amended): with no mandatory prefix, when every listed name is a
    non-empty run of identifier characters mapped to a non-empty run of
    identifier characters that is not itself a listed name, [encodeRScript]
    returns the text that the cursor-resuming algorithm returns on the free,
    unquoted occurrences (and that algorithm stops within [size text + 1]
    iterations). *)
Theorem encodeRScript_cursorResuming text map names :
  (∀ n, n ∈ names →
     identifier n ∧ ∃ r, map !! n = Some r ∧ identifier r ∧ r ∉ names) →
  ∃ out found,
    encodeRScript text map names EmptyString = Ok (out, found)
    ∧ encodeInScriptText_spec (S (size text)) text map names EmptyString
      = Some (Ok out).
Proof.
  intros Hnames.
  destruct (encodeRScript_rewrite map names names (reflexivity _) Hnames text ∅)
    as [found Henc].
  eexists _, found. split; [exact Henc|].
  unfold encodeInScriptText_spec.
  rewrite <-(of_chars_chars text) at 2.
  apply (cursorResuming_rewrite map names Hnames (S (size text)) (chars text) []).
  - unfold size. lia.
  - by left.
Qed.

(** ** The occurrence scanner reports occurrences only *)

Lemma getPositions_loop_sound text name fuel pos inString delim :
  ∀ p, p ∈ getPositions_loop fuel pos inString delim text name →
    pos ≤ p < pos + fuel ∧ substr text p (size name) = Ok name.
Proof.
  revert pos inString delim.
  induction fuel as [|fuel IH]; intros pos inString delim p Hp; simpl in Hp.
  { by apply elem_of_nil in Hp. }
  destruct (negb inString && bool_decide (substr text pos (size name) = Ok name)) eqn:Hm.
  - apply andb_true_iff in Hm as [_ Hm%bool_decide_eq_true].
    apply elem_of_cons in Hp as [->|Hp]; [split; [lia|done]|].
    apply IH in Hp as [? ?]. split; [lia|done].
  - repeat case_match; apply IH in Hp as [? ?]; (split; [lia|done]).
Qed.

Lemma getPositions_loop_increasing text name fuel pos inString delim :
  StronglySorted lt (getPositions_loop fuel pos inString delim text name).
Proof.
  revert pos inString delim.
  induction fuel as [|fuel IH]; intros pos inString delim; simpl; [constructor|].
  repeat case_match; try apply IH.
  constructor; [apply IH|].
  apply Forall_forall. intros p Hp%getPositions_loop_sound. lia.
Qed.

(** X1: every offset the scanner returns is below the length of the text,
    the name stands there in full, and the offsets are strictly
    increasing; this holds for every name, the empty one included. *)
Theorem getPositionsColumnNameMatches_sound text name :
  StronglySorted lt (getPositionsColumnNameMatches text name)
  ∧ ∀ p, p ∈ getPositionsColumnNameMatches text name →
      p < size text ∧ p + size name ≤ size text
      ∧ take (size name) (drop p (chars text)) = chars name.
Proof.
  split; [apply getPositions_loop_increasing|].
  intros p [Hp Hs]%getPositions_loop_sound.
  apply substr_eq_Ok in Hs as [? Hs]. split; [lia|]. split; [|done].
  apply (f_equal length) in Hs. rewrite length_take, length_drop in Hs.
  unfold size in *. lia.
Qed.

(** ** The prefix test *)

(** X2: [testFreePrefix] never throws: the handler swallows the
    [std::out_of_range] of [substr].  It answers [true] exactly when the
    prefix is non-empty, stands in the text right before [pos], and is not
    itself preceded by an identifier character. *)
Theorem testFreePrefix_spec text mandatoryPrefix pos :
  testFreePrefix text mandatoryPrefix pos
  = Ok (bool_decide (mandatoryPrefix ≠ EmptyString ∧ size mandatoryPrefix ≤ pos
                     ∧ take (size mandatoryPrefix)
                            (drop (pos - size mandatoryPrefix) (chars text))
                       = chars mandatoryPrefix)
        && negb (prevIdent (take (pos - size mandatoryPrefix) (chars text)))).
Proof.
  unfold testFreePrefix.
  destruct (decide (mandatoryPrefix = EmptyString)) as [->|Hne].
  { by rewrite bool_decide_false by naive_solver. }
  destruct (decide (size mandatoryPrefix ≤ pos)) as [Hle|Hgt].
  2:{ by rewrite bool_decide_false by naive_solver. }
  set (k := pos - size mandatoryPrefix).
  unfold substr. destruct (decide (k ≤ size text)) as [Hk|Hk].
  - cbn [mbind result_bind].
    destruct (decide (of_chars (take (size mandatoryPrefix) (drop k (chars text)))
                      = mandatoryPrefix)) as [Heq|Heq].
    + apply of_chars_eq in Heq.
      assert (testNonNameChar text k = Ok (negb (prevIdent (take k (chars text))))) as ->.
      { rewrite <-(testNonNameChar_split text (take k (chars text)) (drop k (chars text)))
          by (by rewrite take_drop).
        by rewrite length_take_le by (by unfold size in Hk). }
      cbn [mbind result_bind]. by rewrite bool_decide_true.
    + rewrite bool_decide_false; [done|].
      intros (_ & _ & H). apply Heq. by apply of_chars_eq.
  - cbn [mbind result_bind]. rewrite bool_decide_false; [done|].
    intros (_ & _ & H). rewrite drop_ge in H by (unfold size in Hk; lia).
    rewrite take_nil in H. apply Hne, size_empty_iff. unfold size. by rewrite <-H.
Qed.

(** ** [encodeRScript]: what a successful run tells *)

Lemma foldl_result_inv {A B} (P : A → Prop) (f : A → B → result A) l a a' :
  P a → (∀ a b a', b ∈ l → P a → f a b = Ok a' → P a') →
  foldl_result f a l = Ok a' → P a'.
Proof.
  revert a. induction l as [|b l IH]; intros a Ha Hf; simpl.
  { by intros [= <-]. }
  destruct (f a b) as [a1|e] eqn:Hb; [|done]. cbn [mbind result_bind].
  apply IH.
  - apply (Hf a b); [by left|done..].
  - intros ??? Hin. apply Hf. by right.
Qed.

Lemma foldl_result_throws {A B} (f : A → B → result A) l a e e0 :
  (∀ a b e, b ∈ l → f a b = Throw e → e = e0) →
  foldl_result f a l = Throw e → e = e0.
Proof.
  revert a. induction l as [|b l IH]; intros a Hf; simpl; [done|].
  destruct (f a b) as [a1|e1] eqn:Hb; cbn [mbind result_bind].
  - apply IH. intros ??? Hin. apply Hf. by right.
  - intros [= <-]. apply (Hf a b); [by left|done].
Qed.

Lemma substr_throws text pos n e : substr text pos n = Throw e → e = out_of_range.
Proof. unfold substr. case_decide; [done|by intros [= <-]]. Qed.

Lemma replace_throws text pos n r e : replace text pos n r = Throw e → e = out_of_range.
Proof. unfold replace. case_decide; [done|by intros [= <-]]. Qed.

Lemma testNonNameChar_throws text pos e :
  testNonNameChar text pos = Throw e → e = out_of_range.
Proof.
  unfold testNonNameChar. case_decide; [done|].
  destruct (substr _ _ _) eqn:Hs; [done|]. cbn [mbind result_bind].
  intros [= <-]. by apply substr_throws in Hs.
Qed.

Lemma testEndFree_throws text pos e : testEndFree text pos = Throw e → e = out_of_range.
Proof.
  unfold testEndFree. case_decide; [done|].
  destruct (substr _ _ _) eqn:Hs; [done|]. cbn [mbind result_bind].
  intros [= <-]. by apply substr_throws in Hs.
Qed.

Lemma testFreePrefix_total text mandatoryPrefix pos :
  ∃ b, testFreePrefix text mandatoryPrefix pos = Ok b.
Proof.
  unfold testFreePrefix. case_decide; [by eexists|].
  case_decide; [|by eexists].
  destruct (substr _ _ _) as [s|e] eqn:Hs; cbn [mbind result_bind].
  - case_decide; [|by eexists].
    destruct (testNonNameChar _ _) as [b|e] eqn:Ht; cbn [mbind result_bind];
      [by eexists|].
    apply testNonNameChar_throws in Ht as ->. by eexists.
  - apply substr_throws in Hs as ->. by eexists.
Qed.

Lemma encodeAt_throws oldCol newCol mandatoryPrefix st foundPos e :
  encodeAt oldCol newCol mandatoryPrefix st foundPos = Throw e → e = out_of_range.
Proof.
  destruct st as [text found]. unfold encodeAt.
  destruct (testFreePrefix_total text mandatoryPrefix foundPos) as [b ->].
  cbn [mbind result_bind]. destruct (_ && _); [done|].
  destruct (if b then Ok true else testNonNameChar text foundPos) as [s|e1] eqn:Hs;
    cbn [mbind result_bind].
  2:{ intros [= <-]. destruct b; [done|]. by apply testNonNameChar_throws in Hs. }
  destruct (testEndFree _ _) as [s'|e1] eqn:He; cbn [mbind result_bind].
  2:{ intros [= <-]. by apply testEndFree_throws in He. }
  destruct (_ && _); [|done].
  destruct (replace _ _ _ _) as [t|e1] eqn:Hr; cbn [mbind result_bind]; [done|].
  intros [= <-]. by apply replace_throws in Hr.
Qed.

Lemma encodeName_throws map mandatoryPrefix st oldCol e :
  encodeName map mandatoryPrefix st oldCol = Throw e → e = out_of_range.
Proof.
  unfold encodeName, map_at. destruct (map !! oldCol); cbn [mbind result_bind].
  - apply foldl_result_throws. intros ????. apply encodeAt_throws.
  - by intros [= <-].
Qed.

(** X3: [encodeRScript] looks every listed name up with [map.at] before it
    scans for it, so a listed name without a key makes the call throw
    [std::out_of_range], whether or not any name occurs in the text. *)
Theorem encodeRScript_missing_key text map names mandatoryPrefix n :
  n ∈ names → map !! n = None →
  encodeRScript text map names mandatoryPrefix = Throw out_of_range.
Proof.
  unfold encodeRScript. generalize (text, (∅ : gset string)).
  induction names as [|m names IH]; intros st Hin Hn.
  { by apply elem_of_nil in Hin. }
  simpl. destruct (encodeName map mandatoryPrefix st m) as [st'|e] eqn:Hm;
    cbn [mbind result_bind].
  - apply elem_of_cons in Hin as [->|Hin]; [|by apply IH].
    unfold encodeName, map_at in Hm. by rewrite Hn in Hm.
  - by apply encodeName_throws in Hm as ->.
Qed.

Lemma encodeAt_foundInv text0 tried oldCol newCol mandatoryPrefix st foundPos st' :
  oldCol ∈ tried → foundInv text0 tried st →
  encodeAt oldCol newCol mandatoryPrefix st foundPos = Ok st' →
  foundInv text0 tried st'.
Proof.
  destruct st as [text found]. intros Hin [Hsub Hsame]. unfold encodeAt.
  destruct (testFreePrefix _ _ _) as [b|]; cbn [mbind result_bind]; [|done].
  destruct (_ && negb b); [by intros [= <-]|].
  destruct (if b then _ else _); cbn [mbind result_bind]; [|done].
  destruct (testEndFree _ _); cbn [mbind result_bind]; [|done].
  destruct (_ && _); [|by intros [= <-]].
  destruct (replace _ _ _ _); cbn [mbind result_bind]; [|done].
  intros [= <-]. split; simpl in *; set_solver.
Qed.

Lemma encodeName_foundInv text0 tried map mandatoryPrefix st oldCol st' :
  oldCol ∈ tried → foundInv text0 tried st →
  encodeName map mandatoryPrefix st oldCol = Ok st' →
  foundInv text0 tried st'.
Proof.
  intros Hin Hst. unfold encodeName.
  destruct (map_at map oldCol) as [newCol|]; cbn [mbind result_bind]; [|done].
  apply foldl_result_inv; [done|].
  intros ?????. by apply encodeAt_foundInv.
Qed.

Lemma encodeRScript_foundInv text map names mandatoryPrefix out found :
  encodeRScript text map names mandatoryPrefix = Ok (out, found) →
  foundInv text (list_to_set names) (out, found).
Proof.
  unfold encodeRScript. apply foldl_result_inv.
  - split; [set_solver|done].
  - intros st n st' Hn. apply encodeName_foundInv. set_solver.
Qed.

(** X4: the set [*columnNamesFound] holds listed names only. *)
Theorem encodeRScript_found_listed text map names mandatoryPrefix out found :
  encodeRScript text map names mandatoryPrefix = Ok (out, found) →
  ∀ n, n ∈ found → n ∈ names.
Proof. intros [H _]%encodeRScript_foundInv n Hn. set_solver. Qed.

(** X5: when [encodeRScript] reports no name as found, it hands the text
    back as it was: every replacement is recorded. *)
Theorem encodeRScript_nothing_found text map names mandatoryPrefix out :
  encodeRScript text map names mandatoryPrefix = Ok (out, ∅) → out = text.
Proof. intros [_ H]%encodeRScript_foundInv. by apply H. Qed.

(** ** [encodeRScript]: texts it leaves alone *)

Lemma getPositions_quoted text name :
  name ≠ EmptyString →
  (∀ c, head (chars name) = Some c → is_quote c = false) →
  (∀ p, occurs_at (chars text) (chars name) p = true → insideQuotedRun text p = true) →
  getPositionsColumnNameMatches text name = [].
Proof.
  intros Hne Hq Hocc. unfold getPositionsColumnNameMatches.
  rewrite (getPositions_loop_spec text name [] (chars text) None) by done.
  apply elem_of_nil_inv. intros p [[Ho Hp] _]%list_elem_of_filter.
  apply Hocc in Ho. unfold insideQuotedRun in Ho.
  apply bool_decide_eq_true in Ho. simpl in Hp. by rewrite Nat.sub_0_r in Hp.
Qed.

Lemma encodeName_no_positions map mandatoryPrefix st n r :
  map !! n = Some r → getPositionsColumnNameMatches st.1 n = [] →
  encodeName map mandatoryPrefix st n = Ok st.
Proof. intros Hr Hp. unfold encodeName, map_at. by rewrite Hr, Hp. Qed.

(** X6: a text in which the listed names stand inside quoted runs only
    (or not at all) comes back unchanged, with no name found.  The names
    are keys of the map, non-empty, and do not begin with a quote. *)
Theorem encodeRScript_quoted_untouched text map names mandatoryPrefix :
  (∀ n, n ∈ names →
     n ≠ EmptyString ∧ is_Some (map !! n)
     ∧ (∀ c, head (chars n) = Some c → is_quote c = false)
     ∧ ∀ p, occurs_at (chars text) (chars n) p = true → insideQuotedRun text p = true) →
  encodeRScript text map names mandatoryPrefix = Ok (text, ∅).
Proof.
  unfold encodeRScript. induction names as [|n names IH]; intros Hn; [done|].
  destruct (Hn n) as (Hne & [r Hr] & Hq & Hocc); [by left|].
  cbn [foldl_result]. rewrite (encodeName_no_positions _ _ _ _ r) by
    (try done; by apply getPositions_quoted).
  cbn [mbind result_bind]. apply IH. intros ??. apply Hn. by right.
Qed.

Lemma testFreePrefix_absent text mandatoryPrefix pos :
  (∀ p, occurs_at (chars text) (chars mandatoryPrefix) p = false) →
  testFreePrefix text mandatoryPrefix pos = Ok false.
Proof.
  intros Habs. unfold testFreePrefix. case_decide; [done|].
  case_decide; [|done].
  destruct (substr _ _ _) as [s|e] eqn:Hs; cbn [mbind result_bind].
  - rewrite decide_False; [done|]. intros ->.
    apply substr_eq_Ok in Hs as [_ Hs].
    specialize (Habs (pos - size mandatoryPrefix)). unfold occurs_at in Habs.
    by apply bool_decide_eq_false in Habs.
  - by apply substr_throws in Hs as ->.
Qed.

Lemma encodeAt_prefix_absent oldCol newCol mandatoryPrefix text found foundPos :
  mandatoryPrefix ≠ EmptyString →
  (∀ p, occurs_at (chars text) (chars mandatoryPrefix) p = false) →
  encodeAt oldCol newCol mandatoryPrefix (text, found) foundPos = Ok (text, found).
Proof.
  intros Hne Habs. unfold encodeAt. rewrite testFreePrefix_absent by done.
  cbn [mbind result_bind]. by rewrite bool_decide_true.
Qed.

(** X7: with a mandatory prefix that occurs nowhere in the text, no
    occurrence qualifies: the text comes back unchanged and no name is
    found, provided every listed name is a key of the map. *)
Theorem encodeRScript_prefix_absent text map names mandatoryPrefix :
  mandatoryPrefix ≠ EmptyString →
  (∀ p, occurs_at (chars text) (chars mandatoryPrefix) p = false) →
  (∀ n, n ∈ names → is_Some (map !! n)) →
  encodeRScript text map names mandatoryPrefix = Ok (text, ∅).
Proof.
  intros Hne Habs. unfold encodeRScript.
  induction names as [|n names IH]; intros Hn; [done|].
  destruct (Hn n) as [r Hr]; [by left|].
  cbn [foldl_result].
  assert (encodeName map mandatoryPrefix (text, ∅) n = Ok (text, ∅)) as ->.
  { unfold encodeName, map_at. rewrite Hr. cbn [mbind result_bind fst].
    generalize (reverse (getPositionsColumnNameMatches text n)).
    induction l as [|p l IHl]; [done|]. cbn [foldl_result].
    by rewrite encodeAt_prefix_absent by done. }
  cbn [mbind result_bind]. apply IH. intros ??. apply Hn. by right.
Qed.

(** ** [encodeRScript] token by token *)

(** X8: with no mandatory prefix, when every listed name is a non-empty
    run of identifier characters mapped to one that is no listed name,
    [encodeRScript] does not throw and rewrites the text token by token:
    a maximal run of identifier characters that is a listed name, stands
    outside quoted runs and is not followed by a call parenthesis becomes
    its encoding, and everything else stays as it is. *)
Theorem encodeRScript_tokenwise text map names :
  (∀ n, n ∈ names →
     identifier n ∧ ∃ r, map !! n = Some r ∧ identifier r ∧ r ∉ names) →
  ∃ found,
    encodeRScript text map names EmptyString
    = Ok (of_chars (rewriteTokens (repAll map names) None false (chars text)), found).
Proof.
  intros Hnames.
  apply (encodeRScript_rewrite map names names (reflexivity _) Hnames text ∅).
Qed.

(** X9: under the same conditions encoding is idempotent: a script that
    [encodeRScript] has produced comes back unchanged from a second run. *)
Theorem encodeRScript_idempotent text map names out found :
  (∀ n, n ∈ names →
     identifier n ∧ ∃ r, map !! n = Some r ∧ identifier r ∧ r ∉ names) →
  encodeRScript text map names EmptyString = Ok (out, found) →
  ∃ found', encodeRScript out map names EmptyString = Ok (out, found').
Proof.
  intros Hnames Henc.
  destruct (encodeRScript_rewrite map names names (reflexivity _) Hnames text ∅)
    as [found1 Henc1].
  unfold encodeRScript in Henc. rewrite Henc1 in Henc. injection Henc as <- <-.
  destruct (encodeRScript_rewrite map names names (reflexivity _) Hnames
              (of_chars (rewriteTokens (repAll map names) None false (chars text))) ∅)
    as [found2 Henc2].
  exists found2. unfold encodeRScript. rewrite Henc2. do 3 f_equal.
  rewrite chars_of_chars. apply rewriteTokens_compose.
  - by eapply repAll_ident.
  - intros w. by destruct (repAll map names w).
  - intros w r. unfold repAll. case_decide as Hin; [|done].
    destruct (Hnames _ Hin) as (_ & r' & Hr' & _ & Hnot). rewrite Hr'. simpl.
    intros [= <-]. rewrite of_chars_chars. by rewrite decide_False.
Qed.

(** ** [replaceAll] on texts: what the search finds *)

Lemma find_here text str pos :
  pos ≤ size text → occurs_at (chars text) (chars str) pos = true →
  find text str pos = Some pos.
Proof.
  intros Hle Ho. unfold find.
  replace (S (size text) - pos) with (S (size text - pos)) by lia.
  cbn [seq]. rewrite filter_cons. by rewrite decide_True.
Qed.

Lemma find_None text str pos :
  (∀ p, pos ≤ p → occurs_at (chars text) (chars str) p = false) →
  find text str pos = None.
Proof.
  intros Habs. unfold find. apply head_None.
  apply elem_of_nil_inv. intros p [Ho Hp%elem_of_seq]%list_elem_of_filter.
  rewrite Habs in Ho; [done|lia].
Qed.

Lemma firstFound_nothing text names pos :
  (∀ n, n ∈ names → find text n pos = None) →
  firstFound text names pos = (None, EmptyString).
Proof.
  unfold firstFound. generalize EmptyString.
  induction names as [|n names IH]; intros rt Hn; [done|].
  cbn [foldl]. rewrite (Hn n) by by left. cbn [npos_lt].
  apply IH. intros ??. apply Hn. by right.
Qed.

Lemma replaceAll_unchanged fuel text map names :
  (∀ n p, n ∈ names → occurs_at (chars text) (chars n) p = false) →
  replaceAll (S fuel) text map names = Some (Ok text).
Proof.
  intros Habs. unfold replaceAll. cbn [replaceAll_loop]. unfold replaceAll_step.
  rewrite firstFound_nothing.
  - by destruct fuel.
  - intros n Hn. apply find_None. intros ??. by apply Habs.
Qed.

(** X10: when no listed name occurs in the text, [replaceAll] returns the
    text as it is after one round of searching, and never consults the map:
    a name without a key is harmless then. *)
Theorem replaceAll_no_occurrence fuel text map names :
  (∀ n p, n ∈ names → occurs_at (chars text) (chars n) p = false) →
  replaceAll (S fuel) text map names = Some (Ok text).
Proof. apply replaceAll_unchanged. Qed.

Lemma occurs_at_end text str :
  str ≠ EmptyString → occurs_at (chars text) (chars str) (size text) = false.
Proof.
  intros Hne. unfold occurs_at. apply bool_decide_eq_false.
  unfold size. rewrite drop_all, take_nil. intros H. apply Hne, chars_inj. by rewrite <-H.
Qed.

Lemma find_at_end text str : str ≠ EmptyString → find text str (size text) = None.
Proof.
  intros Hne. unfold find. rewrite Nat.sub_succ_l, Nat.sub_diag by done.
  cbn [seq]. rewrite filter_cons, decide_False; [done|].
  by rewrite occurs_at_end.
Qed.

Lemma occurs_at_self s : occurs_at (chars s) (chars s) 0 = true.
Proof. unfold occurs_at. apply bool_decide_eq_true. by rewrite drop_0, firstn_all. Qed.

Lemma firstFound_kept text names pos name :
  foldl (firstFound_body text pos) (Some pos, name) names = (Some pos, name)
  ∨ ∃ n p, n ∈ names ∧ find text n pos = Some p ∧ p < pos.
Proof.
  induction names as [|n names IH]; [by left|]. simpl.
  destruct (npos_lt (find text n pos) (Some pos)) eqn:Hlt.
  - right. destruct (find text n pos) as [p|] eqn:Hf; [|done].
    apply bool_decide_eq_true in Hlt. exists n, p. by split; [left|].
  - destruct IH as [IH|(n' & p & ? & ? & ?)]; [left; exact IH|].
    right. exists n', p. by split; [right|].
Qed.

Lemma firstFound_exact e names acc :
  StronglySorted bigger_first names → e ∈ names →
  acc = (Some 0, e) ∨ acc.1 ≠ Some 0 →
  foldl (firstFound_body e 0) acc names = (Some 0, e).
Proof.
  intros Hsorted. revert acc.
  induction Hsorted as [|n names Hsorted IH Hall]; intros acc Hin Hacc.
  { by apply elem_of_nil in Hin. }
  assert (∀ l, foldl (firstFound_body e 0) (Some 0, e) l = (Some 0, e)) as Hkept.
  { intros l. destruct (firstFound_kept e l 0 e) as [?|(? & ? & _ & _ & ?)]; [done|lia]. }
  simpl. destruct Hacc as [->|Hacc].
  { assert (npos_lt (find e n 0) (Some 0) = false) as ->; [|apply Hkept].
    destruct (find e n 0); [|done]. apply bool_decide_eq_false. lia. }
  destruct acc as [fp rt]. simpl in Hacc.
  destruct (find e n 0) as [p|] eqn:Hf.
  - destruct (decide (p = 0)) as [->|Hp].
    + assert (n = e) as ->.
      { apply find_Some in Hf as (_ & Hlen & Hocc).
        assert (size e ≤ size n) as Hge.
        { apply elem_of_cons in Hin as [->|Hin]; [done|].
          rewrite Forall_forall in Hall. by apply Hall. }
        apply chars_inj. rewrite <-Hocc, drop_0. rewrite take_ge; [done|].
        fold (size e). lia. }
      assert (npos_lt (Some 0) fp = true) as ->.
      { by destruct fp as [[|k]|]. }
      apply Hkept.
    + assert (n ≠ e) as Hne.
      { intros ->. rewrite find_here in Hf by (lia || apply occurs_at_self).
        by injection Hf as <-. }
      apply elem_of_cons in Hin as [->|Hin]; [done|].
      apply IH; [done|]. right. destruct (npos_lt (Some p) fp); simpl; [|done].
      by intros [= ->].
  - assert (n ≠ e) as Hne.
    { intros ->. by rewrite find_here in Hf by (lia || apply occurs_at_self). }
    apply elem_of_cons in Hin as [->|Hin]; [done|].
    apply IH; [done|]. by right.
Qed.

Lemma replaceAll_exact fuel e r map names :
  StronglySorted bigger_first names → (∀ n, n ∈ names → n ≠ EmptyString) →
  e ∈ names → map !! e = Some r →
  replaceAll (S (S fuel)) e map names = Some (Ok r).
Proof.
  intros Hsorted Hne Hin Hr. unfold replaceAll. cbn [replaceAll_loop].
  unfold replaceAll_step at 1. unfold firstFound.
  rewrite firstFound_exact by (try done; by right).
  unfold map_at. rewrite Hr. cbn [mbind result_bind].
  unfold replace. rewrite decide_True by lia. cbn [mbind result_bind].
  rewrite take_0, Nat.add_0_l. unfold size at 1. rewrite drop_all.
  cbn [app]. rewrite app_nil_r, of_chars_chars, Nat.add_0_l.
  unfold replaceAll_step. rewrite firstFound_nothing; [by destruct fuel|].
  intros n Hn. apply find_at_end. by apply Hne.
Qed.

(** X11: a text that is exactly one listed name is replaced as a whole by
    what the map holds for it, and the inserted text is not searched again.
    The names are non-empty and ordered longest first, as
    [sortVectorBigToSmall] leaves them, so no shorter name that begins the
    text is taken instead. *)
Theorem replaceAll_exact_name fuel e r map names :
  StronglySorted bigger_first names → (∀ n, n ∈ names → n ≠ EmptyString) →
  e ∈ names → map !! e = Some r →
  replaceAll (S (S fuel)) e map names = Some (Ok r).
Proof. apply replaceAll_exact. Qed.

(** ** [replaceAll] on a text that [encodeRScript] has rewritten *)

Lemma occurs_at_app_r pre l s p :
  occurs_at (pre ++ l) s (length pre + p) = occurs_at l s p.
Proof. unfold occurs_at. by rewrite drop_app_add'. Qed.

Lemma find_advance text str pos :
  occurs_at (chars text) (chars str) pos = false →
  find text str pos = find text str (S pos).
Proof.
  intros Ho. unfold find. destruct (decide (pos ≤ size text)) as [Hle|Hgt].
  - replace (S (size text) - pos) with (S (S (size text) - S pos)) by lia.
    cbn [seq]. rewrite filter_cons, decide_False; [done|]. by rewrite Ho.
  - replace (S (size text) - pos) with 0 by lia.
    by replace (S (size text) - S pos) with 0 by lia.
Qed.

Lemma firstFound_ext text names pos pos' :
  (∀ n, n ∈ names → find text n pos = find text n pos') →
  firstFound text names pos = firstFound text names pos'.
Proof.
  unfold firstFound. generalize (@None nat, EmptyString).
  induction names as [|n names IH]; intros acc Hn; [done|].
  simpl. destruct acc as [fp rt]. rewrite (Hn n) by by left.
  apply IH. intros ??. apply Hn. by right.
Qed.

Lemma firstFound_advance text names pos k :
  (∀ n p, n ∈ names → pos ≤ p < pos + k →
          occurs_at (chars text) (chars n) p = false) →
  firstFound text names pos = firstFound text names (pos + k).
Proof.
  induction k as [|k IH]; intros Hk; [by rewrite Nat.add_0_r|].
  rewrite IH by (intros ????; apply Hk; [done|lia]).
  rewrite Nat.add_succ_r. apply firstFound_ext. intros n Hn.
  apply find_advance, Hk; [done|lia].
Qed.

Lemma replaceAll_loop_advance fuel text map names pos pos' :
  firstFound text names pos = firstFound text names pos' →
  replaceAll_loop fuel text map names (Some pos)
  = replaceAll_loop fuel text map names (Some pos').
Proof. intros H. destruct fuel; [done|]. simpl. unfold replaceAll_step. by rewrite H. Qed.

Lemma firstFound_here text names pos name :
  pos ≤ size text → name ∈ names →
  occurs_at (chars text) (chars name) pos = true →
  (∀ n, n ∈ names → occurs_at (chars text) (chars n) pos = true → n = name) →
  firstFound text names pos = (Some pos, name).
Proof.
  intros Hle Hin Ho Huniq. unfold firstFound.
  assert (∀ l, (∀ n, n ∈ l → n ∈ names) →
            foldl (firstFound_body text pos) (Some pos, name) l = (Some pos, name))
    as Hkept.
  { intros l Hl. destruct (firstFound_kept text l pos name)
      as [?|(n & p & _ & Hf%find_Some & ?)]; [done|lia]. }
  cut (∀ acc, acc = (Some pos, name) ∨ (∀ p, acc.1 = Some p → pos < p) →
         ∀ l, (∀ n, n ∈ l → n ∈ names) →
         acc = (Some pos, name) ∨ name ∈ l →
         foldl (firstFound_body text pos) acc l = (Some pos, name)).
  { intros H. apply (H (None, EmptyString)); [by right|done|by right]. }
  intros acc Hacc l. revert acc Hacc.
  induction l as [|n l IH]; intros acc Hacc Hl Hin'.
  { destruct Hin' as [?|[]%elem_of_nil]. done. }
  destruct Hacc as [->|Hacc]; [by apply Hkept|].
  destruct Hin' as [->|Hin']; [by apply Hkept|].
  simpl. destruct acc as [fp rt]. simpl in Hacc.
  destruct (decide (occurs_at (chars text) (chars n) pos = true)) as [Hon|Hon].
  - assert (n = name) as -> by (apply Huniq; [apply Hl; by left|done]).
    rewrite find_here by done.
    assert (npos_lt (Some pos) fp = true) as ->.
    { destruct fp as [p|]; [|done]. apply bool_decide_eq_true. by apply Hacc. }
    apply Hkept. intros ??. apply Hl. by right.
  - assert (n ≠ name) by (by intros ->).
    apply elem_of_cons in Hin' as [?|Hin']; [done|].
    apply IH; [|intros ??; apply Hl; by right|by right].
    right. intros p. destruct (find text n pos) as [p'|] eqn:Hf.
    + apply find_Some in Hf as (Hp' & _ & Hocc).
      assert (p' ≠ pos).
      { intros ->. apply Hon. unfold occurs_at. by apply bool_decide_eq_true. }
      destruct (npos_lt (Some p') fp); simpl; [intros [= <-]; lia|apply Hacc].
    + simpl. apply Hacc.
Qed.

Lemma occurs_at_ident_run w l n p :
  identChars (chars n) → atBoundary l = true → p < length w →
  occurs_at (w ++ l) (chars n) p = true → occurs_at w (chars n) p = true.
Proof.
  intros Hn Hl Hp. unfold occurs_at. rewrite !bool_decide_eq_true. intros Ho.
  destruct (decide (p + size n ≤ length w)) as [Hle|Hgt].
  - rewrite drop_app_le in Ho by lia. rewrite take_app_le in Ho; [done|].
    rewrite length_drop. unfold size in *. lia.
  - exfalso. destruct l as [|c l].
    { apply (f_equal length) in Ho. rewrite app_nil_r, length_take, length_drop in Ho.
      unfold size in *. lia. }
    simpl in Hl. apply negb_true_iff in Hl.
    assert (take (size n) (drop p (w ++ c :: l)) !! (length w - p) = Some c) as Hc.
    { rewrite lookup_take_lt by (unfold size in *; lia).
      rewrite lookup_drop. replace (p + (length w - p)) with (length w) by lia.
      by rewrite lookup_app_r, Nat.sub_diag. }
    unfold size in Hc. rewrite Ho in Hc.
    rewrite Forall_lookup in Hn. specialize (Hn _ _ Hc). simpl in Hn. congruence.
Qed.

Lemma occurs_at_app_l w l s p :
  occurs_at w s p = true → p < length w → occurs_at (w ++ l) s p = true.
Proof.
  unfold occurs_at. rewrite !bool_decide_eq_true. intros Ho Hp.
  pose proof (f_equal length Ho) as Hlen. rewrite length_take, length_drop in Hlen.
  rewrite drop_app_le by lia. rewrite take_app_le; [done|].
  rewrite length_drop. lia.
Qed.

Lemma occurs_at_head_ident c l n :
  identifier n → nameChar c = false → occurs_at (c :: l) (chars n) 0 = false.
Proof.
  intros [Hne Hid] Hc. unfold occurs_at. apply bool_decide_eq_false. rewrite drop_0.
  destruct (chars n) as [|d n'] eqn:Hn.
  { destruct Hne. apply chars_inj. by rewrite Hn. }
  simpl. intros [= -> _]. inversion Hid. congruence.
Qed.

Section decodeRewritten.
Context (rep1 rep2 : list ascii → option (list ascii)).
Context (map : gmap string string) (names : list string).
Context (Hrep1 : repIdent rep1).
Context (Hnames : ∀ n, n ∈ names → identifier n).
Context (Hdec : ∀ w r, rep1 w = Some r →
                  of_chars r ∈ names
                  ∧ ∃ v, map !! of_chars r = Some v ∧ rep2 w = Some (chars v)).
Context (Hnone : ∀ w, rep1 w = None → rep2 w = None).
Context (Hprefix : ∀ w r n, rep1 w = Some r → n ∈ names →
                     take (size n) r = chars n → n = of_chars r).

(** The loop of [replaceAll], started behind the text [pre], turns the
    rewriting of [rest] under [rep1] into its rewriting under [rep2]. *)
Lemma replaceAll_rewritten rest :
  ∀ pre q fuel,
    (∀ n p, n ∈ names → occurs_at rest (chars n) p = false) →
    length rest < fuel →
    replaceAll_loop fuel (of_chars (pre ++ rewriteTokens rep1 q false rest)) map names
                    (Some (length pre))
    = Some (Ok (of_chars (pre ++ rewriteTokens rep2 q false rest))).
Proof.
  remember (length rest) as k eqn:Hk. revert rest Hk.
  induction (lt_wf k) as [k _ IH]. intros rest -> pre q fuel Hfree Hfuel.
  destruct rest as [|c l].
  { (* the end of the text *)
    simpl. destruct fuel as [|fuel]; [simpl in Hfuel; lia|].
    cbn [replaceAll_loop]. unfold replaceAll_step. rewrite firstFound_nothing.
    - by destruct fuel.
    - intros n Hn. replace (length pre) with (size (of_chars (pre ++ []))).
      + apply find_at_end. by destruct (Hnames n Hn).
      + unfold size. by rewrite chars_of_chars, app_nil_r. }
  destruct (nameChar c) eqn:Hc.
  - (* a token *)
    rewrite (rewriteTokens_token rep1), (rewriteTokens_token rep2) by done.
    set (w := identRun (c :: l)). set (X := afterRun (c :: l)).
    assert (length X < length (c :: l)) as HX.
    { pose proof (length_afterRun l). unfold X. simpl. rewrite Hc. simpl. lia. }
    assert (∀ n p, n ∈ names → occurs_at X (chars n) p = false) as HfreeX.
    { intros n p Hn. specialize (Hfree n (length w + p) Hn).
      rewrite <-(identRun_afterRun (c :: l)) in Hfree. fold w X in Hfree.
      by rewrite occurs_at_app_r in Hfree. }
    assert (atBoundary (rewriteTokens rep1 q false X) = true) as HY.
    { apply rewriteTokens_atBoundary, afterRun_atBoundary. }
    set (Y := rewriteTokens rep1 q false X) in *.
    unfold tokenOut. fold w X.
    destruct (bool_decide (q = None) && noCallParen X) eqn:Helig;
      [destruct (rep1 w) as [r|] eqn:Hr|].
    + (* replaced in the first pass: found here, and replaced back *)
      destruct (Hdec _ _ Hr) as (Hin & v & Hv & Hr2). rewrite Hr2. simpl.
      destruct fuel as [|fuel]; [simpl in Hfuel; lia|].
      cbn [replaceAll_loop]. unfold replaceAll_step.
      rewrite (firstFound_here _ _ _ (of_chars r)).
      * unfold map_at. rewrite Hv. cbn [mbind result_bind].
        rewrite (replace_split _ pre (r ++ Y)) by by rewrite chars_of_chars.
        cbn [mbind result_bind].
        replace (drop (size (of_chars r)) (r ++ Y)) with Y.
        2:{ unfold size. by rewrite chars_of_chars, drop_app_length. }
        replace (pre ++ chars v ++ Y) with ((pre ++ chars v) ++ Y) by by rewrite app_assoc.
        replace (length pre + size v) with (length (pre ++ chars v))
          by by rewrite length_app.
        unfold Y. rewrite (IH (length X)) by (done || simpl in *; lia).
        by rewrite <-app_assoc.
      * unfold size. rewrite chars_of_chars, length_app. lia.
      * done.
      * rewrite chars_of_chars.
        rewrite <-(Nat.add_0_r (length pre)), occurs_at_app_r.
        unfold occurs_at. apply bool_decide_eq_true.
        by rewrite !chars_of_chars, drop_0, take_app_length.
      * intros n Hn. rewrite chars_of_chars.
        rewrite <-(Nat.add_0_r (length pre)), occurs_at_app_r.
        intros Ho. apply (Hprefix w r n Hr Hn).
        destruct (Hrep1 _ _ Hr) as [Hrne Hrid].
        apply (occurs_at_ident_run r Y n 0) in Ho;
          [|by apply Hnames|done|destruct r; [done|simpl; lia]].
        unfold occurs_at in Ho. apply bool_decide_eq_true in Ho.
        by rewrite drop_0 in Ho.
    + (* a token without replacement: nothing is found inside it *)
      rewrite (Hnone _ Hr). simpl.
      erewrite replaceAll_loop_advance.
      2:{ apply (firstFound_advance _ _ _ (length w)).
          intros n p Hn Hp. rewrite chars_of_chars.
          replace p with (length pre + (p - length pre)) by lia.
          rewrite occurs_at_app_r.
          destruct (occurs_at (w ++ Y) (chars n) (p - length pre)) eqn:Ho; [|done].
          apply occurs_at_ident_run in Ho; [|by apply Hnames|done|lia].
          apply (occurs_at_app_l _ X) in Ho; [|lia]. fold w X in Ho.
          unfold w, X in Ho. rewrite identRun_afterRun in Ho.
          by rewrite Hfree in Ho. }
      replace (pre ++ w ++ Y) with ((pre ++ w) ++ Y) by by rewrite app_assoc.
      rewrite <-length_app.
      unfold Y. rewrite (IH (length X)) by (done || simpl in *; lia).
      by rewrite <-app_assoc.
    + (* a token inside a quoted run or before a call parenthesis *)
      erewrite replaceAll_loop_advance.
      2:{ apply (firstFound_advance _ _ _ (length w)).
          intros n p Hn Hp. rewrite chars_of_chars.
          replace p with (length pre + (p - length pre)) by lia.
          rewrite occurs_at_app_r.
          destruct (occurs_at (w ++ Y) (chars n) (p - length pre)) eqn:Ho; [|done].
          apply occurs_at_ident_run in Ho; [|by apply Hnames|done|lia].
          apply (occurs_at_app_l _ X) in Ho; [|lia]. fold w X in Ho.
          unfold w, X in Ho. rewrite identRun_afterRun in Ho.
          by rewrite Hfree in Ho. }
      replace (pre ++ w ++ Y) with ((pre ++ w) ++ Y) by by rewrite app_assoc.
      rewrite <-length_app.
      unfold Y. rewrite (IH (length X)) by (done || simpl in *; lia).
      by rewrite <-app_assoc.
  - (* a character between tokens *)
    cbn [rewriteTokens]. rewrite Hc.
    erewrite replaceAll_loop_advance.
    2:{ apply (firstFound_advance _ _ _ 1). intros n p Hn Hp.
        assert (p = length pre + 0) as -> by lia.
        rewrite chars_of_chars, occurs_at_app_r.
        apply occurs_at_head_ident; [by apply Hnames|done]. }
    replace (pre ++ c :: rewriteTokens rep1 (quoteToggle q c) false l)
      with ((pre ++ [c]) ++ rewriteTokens rep1 (quoteToggle q c) false l)
      by by rewrite <-app_assoc.
    replace (length pre + 1) with (length (pre ++ [c])) by (rewrite length_app; simpl; lia).
    rewrite (IH (length l)); [by rewrite <-app_assoc|simpl; lia|done| |simpl in *; lia].
    intros n p Hn. specialize (Hfree n (S p) Hn). done.
Qed.
End decodeRewritten.

(** ** The tables [setCurrentNames] builds *)

Section encodingSound.
Context (prefix postfix : string) (m : gmap string columnType).

Lemma encodingSound_unknown n st :
  affixes prefix postfix st → (st.1 + 1 < 2 ^ 64)%N → m !! n = Some unknown →
  encodingSound prefix postfix m st →
  encodingSound prefix postfix m (registerUnknown n st).
Proof.
  destruct st as [c e]. intros [Hp Hs] Hc Hn Hinv q id. simpl in *.
  rewrite size_t_succ_small by done.
  fold (encodedName (_encodePrefix e) (_encodePostfix e) c). rewrite Hp, Hs.
  destruct (decide (q = n)) as [->|Hq].
  - rewrite lookup_insert_eq. intros [= <-]. exists c, n, unknown.
    rewrite lookup_insert_eq. repeat split; [lia|done|]. left. by split; [|left].
  - rewrite lookup_insert_ne by done. intros Hl.
    destruct (Hinv q id Hl) as (cid & n' & t & -> & Hlt & Hm & Hd & Hcase).
    exists cid, n', t. simpl in *.
    rewrite lookup_insert_ne by (intros ?%encodedName_inj; lia).
    repeat split; [lia|done..].
Qed.

Lemma encodingSound_qualified n d st ct :
  affixes prefix postfix st → (st.1 + 1 < 2 ^ 64)%N →
  m !! n = Some d → d ≠ unknown → ct ∈ [scale; ordinal; nominal] →
  encodingSound prefix postfix m st →
  encodingSound prefix postfix m (registerQualified n d st ct).
Proof.
  destruct st as [c e]. intros [Hp Hs] Hc Hn Hd Hct Hinv q id. simpl in *.
  rewrite size_t_succ_small by done.
  fold (encodedName (_encodePrefix e) (_encodePostfix e) c). rewrite Hp, Hs.
  fold (qualified n ct).
  assert (_encodingMap e !! q = Some id →
    ∃ cid n0 t, id = encodedName prefix postfix cid ∧ (cid < c + 1)%N
      ∧ m !! n0 = Some t
      ∧ <[encodedName prefix postfix c := n]> (_decodingMap e) !! id = Some n0
      ∧ ((q = n0 ∧ (t = unknown
                    ∨ <[encodedName prefix postfix c := ct]> (_decodingTypes e) !! id
                      = Some t))
         ∨ (t ≠ unknown ∧ ∃ ct0, ct0 ∈ [scale; ordinal; nominal] ∧ q = qualified n0 ct0
              ∧ <[encodedName prefix postfix c := ct]> (_decodingTypes e) !! id
                = Some ct0))) as Hold.
  { intros Hl. destruct (Hinv q id Hl) as (cid & n' & t & -> & Hlt & Hm & Hdec & Hcase).
    exists cid, n', t. simpl in *.
    rewrite !lookup_insert_ne by (intros ?%encodedName_inj; lia).
    repeat split; [lia|done..]. }
  assert (∃ cid n0 t, encodedName prefix postfix c = encodedName prefix postfix cid
      ∧ (cid < c + 1)%N ∧ m !! n0 = Some t
      ∧ <[encodedName prefix postfix c := n]> (_decodingMap e)
          !! encodedName prefix postfix c = Some n0
      ∧ ((qualified n ct = n0 ∧ (t = unknown
            ∨ <[encodedName prefix postfix c := ct]> (_decodingTypes e)
                !! encodedName prefix postfix c = Some t))
         ∨ (t ≠ unknown ∧ ∃ ct0, ct0 ∈ [scale; ordinal; nominal]
              ∧ qualified n ct = qualified n0 ct0
              ∧ <[encodedName prefix postfix c := ct]> (_decodingTypes e)
                  !! encodedName prefix postfix c = Some ct0))) as Hqual.
  { exists c, n, d. rewrite !lookup_insert_eq. repeat split; [lia|done|].
    right. split; [done|]. by exists ct. }
  case_decide as Hdecl; simpl.
  - destruct (decide (q = n)) as [->|Hq].
    + rewrite lookup_insert_eq. intros [= <-]. exists c, n, d.
      rewrite !lookup_insert_eq. repeat split; [lia|done|].
      left. split; [done|]. right. by rewrite Hdecl.
    + rewrite lookup_insert_ne by done.
      destruct (decide (q = qualified n ct)) as [->|Hq'].
      * rewrite lookup_insert_eq. by intros [= <-].
      * by rewrite lookup_insert_ne.
  - destruct (decide (q = qualified n ct)) as [->|Hq'].
    + rewrite lookup_insert_eq. by intros [= <-].
    + by rewrite lookup_insert_ne.
Qed.

Lemma encodingSound_registerName st nt :
  affixes prefix postfix st → (st.1 + 3 < 2 ^ 64)%N → m !! nt.1 = Some nt.2 →
  encodingSound prefix postfix m st →
  encodingSound prefix postfix m (registerName st nt).
Proof.
  intros Ha Hc Hnt Hinv. unfold registerName. case_decide as Hu.
  - apply encodingSound_unknown; [done|solve_counter|by rewrite <-Hu|by destruct st].
  - cbn [foldl].
    apply encodingSound_qualified;
      [by repeat apply affixes_qualified|solve_counter|done|done|set_solver|].
    apply encodingSound_qualified;
      [by repeat apply affixes_qualified|solve_counter|done|done|set_solver|].
    apply encodingSound_qualified; [done|solve_counter|done|done|set_solver|].
    by destruct st.
Qed.

Lemma encodingSound_foldl l st :
  affixes prefix postfix st → (st.1 + 3 * N.of_nat (length l) < 2 ^ 64)%N →
  (∀ nt, nt ∈ l → m !! nt.1 = Some nt.2) →
  encodingSound prefix postfix m st →
  encodingSound prefix postfix m (foldl registerName st l).
Proof.
  revert st. induction l as [|nt l IH]; intros st Ha Hc Hl Hinv; [done|].
  cbn [foldl]. cbn [length] in Hc.
  assert (st.1 + 3 < 2 ^ 64)%N by lia.
  apply IH.
  - by apply affixes_registerName.
  - pose proof (counter_registerName st nt). lia.
  - intros ??. apply Hl. by right.
  - apply encodingSound_registerName; [done..| |done]. apply Hl. by left.
Qed.
End encodingSound.

Lemma setCurrentNames_members_decodes (m : gmap string columnType) e q id :
  (3 * N.of_nat (base.size m) < 2 ^ 64)%N →
  let e' := setCurrentNames_members m e in
  _encodingMap e' !! q = Some id →
  ∃ cid n t,
    id = encodedName (_encodePrefix e) (_encodePostfix e) cid
    ∧ m !! n = Some t ∧ _decodingMap e' !! id = Some n
    ∧ ((q = n ∧ (t = unknown ∨ _decodingTypes e' !! id = Some t))
       ∨ (t ≠ unknown ∧ ∃ ct, ct ∈ [scale; ordinal; nominal]
            ∧ q = qualified n ct ∧ _decodingTypes e' !! id = Some ct)).
Proof.
  intros Hsz. unfold setCurrentNames_members. cbn zeta. simpl.
  set (cleared := mkColumnEncoder _ _ _ _ _ _ _ _).
  intros Hl.
  destruct (encodingSound_foldl (_encodePrefix e) (_encodePostfix e) m
              (std_map_items m) (0%N, cleared)) with (q := q) (id := id)
    as (cid & n & t & ? & _ & ? & ? & ?); [done|..|done|].
  - rewrite length_std_map_items. simpl. lia.
  - intros [??] ?. by apply elem_of_std_map_items.
  - intros ???. done.
  - by exists cid, n, t.
Qed.

(** *** The keys of the encoding map *)

Lemma registerUnknown_keys n st q :
  is_Some (_encodingMap (registerUnknown n st).2 !! q)
  ↔ q = n ∨ is_Some (_encodingMap st.2 !! q).
Proof.
  destruct st as [c e]. simpl. rewrite lookup_insert_is_Some. 
  destruct (decide (n = q)); naive_solver.
Qed.

Lemma registerQualified_keys n d st ct q :
  is_Some (_encodingMap (registerQualified n d st ct).2 !! q)
  ↔ q = qualified n ct ∨ (ct = d ∧ q = n) ∨ is_Some (_encodingMap st.2 !! q).
Proof.
  destruct st as [c e]. simpl. fold (qualified n ct).
  case_decide; rewrite ?lookup_insert_is_Some;
    destruct (decide (n = q)), (decide (qualified n ct = q)); naive_solver.
Qed.

Lemma registerName_keys st nt q :
  is_Some (_encodingMap (registerName st nt).2 !! q)
  ↔ keyOf [nt] q ∨ is_Some (_encodingMap st.2 !! q).
Proof.
  destruct nt as [n t]. unfold registerName, keyOf. cbn [fst snd].
  setoid_rewrite list_elem_of_singleton.
  case_decide as Hu.
  - rewrite registerUnknown_keys. cbn [fst snd]. subst t.
    assert (_encodingMap (pushOriginalName n st.2) = _encodingMap st.2) as -> by done.
    split.
    + intros [->|?]; [left|by right]. exists n, unknown. split; [done|]. by left.
    + intros [(n' & t' & [= -> ->] & [[-> _]|[? _]])|?]; [by left|done|by right].
  - cbn [foldl]. rewrite !registerQualified_keys. cbn [fst snd].
    assert (_encodingMap (pushOriginalName n st.2) = _encodingMap st.2) as -> by done.
    split.
    + intros [->|[[<- ->]|[->|[[<- ->]|[->|[[<- ->]|?]]]]]]; try (by right); left;
        exists n; eexists; (split; [done|]);
        first [ by left | right; split; [done|]; eexists; split; [|done]; set_solver ].
    + intros [(n' & t' & [= -> ->] & [[-> Hnt]|[_ (ct & Hct & ->)]])|?].
      * destruct t; try done; naive_solver.
      * set_solver.
      * naive_solver.
Qed.

Lemma foldl_registerName_keys l st q :
  is_Some (_encodingMap (foldl registerName st l).2 !! q)
  ↔ keyOf l q ∨ is_Some (_encodingMap st.2 !! q).
Proof.
  revert st. induction l as [|nt l IH]; intros st.
  { simpl. unfold keyOf. set_solver. }
  cbn [foldl]. rewrite IH, registerName_keys. unfold keyOf.
  setoid_rewrite elem_of_cons. setoid_rewrite elem_of_nil. naive_solver.
Qed.

(** X12: after [setCurrentNames], [shouldEncode] holds exactly of the
    bare names of the input, except those of type nominalText, and of the
    three qualified spellings of every name that has a type. *)
Theorem setCurrentNames_encodingMap_keys (m : gmap string columnType) e q :
  shouldEncode (setCurrentNames_members m e) q = true
  ↔ (∃ t, m !! q = Some t ∧ t ≠ nominalText)
    ∨ (∃ n t ct, m !! n = Some t ∧ t ≠ unknown
         ∧ ct ∈ [scale; ordinal; nominal] ∧ q = qualified n ct).
Proof.
  unfold shouldEncode. rewrite bool_decide_eq_true.
  unfold setCurrentNames_members. cbn zeta. simpl.
  rewrite foldl_registerName_keys. simpl. rewrite lookup_empty. unfold keyOf.
  setoid_rewrite elem_of_std_map_items.
  split.
  - intros [(n & t & Hm & [[-> ?]|[? (ct & ? & ->)]])|[? [=]]]; [left|right]; eauto 10.
  - intros [(t & ? & ?)|(n & t & ct & ? & ? & ? & ->)]; left.
    + exists q, t. split; [done|]. by left.
    + exists n, t. split; [done|]. right. eauto.
Qed.

(** *** [std::sort]: the result holds the elements of the input, ordered *)

Lemma insert_head_Permutation {A} (l : list A) j x y :
  l !! j = Some y → y :: <[j := x]> l ≡ₚ x :: l.
Proof.
  revert j. induction l as [|a l IH]; intros [|j] Hj; simplify_eq/=.
  - apply Permutation_swap.
  - rewrite Permutation_swap, (IH j Hj). apply Permutation_swap.
Qed.

Lemma iter_swap_Permutation {A} i j (l : list A) : iter_swap i j l ≡ₚ l.
Proof.
  unfold iter_swap.
  destruct (l !! i) as [x|] eqn:Hi; [|done]. destruct (l !! j) as [y|] eqn:Hj; [|done].
  revert i j Hi Hj. induction l as [|a l IH]; intros [|i] [|j] Hi Hj; simplify_eq/=.
  - done.
  - by apply insert_head_Permutation.
  - by apply insert_head_Permutation.
  - by rewrite (IH i j).
Qed.

Lemma linear_insert_Permutation {A} comp (val : A) before :
  linear_insert comp val before ≡ₚ val :: before.
Proof.
  induction before as [|next rest IH]; [done|]. simpl.
  destruct (comp val next); [|done]. rewrite IH. apply Permutation_swap.
Qed.

Lemma unguarded_linear_insert_Permutation {A} comp (sorted : list A) val :
  unguarded_linear_insert comp sorted val ≡ₚ val :: sorted.
Proof.
  unfold unguarded_linear_insert.
  by rewrite reverse_Permutation, linear_insert_Permutation, reverse_Permutation.
Qed.

Lemma insertion_step_Permutation {A} comp (sorted : list A) val :
  insertion_step comp sorted val ≡ₚ val :: sorted.
Proof.
  destruct sorted as [|first rest]; [done|]. simpl.
  destruct (comp val first); [done|]. apply unguarded_linear_insert_Permutation.
Qed.

Lemma foldl_insert_Permutation {A} (step : list A → A → list A) l sorted :
  (∀ sorted val, step sorted val ≡ₚ val :: sorted) →
  foldl step sorted l ≡ₚ l ++ sorted.
Proof.
  intros Hstep. revert sorted. induction l as [|x l IH]; intros sorted; [done|].
  cbn [foldl]. rewrite IH, Hstep. simpl. symmetry. apply Permutation_middle.
Qed.

Lemma final_insertion_sort_Permutation {A} comp (l : list A) :
  final_insertion_sort comp l ≡ₚ l.
Proof.
  unfold final_insertion_sort, insertion_sort. case_decide.
  - rewrite (foldl_insert_Permutation _ _ _ (unguarded_linear_insert_Permutation comp)).
    rewrite (foldl_insert_Permutation _ _ _ (insertion_step_Permutation comp)).
    rewrite app_nil_r, (comm (++)). by rewrite take_drop.
  - rewrite (foldl_insert_Permutation _ _ _ (insertion_step_Permutation comp)).
    by rewrite app_nil_r.
Qed.

Lemma move_median_to_first_Permutation {A} comp result a b c (l : list A) :
  move_median_to_first comp result a b c l ≡ₚ l.
Proof.
  unfold move_median_to_first.
  repeat case_match; try done; apply iter_swap_Permutation.
Qed.

Lemma unguarded_partition_Permutation {A} fuel comp (pivot : A) first last l :
  (unguarded_partition fuel comp pivot first last l).2 ≡ₚ l.
Proof.
  revert first last l. induction fuel as [|fuel IH]; intros first last l; [done|].
  cbn [unguarded_partition]. cbv zeta. case_decide; [|done].
  rewrite IH. apply iter_swap_Permutation.
Qed.

Lemma unguarded_partition_pivot_Permutation {A} comp (l : list A) :
  (unguarded_partition_pivot comp l).2 ≡ₚ l.
Proof.
  unfold unguarded_partition_pivot. cbv zeta.
  pose proof (move_median_to_first_Permutation comp 0 1 (length l / 2) (length l - 1) l)
    as Hm.
  destruct (move_median_to_first _ _ _ _ _ l) as [|pivot l'] eqn:Hl; [done|].
  by rewrite unguarded_partition_Permutation.
Qed.

Lemma push_heap_Permutation {A} fuel comp holeIndex topIndex (l : list A) :
  push_heap fuel comp holeIndex topIndex l ≡ₚ l.
Proof.
  revert holeIndex l. induction fuel as [|fuel IH]; intros holeIndex l; [done|].
  cbn [push_heap]. cbv zeta. repeat case_match; try done.
  rewrite IH. apply iter_swap_Permutation.
Qed.

Lemma adjust_heap_down_Permutation {A} fuel comp holeIndex len (l : list A) :
  (adjust_heap_down fuel comp holeIndex len l).2 ≡ₚ l.
Proof.
  revert holeIndex l. induction fuel as [|fuel IH]; intros holeIndex l; [done|].
  cbn [adjust_heap_down]. cbv zeta. case_decide; [|done].
  rewrite IH. apply iter_swap_Permutation.
Qed.

Lemma adjust_heap_Permutation {A} comp holeIndex len (l : list A) :
  adjust_heap comp holeIndex len l ≡ₚ l.
Proof.
  unfold adjust_heap. cbv zeta.
  pose proof (adjust_heap_down_Permutation len comp holeIndex len l) as Hd.
  destruct (adjust_heap_down _ _ _ _ l) as [hole l1]. simpl in Hd.
  destruct (_ && _).
  - by rewrite push_heap_Permutation, iter_swap_Permutation.
  - by rewrite push_heap_Permutation.
Qed.

Lemma foldl_Permutation {A B} (step : list A → B → list A) (bs : list B) l :
  (∀ l b, step l b ≡ₚ l) → foldl step l bs ≡ₚ l.
Proof.
  intros Hstep. revert l. induction bs as [|b bs IH]; intros l; [done|].
  cbn [foldl]. by rewrite IH.
Qed.

Lemma make_heap_Permutation {A} comp (l : list A) : make_heap comp l ≡ₚ l.
Proof.
  unfold make_heap. cbv zeta. case_decide; [done|].
  apply foldl_Permutation. intros. apply adjust_heap_Permutation.
Qed.

Lemma sort_heap_Permutation {A} comp (l : list A) : sort_heap comp l ≡ₚ l.
Proof.
  unfold sort_heap, pop_heap. apply foldl_Permutation. intros.
  by rewrite adjust_heap_Permutation, iter_swap_Permutation.
Qed.

Lemma introsort_loop_Permutation {A} comp depth_limit (l : list A) :
  introsort_loop comp depth_limit l ≡ₚ l.
Proof.
  revert l. induction depth_limit as [|depth_limit IH]; intros l; simpl.
  - case_decide; [|done]. by rewrite sort_heap_Permutation, make_heap_Permutation.
  - case_decide; [|done].
    pose proof (unguarded_partition_pivot_Permutation comp l) as Hp.
    destruct (unguarded_partition_pivot comp l) as [cut l']. simpl in Hp.
    by rewrite !IH, take_drop.
Qed.

Lemma std_sort_Permutation {A} comp (l : list A) : std_sort comp l ≡ₚ l.
Proof.
  unfold std_sort. by rewrite final_insertion_sort_Permutation, introsort_loop_Permutation.
Qed.

Section std_sort_sorted.
Context {A} (R : relation A) (comp : A → A → bool).
Context (HR : ∀ a b, R a b ↔ comp b a = false) `{!Total R, !Transitive R}.

Lemma linear_insert_sorted val before :
  StronglySorted (flip R) before → StronglySorted (flip R) (linear_insert comp val before).
Proof.
  induction 1 as [|next rest Hs IH Hall]; simpl; [repeat constructor|].
  destruct (comp val next) eqn:Hc.
  - constructor; [done|]. rewrite linear_insert_Permutation. constructor; [|done].
    unfold flip. destruct (total R next val) as [Hvp|?]; [|done].
    apply HR in Hvp. congruence.
  - constructor; [by constructor|]. constructor; [by apply HR|].
    eapply Forall_impl; [exact Hall|]. unfold flip. intros y Hy.
    trans next; [done|]. by apply HR.
Qed.

Lemma StronglySorted_reverse (S : relation A) (l : list A) :
  StronglySorted (flip S) l → StronglySorted S (reverse l).
Proof.
  induction 1 as [|x l Hs IH Hall]; [constructor|].
  rewrite reverse_cons. apply StronglySorted_app_2; [|done|repeat constructor].
  intros y z Hy ->%list_elem_of_singleton.
  rewrite Forall_forall in Hall. by apply Hall, elem_of_reverse.
Qed.

Lemma unguarded_linear_insert_sorted sorted val :
  StronglySorted R sorted → StronglySorted R (unguarded_linear_insert comp sorted val).
Proof.
  intros Hs. unfold unguarded_linear_insert.
  apply StronglySorted_reverse, linear_insert_sorted.
  apply (StronglySorted_reverse (flip R)). exact Hs.
Qed.

Lemma insertion_step_sorted sorted val :
  StronglySorted R sorted → StronglySorted R (insertion_step comp sorted val).
Proof.
  intros Hs. destruct sorted as [|first rest]; simpl; [repeat constructor|].
  destruct (comp val first) eqn:Hc; [|by apply unguarded_linear_insert_sorted].
  constructor; [done|].
  assert (R val first) as Hvf.
  { destruct (total R val first) as [?|Hfv]; [done|]. apply HR in Hfv. congruence. }
  constructor; [done|]. inversion_clear Hs as [|?? _ Hall].
  eapply Forall_impl; [exact Hall|]. intros y Hy. by trans first.
Qed.

Lemma foldl_sorted (step : list A → A → list A) l sorted :
  (∀ sorted val, StronglySorted R sorted → StronglySorted R (step sorted val)) →
  StronglySorted R sorted → StronglySorted R (foldl step sorted l).
Proof.
  intros Hstep. revert sorted. induction l as [|x l IH]; intros sorted Hs; [done|].
  cbn [foldl]. by apply IH, Hstep.
Qed.

Lemma std_sort_sorted l : StronglySorted R (std_sort comp l).
Proof.
  unfold std_sort, final_insertion_sort, insertion_sort. case_decide.
  - apply foldl_sorted; [apply unguarded_linear_insert_sorted|].
    apply foldl_sorted; [apply insertion_step_sorted|constructor].
  - apply foldl_sorted; [apply insertion_step_sorted|constructor].
Qed.
End std_sort_sorted.

(** The bounds on the rounds of the three loops: with more rounds allowed
    the loops return the same. *)
Lemma unguarded_partition_fuel {A} fuel1 fuel2 comp (pivot : A) first last l :
  last - first < fuel1 → last - first < fuel2 →
  unguarded_partition fuel1 comp pivot first last l
  = unguarded_partition fuel2 comp pivot first last l.
Proof.
  revert fuel2 first last l.
  induction fuel1 as [|fuel1 IH]; intros [|fuel2] first last l H1 H2; [lia..|].
  cbn [unguarded_partition]. cbv zeta.
  set (up := run_length _ (drop first l)).
  set (down := run_length _ (reverse _)).
  case_decide as Hlt; [|done]. apply IH; lia.
Qed.

Lemma push_heap_fuel {A} fuel1 fuel2 comp holeIndex topIndex (l : list A) :
  holeIndex < fuel1 → holeIndex < fuel2 →
  push_heap fuel1 comp holeIndex topIndex l = push_heap fuel2 comp holeIndex topIndex l.
Proof.
  revert fuel2 holeIndex l.
  induction fuel1 as [|fuel1 IH]; intros [|fuel2] holeIndex l H1 H2; [lia..|].
  cbn [push_heap]. cbv zeta.
  assert (0 < holeIndex → (holeIndex - 1) / 2 < holeIndex) as Hparent.
  { intros. apply Nat.Div0.div_lt_upper_bound. lia. }
  set (parent := (holeIndex - 1) / 2) in *.
  destruct (l !! parent) as [p|]; [|done]. destruct (l !! holeIndex) as [value|]; [|done].
  destruct (bool_decide (topIndex < holeIndex)) eqn:Hlt; [|done].
  apply bool_decide_eq_true in Hlt. destruct (comp p value); [|done]. cbn [andb].
  apply IH; lia.
Qed.

Lemma adjust_heap_down_fuel {A} fuel1 fuel2 comp holeIndex len (l : list A) :
  len ≤ fuel1 + holeIndex → len ≤ fuel2 + holeIndex →
  adjust_heap_down fuel1 comp holeIndex len l = adjust_heap_down fuel2 comp holeIndex len l.
Proof.
  revert fuel2 holeIndex l.
  induction fuel1 as [|fuel1 IH]; intros [|fuel2] holeIndex l H1 H2;
    cbn [adjust_heap_down]; cbv zeta.
  - done.
  - rewrite decide_False; [done|].
    pose proof (Nat.Div0.div_le_upper_bound (len - 1) 2 len). lia.
  - rewrite decide_False; [done|].
    pose proof (Nat.Div0.div_le_upper_bound (len - 1) 2 len). lia.
  - case_decide; [|done]. apply IH; repeat case_match; lia.
Qed.

(** *** The name lists *)

Global Instance bigger_first_total : Total bigger_first.
Proof. intros a b. unfold bigger_first. lia. Qed.
Global Instance bigger_first_trans : Transitive bigger_first.
Proof. intros a b c. unfold bigger_first. lia. Qed.

Lemma sortVectorBigToSmall_sorted vec : StronglySorted bigger_first (sortVectorBigToSmall vec).
Proof.
  apply std_sort_sorted; [|apply _..].
  intros a b. unfold bigger_first. rewrite bool_decide_eq_false. lia.
Qed.

Lemma elem_of_sortVectorBigToSmall vec x : x ∈ sortVectorBigToSmall vec ↔ x ∈ vec.
Proof. unfold sortVectorBigToSmall. by rewrite std_sort_Permutation. Qed.

Section generatedFrom.
Context (prefix postfix : string) (c0 : N) (e0 : ColumnEncoder).

Lemma generatedFrom_next st (c : N) names dec :
  generatedFrom prefix postfix c0 e0 st → c = st.1 → (c + 1 < 2 ^ 64)%N →
  names = _encodedNames st.2 ++ [encodedName prefix postfix c] →
  (∀ id, is_Some (dec !! id)
         ↔ id = encodedName prefix postfix c ∨ is_Some (_decodingMap st.2 !! id)) →
  ∀ e', _encodedNames e' = names → _decodingMap e' = dec →
  generatedFrom prefix postfix c0 e0 (size_t_succ c, e').
Proof.
  intros (Hle & Hn & Hd) -> Hc -> Hdec e' Hn' Hd'. unfold generatedFrom. simpl.
  rewrite size_t_succ_small by done. rewrite Hn', Hd'. split; [lia|]. split.
  - rewrite Hn, <-app_assoc. f_equal.
    replace (N.to_nat (st.1 + 1 - c0)) with (N.to_nat (st.1 - c0) + 1) by lia.
    rewrite seq_app, fmap_app. f_equal. simpl. do 2 f_equal. lia.
  - intros id. rewrite Hdec, Hd.
    rewrite drop_app_le by (rewrite Hn, length_app; lia).
    rewrite elem_of_app, list_elem_of_singleton. naive_solver.
Qed.

Lemma generatedFrom_push n st :
  generatedFrom prefix postfix c0 e0 st →
  generatedFrom prefix postfix c0 e0 (st.1, pushOriginalName n st.2).
Proof. done. Qed.

Lemma generatedFrom_unknown n st :
  affixes prefix postfix st → (st.1 + 1 < 2 ^ 64)%N →
  generatedFrom prefix postfix c0 e0 st →
  generatedFrom prefix postfix c0 e0 (registerUnknown n st).
Proof.
  destruct st as [c e]. intros [Hp Hs] Hc Hg. simpl in *.
  fold (encodedName (_encodePrefix e) (_encodePostfix e) c). rewrite Hp, Hs.
  apply (generatedFrom_next (c, e) c
           (_encodedNames e ++ [encodedName prefix postfix c])
           (<[encodedName prefix postfix c := n]> (_decodingMap e))); try done.
  intros id. rewrite lookup_insert_is_Some. simpl.
  destruct (decide (encodedName prefix postfix c = id)); naive_solver.
Qed.

Lemma generatedFrom_qualified n d st ct :
  affixes prefix postfix st → (st.1 + 1 < 2 ^ 64)%N →
  generatedFrom prefix postfix c0 e0 st →
  generatedFrom prefix postfix c0 e0 (registerQualified n d st ct).
Proof.
  destruct st as [c e]. intros [Hp Hs] Hc Hg. simpl in *.
  fold (encodedName (_encodePrefix e) (_encodePostfix e) c). rewrite Hp, Hs.
  apply (generatedFrom_next (c, e) c
           (_encodedNames e ++ [encodedName prefix postfix c])
           (<[encodedName prefix postfix c := n]> (_decodingMap e))); try done.
  intros id. rewrite lookup_insert_is_Some. simpl.
  destruct (decide (encodedName prefix postfix c = id)); naive_solver.
Qed.

Lemma generatedFrom_registerName st nt :
  affixes prefix postfix st → (st.1 + 3 < 2 ^ 64)%N →
  generatedFrom prefix postfix c0 e0 st →
  generatedFrom prefix postfix c0 e0 (registerName st nt).
Proof.
  intros Ha Hc Hg. unfold registerName. case_decide.
  - apply generatedFrom_unknown; [done|solve_counter|by destruct st].
  - cbn [foldl].
    apply generatedFrom_qualified; [by repeat apply affixes_qualified|solve_counter|].
    apply generatedFrom_qualified; [by repeat apply affixes_qualified|solve_counter|].
    apply generatedFrom_qualified; [done|solve_counter|]. by destruct st.
Qed.

Lemma generatedFrom_foldl l st :
  affixes prefix postfix st → (st.1 + 3 * N.of_nat (length l) < 2 ^ 64)%N →
  generatedFrom prefix postfix c0 e0 st →
  generatedFrom prefix postfix c0 e0 (foldl registerName st l).
Proof.
  revert st. induction l as [|nt l IH]; intros st Ha Hc Hg; [done|].
  cbn [foldl]. cbn [length] in Hc.
  assert (st.1 + 3 < 2 ^ 64)%N by lia.
  apply IH.
  - by apply affixes_registerName.
  - pose proof (counter_registerName st nt). lia.
  - by apply generatedFrom_registerName.
Qed.
End generatedFrom.

Lemma setCurrentNames_members_generated (m : gmap string columnType) e :
  (3 * N.of_nat (base.size m) < 2 ^ 64)%N →
  let e' := setCurrentNames_members m e in
  _encodedNames e'
  = (λ k, encodedName (_encodePrefix e) (_encodePostfix e) (N.of_nat k))
      <$> seq 0 (length (_encodedNames e'))
  ∧ NoDup (_encodedNames e')
  ∧ ∀ id, is_Some (_decodingMap e' !! id) ↔ id ∈ _encodedNames e'.
Proof.
  intros Hsz. unfold setCurrentNames_members. cbn zeta. simpl.
  set (cleared := mkColumnEncoder _ _ _ _ _ _ _ _).
  destruct (generatedFrom_foldl (_encodePrefix e) (_encodePostfix e) 0 cleared
              (std_map_items m) (0%N, cleared)) as (_ & Hn & Hd); [done|..].
  - rewrite length_std_map_items. simpl. lia.
  - split; [done|]. split; [done|]. intros id. simpl. rewrite lookup_empty.
    split; [intros [? [=]]|]. intros [[? [=]]|H]; by apply elem_of_nil in H.
  - simpl in Hn, Hd. rewrite N.sub_0_r in Hn.
    assert (length (_encodedNames (foldl registerName (0%N, cleared) (std_map_items m)).2)
            = N.to_nat (foldl registerName (0%N, cleared) (std_map_items m)).1) as Hlen.
    { by rewrite Hn, length_fmap, length_seq. }
    split; [by rewrite Hlen|]. split.
    + rewrite Hn. apply NoDup_fmap_2; [|apply NoDup_seq].
      intros k1 k2 ?%encodedName_inj. lia.
    + intros id. rewrite Hd, lookup_empty, drop_0.
      split; [intros [[? [=]]|?]; done|by right].
Qed.

(** X13: after [setCurrentNames] the list of encoded names holds the
    identifiers prefix, counter, postfix for the counter values 0, 1, 2, ...
    in the order they were made, no identifier twice, and [shouldDecode]
    holds exactly of the identifiers of that list.  The counter is a
    [size_t]; the input is taken small enough for it not to wrap. *)
Theorem setCurrentNames_encodedNames (m : gmap string columnType) e :
  (3 * N.of_nat (base.size m) < 2 ^ 64)%N →
  let e' := setCurrentNames_members m e in
  _encodedNames e'
  = (λ k, encodedName (_encodePrefix e) (_encodePostfix e) (N.of_nat k))
      <$> seq 0 (length (_encodedNames e'))
  ∧ NoDup (_encodedNames e')
  ∧ ∀ id, shouldDecode e' id = true ↔ id ∈ _encodedNames e'.
Proof.
  intros Hsz e'.
  destruct (setCurrentNames_members_generated m e Hsz) as (Hn & Hnd & Hk).
  split; [done|]. split; [done|]. intros id.
  unfold shouldDecode. rewrite bool_decide_eq_true. apply Hk.
Qed.

Lemma registerUnknown_originalNames n st :
  _originalNames (registerUnknown n st).2 = _originalNames st.2.
Proof. by destruct st. Qed.

Lemma registerQualified_originalNames n d st ct :
  _originalNames (registerQualified n d st ct).2 = _originalNames st.2 ++ [qualified n ct].
Proof. by destruct st. Qed.

Lemma registerName_originalNames st nt q :
  q ∈ _originalNames (registerName st nt).2
  ↔ q ∈ _originalNames st.2 ∨ listedOf [nt] q.
Proof.
  destruct nt as [n t]. unfold registerName, listedOf. cbn [fst snd].
  setoid_rewrite list_elem_of_singleton.
  case_decide as Hu.
  - rewrite registerUnknown_originalNames. cbn [snd pushOriginalName _originalNames].
    rewrite elem_of_app, list_elem_of_singleton. naive_solver.
  - cbn [foldl]. rewrite !registerQualified_originalNames.
    cbn [snd pushOriginalName _originalNames].
    rewrite !elem_of_app, !list_elem_of_singleton. split.
    + intros [[[[?| ->]| ->]| ->]| ->]; [by left|right..];
        exists n, t; (split; [done|]); first [by left|right; split; [done|]];
        eexists; (split; [|done]); set_solver.
    + intros [?|(n' & t' & [= -> ->] & [->|[_ (ct & Hct & ->)]])]; [naive_solver..|].
      repeat (apply elem_of_cons in Hct as [->|Hct]); [naive_solver..|].
      by apply elem_of_nil in Hct.
Qed.

Lemma foldl_registerName_originalNames l st q :
  q ∈ _originalNames (foldl registerName st l).2
  ↔ q ∈ _originalNames st.2 ∨ listedOf l q.
Proof.
  revert st. induction l as [|nt l IH]; intros st.
  { simpl. unfold listedOf. set_solver. }
  cbn [foldl]. rewrite IH, registerName_originalNames. unfold listedOf.
  setoid_rewrite elem_of_cons. setoid_rewrite elem_of_nil. naive_solver.
Qed.

Lemma setCurrentNames_members_originalNames (m : gmap string columnType) e q :
  q ∈ _originalNames (setCurrentNames_members m e)
  ↔ q ∈ _originalNames e ∨ listedOf (std_map_items m) q.
Proof.
  unfold setCurrentNames_members. cbn zeta. cbn [_originalNames].
  by rewrite elem_of_sortVectorBigToSmall, foldl_registerName_originalNames.
Qed.

(** X14: after [setCurrentNames] on an encoder whose list of original
    names was empty, as it is after construction, the list holds the bare
    names of the input and the three qualified spellings of every name that
    has a type, and nothing else, ordered longest first. *)
Theorem setCurrentNames_originalNames (m : gmap string columnType) e :
  _originalNames e = [] →
  let e' := setCurrentNames_members m e in
  StronglySorted bigger_first (_originalNames e')
  ∧ ∀ q, q ∈ _originalNames e'
         ↔ is_Some (m !! q)
           ∨ ∃ n t ct, m !! n = Some t ∧ t ≠ unknown
               ∧ ct ∈ [scale; ordinal; nominal] ∧ q = qualified n ct.
Proof.
  intros Hfresh. cbn zeta. split.
  { unfold setCurrentNames_members. cbn zeta. cbn [_originalNames].
    apply sortVectorBigToSmall_sorted. }
  intros q. rewrite setCurrentNames_members_originalNames, Hfresh.
  unfold listedOf. setoid_rewrite elem_of_std_map_items. split.
  - intros [[]%elem_of_nil|(n & t & Hm & [->|[? (ct & ? & ->)]])]; [by left|].
    right. eauto 10.
  - intros [[t Hm]|(n & t & ct & ? & ? & ? & ->)]; right.
    + exists q, t. split; [done|]. by left.
    + exists n, t. split; [done|]. right. eauto.
Qed.

(** X15: on an encoder whose list of original names was empty, a call of
    [setCurrentNames] with no name of type nominalText leaves every listed
    name with a key in the encoding map, so that [map.at] finds each of them
    when a script is encoded. *)
Theorem setCurrentNames_listed_have_keys (m : gmap string columnType) e :
  _originalNames e = [] → (∀ n, m !! n ≠ Some nominalText) →
  let e' := setCurrentNames_members m e in
  ∀ q, q ∈ _originalNames e' → is_Some (_encodingMap e' !! q).
Proof.
  intros Hfresh Hnt e' q. unfold e'.
  rewrite setCurrentNames_members_originalNames, Hfresh.
  unfold setCurrentNames_members. cbn zeta. simpl.
  rewrite foldl_registerName_keys. unfold listedOf, keyOf.
  intros [[]%elem_of_nil|(n & t & Hin & Hcase)]. left. exists n, t. split; [done|].
  destruct Hcase as [->|?]; [left|by right]. split; [done|].
  intros ->. apply elem_of_std_map_items in Hin. by apply Hnt in Hin.
Qed.

(** ** Round trip through [encode], [decode] and [columnTypeFromEncoded] *)

Lemma mergedMap_Ok {V} (member : ColumnEncoder → gmap string V) r p primary :
  wellFormed r p primary →
  ∃ m, mergedMap member r = Ok m
       ∧ ∀ k v, member primary !! k = Some v → m !! k = Some v.
Proof.
  intros (Hp & Hprim & Hlive).
  destruct (mergedMap_lookup member r p primary Hp Hprim Hlive) as (m & es & Hm & _ & Hl).
  exists m. split; [done|]. intros k v Hk. rewrite Hl. simpl. by rewrite Hk.
Qed.

(** The entries of the primary encoder's new tables, seen through the
    static functions. *)
Lemma primary_roundtrip r p primary (m : gmap string columnType) q id n :
  wellFormed r p primary → q ≠ EmptyString → id ≠ EmptyString →
  let e' := setCurrentNames_members m primary in
  _encodingMap e' !! q = Some id → _decodingMap e' !! id = Some n →
  ∃ r1 r2 r3 ty r4,
    setCurrentNames p m r = Ok r1
    ∧ encode q r1 = (Ok id, r2)
    ∧ decode id r2 = (Ok n, r3)
    ∧ columnTypeFromEncoded id r3 = (Ok ty, r4)
    ∧ ∀ t, _decodingTypes e' !! id = Some t → ty = t.
Proof.
  intros (Hp & Hprim & Hlive) Hq Hid e' He Hd.
  unfold setCurrentNames. rewrite Hprim.
  set (r1 := invalidateAll _).
  assert (wellFormed r1 p e') as Hwf1.
  { split; [done|]. split; [by apply lookup_insert_eq|].
    intros others q' Ho Hq'. simpl. rewrite lookup_insert.
    case_decide; [done|]. by eapply Hlive. }
  destruct (mergedMap_Ok _encodingMap r1 p e' Hwf1) as (m1 & Hm1 & Hl1).
  assert (∃ r2, encodingMap r1 = (Ok m1, r2)) as [r2 Hem].
  { unfold encodingMap. cbn [_encodingMapInvalidated r1 invalidateAll]. rewrite Hm1. eauto. }
  destruct (encodingMap_frame _ _ _ Hem) as (Hsame12 & Hf2 & Hf2').
  assert (wellFormed r2 p e') as Hwf2 by by eapply wellFormed_sameObjects.
  destruct (mergedMap_Ok _decodingMap r2 p e' Hwf2) as (m2 & Hm2 & Hl2).
  assert (∃ r3, decodingMap r2 = (Ok m2, r3)) as [r3 Hdm].
  { unfold decodingMap. rewrite Hf2. cbn [_decodingMapInvalidated r1 invalidateAll].
    rewrite Hm2. eauto. }
  destruct (decodingMap_frame _ _ _ Hdm) as (Hsame23 & Hf3).
  assert (wellFormed r3 p e') as Hwf3 by by eapply wellFormed_sameObjects.
  destruct (mergedMap_Ok _decodingTypes r3 p e' Hwf3) as (m3 & Hm3 & Hl3).
  assert (∃ r4, decodingTypes r3 = (Ok m3, r4)) as [r4 Htm].
  { unfold decodingTypes. rewrite Hf3, Hf2'.
    cbn [_decodingTypeInvalidated r1 invalidateAll]. rewrite Hm3. eauto. }
  exists r1, r2, r3, (default unknown (m3 !! id)), r4.
  rewrite (encode_lookup _ _ _ _ Hem), (decode_lookup _ _ _ _ Hdm),
    (columnTypeFromEncoded_lookup _ _ _ _ Htm).
  rewrite !decide_False by done.
  rewrite (Hl1 _ _ He), (Hl2 _ _ Hd).
  repeat split; try done. intros t Ht. by rewrite (Hl3 _ _ Ht).
Qed.

(** X16: after [setCurrentNames] on the primary encoder, every non-empty
    key [q] of its encoding map makes the round trip: [encode q] gives an
    identifier, [decode] of that identifier gives a name [n] of the input,
    and [q] is [n] itself or a qualified spelling [n.ct] of it; in the second
    case [columnTypeFromEncoded] gives [ct], in the first the declared type
    of [n] when it has one.  The input is small enough for the counter not
    to wrap. *)
Theorem encode_decode_roundtrip r p primary (namesWithTypes : gmap string columnType) q :
  wellFormed r p primary →
  (3 * N.of_nat (base.size namesWithTypes) < 2 ^ 64)%N →
  q ≠ EmptyString →
  is_Some (_encodingMap (setCurrentNames_members namesWithTypes primary) !! q) →
  ∃ r1 id r2 n t r3 ty r4,
    setCurrentNames p namesWithTypes r = Ok r1
    ∧ encode q r1 = (Ok id, r2)
    ∧ decode id r2 = (Ok n, r3)
    ∧ columnTypeFromEncoded id r3 = (Ok ty, r4)
    ∧ namesWithTypes !! n = Some t
    ∧ ((q = n ∧ (t = unknown ∨ ty = t))
       ∨ (t ≠ unknown ∧ ∃ ct, ct ∈ [scale; ordinal; nominal]
            ∧ q = qualified n ct ∧ ty = ct)).
Proof.
  intros Hwf Hsz Hne [id He].
  destruct (setCurrentNames_members_decodes _ primary q id Hsz He)
    as (cid & n & t & Hid & Hn & Hd & Hcase).
  assert (id ≠ EmptyString) as Hid' by (rewrite Hid; apply encodedName_nonempty).
  destruct (primary_roundtrip r p primary namesWithTypes q id n Hwf Hne Hid' He Hd)
    as (r1 & r2 & r3 & ty & r4 & H1 & H2 & H3 & H4 & Hty).
  exists r1, id, r2, n, t, r3, ty, r4. repeat split; [done..|].
  destruct Hcase as [[-> [->|Ht]]|(Ht & ct & Hct & -> & Ht')].
  - left. split; [done|]. by left.
  - left. split; [done|]. right. by apply Hty.
  - right. split; [done|]. exists ct. repeat split; [done|]. by apply Hty.
Qed.

(** X17: a bare name of the input that is not of type nominalText and is
    not the qualified spelling of another typed name of the input comes back
    from [decode] after [encode], and [columnTypeFromEncoded] gives its
    declared type when it has one. *)
Theorem bare_name_roundtrip r p primary (namesWithTypes : gmap string columnType) n t :
  wellFormed r p primary →
  (3 * N.of_nat (base.size namesWithTypes) < 2 ^ 64)%N →
  n ≠ EmptyString →
  namesWithTypes !! n = Some t → t ≠ nominalText →
  (∀ n' t' ct, namesWithTypes !! n' = Some t' → t' ≠ unknown →
               ct ∈ [scale; ordinal; nominal] → n ≠ qualified n' ct) →
  ∃ r1 id r2 r3 ty r4,
    setCurrentNames p namesWithTypes r = Ok r1
    ∧ encode n r1 = (Ok id, r2)
    ∧ decode id r2 = (Ok n, r3)
    ∧ columnTypeFromEncoded id r3 = (Ok ty, r4)
    ∧ (t = unknown ∨ ty = t).
Proof.
  intros Hwf Hsz Hne Hn Ht Hfree.
  assert (is_Some (_encodingMap (setCurrentNames_members namesWithTypes primary) !! n))
    as [id He].
  { unfold setCurrentNames_members. cbn zeta. simpl.
    rewrite foldl_registerName_keys. left. exists n, t.
    split; [by apply elem_of_std_map_items|]. by left. }
  destruct (setCurrentNames_members_decodes _ primary n id Hsz He)
    as (cid & n0 & t0 & Hid & Hn0 & Hd & Hcase).
  assert (id ≠ EmptyString) as Hid' by (rewrite Hid; apply encodedName_nonempty).
  assert (n0 = n ∧ (t = unknown ∨
            _decodingTypes (setCurrentNames_members namesWithTypes primary) !! id
            = Some t)) as [-> Hty0].
  { destruct Hcase as [[-> Hc]|(Ht0 & ct & Hct & Hq & _)].
    - split; [done|]. by replace t with t0 by congruence.
    - by destruct (Hfree n0 t0 ct). }
  destruct (primary_roundtrip r p primary namesWithTypes n id n Hwf Hne Hid' He Hd)
    as (r1 & r2 & r3 & ty & r4 & H1 & H2 & H3 & H4 & Hty).
  exists r1, id, r2, r3, ty, r4. repeat split; [done..|].
  destruct Hty0 as [?|?]; [by left|right]. by apply Hty.
Qed.

(** ** Aggregate views: where an answer comes from *)

Lemma mapM_heap_elem_of (r : Registry) qs es e :
  mapM (λ q, heap r !! q) qs = Some es →
  e ∈ es → ∃ q, q ∈ qs ∧ heap r !! q = Some e.
Proof.
  revert es. induction qs as [|q0 qs IH]; intros es Hes He; cbn [mapM] in Hes.
  { injection Hes as <-. by apply elem_of_nil in He. }
  destruct (heap r !! q0) as [e0|] eqn:Hq0; [|done]. simpl in Hes.
  destruct (mapM _ qs) as [es'|] eqn:Hes'; [|done]. injection Hes as <-.
  apply elem_of_cons in He as [->|He].
  - exists q0. by split; [left|].
  - destruct (IH es' eq_refl He) as (q & ? & ?). exists q. by split; [right|].
Qed.

Lemma mapM_heap_lookup (r : Registry) qs es q e :
  mapM (λ q, heap r !! q) qs = Some es →
  q ∈ qs → heap r !! q = Some e → e ∈ es.
Proof.
  revert es. induction qs as [|q0 qs IH]; intros es Hes Hq He; cbn [mapM] in Hes.
  { by apply elem_of_nil in Hq. }
  destruct (heap r !! q0) as [e0|] eqn:Hq0; [|done]. simpl in Hes.
  destruct (mapM _ qs) as [es'|] eqn:Hes'; [|done]. injection Hes as <-.
  apply elem_of_cons. apply elem_of_cons in Hq as [Heq|Hq].
  - left. congruence.
  - right. by apply IH.
Qed.

Lemma firstHit_Some {V} k (tables : list (gmap string V)) v :
  firstHit k tables = Some v → ∃ t, t ∈ tables ∧ t !! k = Some v.
Proof.
  induction tables as [|t tables IH]; [done|]. simpl.
  destruct (t !! k) as [v'|] eqn:Ht.
  - intros [= ->]. exists t. by split; [left|].
  - intros (t' & ? & ?)%IH. exists t'. by split; [right|].
Qed.

Lemma firstHit_None {V} k (tables : list (gmap string V)) :
  firstHit k tables = None → ∀ t, t ∈ tables → t !! k = None.
Proof.
  induction tables as [|t tables IH]; simpl.
  { intros _ t []%elem_of_nil. }
  destruct (t !! k) as [v'|] eqn:Ht; [done|].
  intros Hf t' [->|?]%elem_of_cons; [done|]. by apply IH.
Qed.

(** X18: a rebuilt encode view invents nothing and misses nothing.  When
    [encode] returns an identifier for a non-empty name, some encoder among
    the primary one and the other encoders has this very entry in its own
    encoding map; when it fails, it fails with NotAColumnName and no such
    encoder has an entry for the name. *)
Theorem encode_from_some_encoder r p primary name :
  wellFormed r p primary → _encodingMapInvalidated r = true →
  name ≠ EmptyString →
  match (encode name r).1 with
  | Ok id => ∃ q e, consulted r q ∧ heap r !! q = Some e
                    ∧ _encodingMap e !! name = Some id
  | Throw ex => ex = NotAColumnName name
                ∧ ∀ q e, consulted r q → heap r !! q = Some e
                         → _encodingMap e !! name = None
  end.
Proof.
  intros (Hp & Hprim & Hlive) Hinv Hne.
  destruct (mergedMap_lookup _encodingMap r p primary Hp Hprim Hlive)
    as (m & es & Hm & Hes & Hk).
  assert (∃ r', encodingMap r = (Ok m, r')) as [r' Hem].
  { unfold encodingMap. rewrite Hinv, Hm. eauto. }
  rewrite (encode_lookup _ _ _ _ Hem), decide_False by done. cbn [fst].
  rewrite Hk. destruct (firstHit _ _) as [id|] eqn:Hf.
  - apply firstHit_Some in Hf as (t & [->|Ht]%elem_of_cons & Hl).
    + exists p, primary. split; [by left|done].
    + apply list_elem_of_fmap in Ht as (e & -> & He).
      destruct (_otherEncoders r) as [others|] eqn:Ho; simpl in Hes.
      2:{ injection Hes as <-. by apply elem_of_nil in He. }
      destruct (mapM_heap_elem_of _ _ _ _ Hes He) as (q & Hq%elem_of_std_set_items & Hh).
      exists q, e. split; [right; eauto|done].
  - split; [done|]. intros q e [Hq|(others & Ho & Hq)] Hh.
    + assert (e = primary) as -> by congruence.
      apply (firstHit_None _ _ Hf). by left.
    + rewrite Ho in Hes. simpl in Hes.
      apply (firstHit_None _ _ Hf). right. apply list_elem_of_fmap. exists e.
      split; [done|]. eapply mapM_heap_lookup; [done| |done].
      by apply elem_of_std_set_items.
Qed.

(** X19: after [setCurrentNames] on a freshly constructed primary encoder,
    with no name of type nominalText, every non-empty name that
    [columnNames] lists is encoded by [encode] to an identifier that
    [columnNamesEncoded] lists. *)
Theorem columnNames_encoded_listed r p primary (m : gmap string columnType) :
  wellFormed r p primary → _originalNames primary = [] →
  (3 * N.of_nat (base.size m) < 2 ^ 64)%N →
  (∀ n, m !! n ≠ Some nominalText) →
  ∃ r1 names ids,
    setCurrentNames p m r = Ok r1
    ∧ columnNames r1 = Ok names ∧ columnNamesEncoded r1 = Ok ids
    ∧ ∀ q, q ∈ names → q ≠ EmptyString →
        ∃ id r2, encode q r1 = (Ok id, r2) ∧ id ∈ ids.
Proof.
  intros Hwf Hfresh Hsz Hnt.
  pose proof Hwf as (Hp & Hprim & Hlive).
  set (e' := setCurrentNames_members m primary).
  assert (∃ r1, setCurrentNames p m r = Ok r1 ∧ _columnEncoder r1 = Some p
                ∧ heap r1 !! p = Some e') as (r1 & Hset & Hp1 & He1).
  { unfold setCurrentNames. rewrite Hprim. eexists. split; [done|].
    split; [done|]. simpl. by rewrite lookup_insert_eq. }
  exists r1, (_originalNames e'), (_encodedNames e').
  split; [done|]. unfold columnNames, columnNamesEncoded, deref. rewrite Hp1, He1.
  split; [done|]. split; [done|]. intros q Hq Hne.
  assert (is_Some (_encodingMap e' !! q)) as [id He].
  { revert Hq. unfold e'.
    rewrite setCurrentNames_members_originalNames, Hfresh.
    unfold setCurrentNames_members. cbn zeta. simpl.
    rewrite foldl_registerName_keys. unfold listedOf, keyOf.
    intros [[]%elem_of_nil|(n & t & Hin & Hcase)]. left. exists n, t. split; [done|].
    destruct Hcase as [->|?]; [left|by right]. split; [done|].
    intros ->. apply elem_of_std_map_items in Hin. by apply Hnt in Hin. }
  destruct (setCurrentNames_members_decodes _ primary q id Hsz He)
    as (cid & n & t & Hid & Hn & Hd & _).
  assert (id ≠ EmptyString) as Hid' by (rewrite Hid; apply encodedName_nonempty).
  destruct (primary_roundtrip r p primary m q id n Hwf Hne Hid' He Hd)
    as (r1' & r2 & _ & _ & _ & H1 & H2 & _).
  rewrite Hset in H1. injection H1 as <-.
  exists id, r2. split; [done|].
  destruct (setCurrentNames_members_generated m primary Hsz) as (_ & _ & Hk).
  apply Hk. by eexists.
Qed.

(** *** The list views *)

Lemma mergedVec_fold (member : ColumnEncoder → list string) r qs v0 es :
  mapM (λ q, heap r !! q) qs = Some es →
  foldl_result (λ vec q, other ← deref r q; Ok (vec ++ member other)) v0 qs
  = Ok (v0 ++ concat (member <$> es)).
Proof.
  revert v0 es. induction qs as [|q qs IH]; intros v0 es Hes; cbn [mapM] in Hes.
  { injection Hes as <-. simpl. by rewrite app_nil_r. }
  destruct (heap r !! q) as [e|] eqn:Hq; [|done]. simpl in Hes.
  destruct (mapM _ qs) as [es'|] eqn:Hes'; [|done]. injection Hes as <-.
  cbn [foldl_result]. cbv beta.
  assert (deref r q = Ok e) as -> by (unfold deref; by rewrite Hq).
  cbn [mbind result_bind].
  rewrite (IH _ es') by done. simpl. by rewrite app_assoc.
Qed.

Lemma mergedVec_lookup (member : ColumnEncoder → list string) r p primary :
  wellFormed r p primary →
  ∃ es,
    mapM (λ q, heap r !! q) (from_option std_set_items [] (_otherEncoders r)) = Some es
    ∧ mergedVec member r = Ok (member primary ++ concat (member <$> es)).
Proof.
  intros (Hp & Hprim & Hlive).
  destruct (mergedMap_lookup _encodingMap r p primary Hp Hprim Hlive)
    as (_ & es & _ & Hes & _).
  exists es. split; [done|]. unfold mergedVec, deref. rewrite Hp, Hprim.
  cbn [mbind result_bind].
  destruct (_otherEncoders r) as [others|]; simpl in *.
  - by apply mergedVec_fold.
  - injection Hes as <-. simpl. by rewrite app_nil_r.
Qed.

(** X20: a rebuilt [originalNames] view holds the names of the primary
    encoder and of every encoder of [*_otherEncoders], each as often as it
    is listed there, and is ordered longest first. *)
Theorem originalNames_rebuilt r p primary :
  wellFormed r p primary → _originalNamesInvalidated r = true →
  ∃ vec r' es,
    originalNames r = (Ok vec, r')
    ∧ mapM (λ q, heap r !! q) (from_option std_set_items [] (_otherEncoders r)) = Some es
    ∧ StronglySorted bigger_first vec
    ∧ vec ≡ₚ _originalNames primary ++ concat (_originalNames <$> es).
Proof.
  intros Hwf Hinv.
  destruct (mergedVec_lookup _originalNames r p primary Hwf) as (es & Hes & Hv).
  unfold originalNames. rewrite Hinv, Hv. eexists _, _, es.
  split; [done|]. split; [done|]. split.
  - apply sortVectorBigToSmall_sorted.
  - apply std_sort_Permutation.
Qed.

(** ** The encoder for a set of allowed prefixes *)

Lemma encodeWithPrefix_buckets text found r prefix text' found' r' :
  encodeWithPrefix (text, found, r) prefix = Ok (text', found', r') →
  dom found' = {[prefix]} ∪ dom found
  ∧ ∀ k v, found !! k = Some v → found' !! k = Some v.
Proof.
  unfold encodeWithPrefix.
  destruct (encodingMap r) as [[map|] r1]; [|done].
  destruct (originalNames r1) as [[names|] r2]; [|done].
  destruct (encodeRScript text map names prefix) as [[t f]|]; [|done].
  cbn [mbind result_bind]. intros [= <- <- <-].
  destruct (found !! prefix) as [v0|] eqn:Hp.
  - split; [|done]. apply elem_of_dom_2 in Hp. set_solver.
  - split; [by rewrite dom_insert_L|].
    intros k v Hk. rewrite lookup_insert_ne; [done|]. intros ->. congruence.
Qed.

Lemma encodeRScript_prefixes_buckets l st st' :
  foldl_result encodeWithPrefix st l = Ok st' →
  dom st'.1.2 = list_to_set l ∪ dom st.1.2
  ∧ ∀ k v, st.1.2 !! k = Some v → st'.1.2 !! k = Some v.
Proof.
  revert st. induction l as [|prefix l IH]; intros st; simpl.
  { intros [= <-]. split; [set_solver|done]. }
  destruct (encodeWithPrefix st prefix) as [[[t1 f1] r1]|] eqn:Hp; [|done].
  cbn [mbind result_bind]. intros [Hd Hk]%IH.
  destruct st as [[t f] r].
  apply encodeWithPrefix_buckets in Hp as [Hd1 Hk1]. simpl in *.
  split; [rewrite Hd, Hd1; set_solver|]. intros k v ?. by apply Hk, Hk1.
Qed.

Lemma list_to_set_prefixOrder (allowedPrefixes : gset string) :
  list_to_set (prefixOrder allowedPrefixes) =@{gset string} {[EmptyString]} ∪ allowedPrefixes.
Proof.
  unfold prefixOrder. apply set_eq. intros x.
  rewrite list_to_set_cons, elem_of_union, elem_of_list_to_set.
  rewrite std_sort_Permutation, merge_sort_Permutation, elem_of_elements. set_solver.
Qed.

(** X21: the found-name mapping of the prefix-set encoder has one bucket
    for the empty prefix and one for each allowed prefix, and no other.
    The bucket of the empty prefix holds what the first pass, the one
    without a prefix, has found: a later insertion under the same key does
    not replace it. *)
Theorem encodeRScript_prefixes_found text allowedPrefixes r out found r' :
  encodeRScript_prefixes text allowedPrefixes r = Ok (out, found, r') →
  dom found = {[EmptyString]} ∪ allowedPrefixes
  ∧ ∃ map r1 names r2 text1 found1,
      encodingMap r = (Ok map, r1) ∧ originalNames r1 = (Ok names, r2)
      ∧ encodeRScript text map names EmptyString = Ok (text1, found1)
      ∧ found !! EmptyString = Some found1.
Proof.
  unfold encodeRScript_prefixes. intros Hf. split.
  { apply encodeRScript_prefixes_buckets in Hf as [Hd _]. cbn [fst snd] in Hd.
    rewrite Hd, list_to_set_prefixOrder, dom_empty_L. set_solver. }
  unfold prefixOrder in Hf. cbn [foldl_result] in Hf.
  destruct (encodeWithPrefix (text, ∅, r) EmptyString) as [[[t1 f1] r3]|] eqn:Hfirst;
    [|done].
  cbn [mbind result_bind] in Hf. unfold encodeWithPrefix in Hfirst.
  destruct (encodingMap r) as [[map|] r1] eqn:Hmap; [|done].
  destruct (originalNames r1) as [[names|] r2] eqn:Hnames; [|done].
  destruct (encodeRScript text map names EmptyString) as [[t f]|] eqn:Henc; [|done].
  cbn [mbind result_bind] in Hfirst. rewrite lookup_empty in Hfirst.
  injection Hfirst as <- <- <-.
  apply encodeRScript_prefixes_buckets in Hf as [_ Hk]. simpl in Hk.
  eexists map, r1, names, r2, t, f. split_and!; try done.
  apply Hk. by rewrite lookup_insert_eq.
Qed.

(** ** Generated identifiers *)

Lemma pretty_N_char_digit x : isDigit (pretty_N_char x) = true.
Proof. unfold pretty_N_char. by repeat case_match. Qed.

Lemma pretty_N_go_digits x s :
  Forall (λ c, isDigit c = true) (chars s) →
  Forall (λ c, isDigit c = true) (chars (pretty_N_go x s)).
Proof.
  revert s. induction (N.lt_wf_0 x) as [x _ IH]. intros s Hs.
  destruct (decide (0 < x)%N).
  - rewrite pretty_N_go_step by done. apply IH; [by apply N.div_lt|].
    simpl. constructor; [apply pretty_N_char_digit|done].
  - replace x with 0%N by lia. by rewrite pretty_N_go_0.
Qed.

Lemma pretty_N_digits (c : N) : Forall (λ a, isDigit a = true) (chars (pretty c)).
Proof.
  unfold pretty, pretty_N. case_decide.
  - by repeat constructor.
  - apply pretty_N_go_digits. constructor.
Qed.

Lemma isDigit_nameChar c : isDigit c = true → nameChar c = true.
Proof. unfold isDigit, nameChar. intros ->. by rewrite !orb_true_r. Qed.

Lemma encodedName_identifier prefix postfix c :
  identChars (chars prefix) → identChars (chars postfix) →
  identifier (encodedName prefix postfix c).
Proof.
  intros Hp Hq. split; [apply encodedName_nonempty|].
  unfold encodedName. rewrite !chars_app. apply Forall_app. split; [done|].
  apply Forall_app. split; [|done].
  eapply Forall_impl; [apply pretty_N_digits|]. apply isDigit_nameChar.
Qed.

Lemma digits_prefix (d1 d2 : list ascii) c0 q rest :
  Forall (λ c, isDigit c = true) d1 → Forall (λ c, isDigit c = true) d2 →
  isDigit c0 = false →
  d2 ++ c0 :: q = (d1 ++ c0 :: q) ++ rest → d1 = d2.
Proof.
  intros H1. revert d2. induction H1 as [|a d1 Ha _ IH]; intros d2 H2 Hc0 Heq.
  - destruct H2 as [|b d2 Hb _]; [done|]. simpl in Heq. injection Heq as -> _. congruence.
  - destruct H2 as [|b d2 Hb H2]; simpl in Heq.
    + injection Heq as <- _. congruence.
    + injection Heq as <- Heq. f_equal. by apply IH.
Qed.

(** An identifier of the generator that begins another one is that one,
    when the postfix begins with a character that is no digit. *)
Lemma encodedName_prefix_eq prefix postfix c0 q j k :
  chars postfix = c0 :: q → isDigit c0 = false →
  take (size (encodedName prefix postfix j)) (chars (encodedName prefix postfix k))
  = chars (encodedName prefix postfix j) →
  j = k.
Proof.
  intros Hq Hc0 Ht.
  pose proof (take_drop (size (encodedName prefix postfix j))
                (chars (encodedName prefix postfix k))) as Hsplit.
  rewrite Ht in Hsplit. unfold encodedName in Hsplit.
  rewrite !chars_app, <-!app_assoc in Hsplit. apply app_inv_head in Hsplit.
  rewrite Hq in Hsplit. rewrite app_assoc in Hsplit. symmetry in Hsplit.
  apply digits_prefix in Hsplit; [|apply pretty_N_digits..|done].
  apply chars_inj in Hsplit. by apply (inj pretty) in Hsplit.
Qed.

(** ** The tables of the replacing encoder *)

Lemma redirect_fields decodeDifferently this id :
  let this' := redirect decodeDifferently this id in
  _encodingMap this' = _encodingMap this
  ∧ _originalNames this' = _originalNames this
  ∧ _encodedNames this' = _encodedNames this.
Proof. done. Qed.

Lemma redirect_lookup decodeDifferently this id id' :
  _decodingMap (redirect decodeDifferently this id) !! id'
  = if decide (id' = id)
    then Some (let current := default EmptyString (_decodingMap this !! id) in
               default current (decodeDifferently !! current))
    else _decodingMap this !! id'.
Proof.
  unfold redirect. simpl. destruct (_decodingMap this !! id) as [cur|] eqn:Hcur; simpl.
  - rewrite Hcur. simpl. destruct (decodeDifferently !! cur) as [v|] eqn:Hv; simpl.
    + rewrite lookup_insert. case_decide; case_decide; congruence.
    + case_decide as Hid; [by rewrite Hid|done].
  - rewrite lookup_insert_eq. simpl.
    destruct (decodeDifferently !! EmptyString) as [v|] eqn:Hv; simpl.
    + rewrite lookup_insert. case_decide; case_decide; try congruence.
      by rewrite lookup_insert_ne.
    + rewrite lookup_insert. case_decide; case_decide; congruence.
Qed.

Lemma redirect_foldl decodeDifferently ids this :
  NoDup ids →
  let this' := foldl (redirect decodeDifferently) this ids in
  _encodingMap this' = _encodingMap this
  ∧ _originalNames this' = _originalNames this
  ∧ _encodedNames this' = _encodedNames this
  ∧ ∀ id, _decodingMap this' !! id
          = if decide (id ∈ ids)
            then Some (let current := default EmptyString (_decodingMap this !! id) in
                       default current (decodeDifferently !! current))
            else _decodingMap this !! id.
Proof.
  intros Hnd. revert this. induction Hnd as [|id0 ids Hid0 _ IH]; intros this.
  { simpl. split_and!; try done. }
  cbn [foldl]. destruct (IH (redirect decodeDifferently this id0)) as (-> & -> & -> & Hl).
  split_and!; try done. intros id. rewrite Hl, redirect_lookup.
  destruct (decide (id ∈ ids)) as [Hin|Hin].
  - rewrite decide_False by (by intros ->). rewrite decide_True; [done|by right].
  - destruct (decide (id = id0)) as [->|Hne].
    + rewrite decide_True; [done|by left].
    + rewrite decide_False; [done|]. by intros [?|?]%elem_of_cons.
Qed.

Lemma rewriteTokens_ext rep rep' :
  (∀ w, rep w = rep' w) →
  ∀ l q b, rewriteTokens rep q b l = rewriteTokens rep' q b l.
Proof.
  intros Hrep. induction l as [|c l IH]; intros q b; [done|]. simpl.
  rewrite !IH. unfold tokenOut. by rewrite Hrep.
Qed.

Section replacer.
Context (changedNames : gmap string string).
Context (Hsize : (3 * N.of_nat (base.size changedNames) < 2 ^ 64)%N).

Let temp0 : ColumnEncoder :=
  setCurrentNames_members ((λ _, unknown) <$> changedNames)
    (emptyEncoder "JASPColumn_" "_For_Replacement").

Lemma replacer_keys q :
  is_Some (_encodingMap temp0 !! q) ↔ is_Some (changedNames !! q).
Proof.
  unfold temp0, setCurrentNames_members. cbn zeta. simpl.
  rewrite foldl_registerName_keys. simpl. rewrite lookup_empty. unfold keyOf.
  setoid_rewrite elem_of_std_map_items. setoid_rewrite lookup_fmap.
  split.
  - intros [(n & t & Hm & [[-> ?]|[Hu _]])|[? [=]]].
    + destruct (changedNames !! n); [by eexists|done].
    + destruct (changedNames !! n); [|done]. simpl in Hm. congruence.
  - intros [v Hv]. left. exists q, unknown. rewrite Hv. split; [done|]. by left.
Qed.

Lemma replacer_listed q :
  q ∈ _originalNames temp0 ↔ is_Some (changedNames !! q).
Proof.
  unfold temp0. rewrite setCurrentNames_members_originalNames. simpl.
  unfold listedOf. setoid_rewrite elem_of_std_map_items. setoid_rewrite lookup_fmap.
  split.
  - intros [[]%elem_of_nil|(n & t & Hm & [->|[Hu _]])].
    + destruct (changedNames !! n); [by eexists|done].
    + destruct (changedNames !! n); [|done]. simpl in Hm. congruence.
  - intros [v Hv]. right. exists q, unknown. rewrite Hv. split; [done|]. by left.
Qed.

Lemma replacer_entry q id :
  _encodingMap temp0 !! q = Some id →
  ∃ cid v, id = encodedName "JASPColumn_" "_For_Replacement" cid
    ∧ id ∈ _encodedNames temp0
    ∧ _decodingMap temp0 !! id = Some q ∧ changedNames !! q = Some v.
Proof.
  intros He.
  assert (3 * N.of_nat (base.size ((λ _ : string, unknown) <$> changedNames)) < 2 ^ 64)%N
    as Hsz by by rewrite map_size_fmap.
  destruct (setCurrentNames_members_decodes _ _ q id Hsz He)
    as (cid & n & t & Hid & Hn & Hd & Hcase).
  rewrite lookup_fmap in Hn.
  destruct (changedNames !! n) as [v|] eqn:Hv; [|done]. injection Hn as <-.
  destruct Hcase as [[-> _]|[? _]]; [|done].
  exists cid, v. split; [done|]. split; [|done].
  destruct (setCurrentNames_members_generated _
              (emptyEncoder "JASPColumn_" "_For_Replacement") Hsz) as (_ & _ & Hk).
  apply Hk. by eexists.
Qed.

Lemma replacer_ids id :
  id ∈ _encodedNames temp0 →
  ∃ cid, id = encodedName "JASPColumn_" "_For_Replacement" cid.
Proof.
  assert (3 * N.of_nat (base.size ((λ _ : string, unknown) <$> changedNames)) < 2 ^ 64)%N
    as Hsz by by rewrite map_size_fmap.
  destruct (setCurrentNames_members_generated _
              (emptyEncoder "JASPColumn_" "_For_Replacement") Hsz) as (Hn & _ & _).
  fold temp0 in Hn. rewrite Hn. intros (k & -> & _)%list_elem_of_fmap. by eexists.
Qed.

Lemma replacer_NoDup : NoDup (_encodedNames temp0).
Proof.
  assert (3 * N.of_nat (base.size ((λ _ : string, unknown) <$> changedNames)) < 2 ^ 64)%N
    as Hsz by by rewrite map_size_fmap.
  by destruct (setCurrentNames_members_generated _
              (emptyEncoder "JASPColumn_" "_For_Replacement") Hsz) as (_ & ? & _).
Qed.

(** The encoder that replaces names encodes every old name to an
    identifier of its own that decodes to the new name. *)
Lemma replacerEncoder_tables r :
  let temp := (replacerEncoder changedNames r).1 in
  _encodingMap temp = _encodingMap temp0
  ∧ _originalNames temp = _originalNames temp0
  ∧ _encodedNames temp = _encodedNames temp0
  ∧ ∀ q id, _encodingMap temp0 !! q = Some id →
      ∃ v, changedNames !! q = Some v ∧ _decodingMap temp !! id = Some v.
Proof.
  unfold replacerEncoder. cbn zeta. cbn [fst]. fold temp0.
  destruct (redirect_foldl changedNames (_encodedNames temp0) temp0 replacer_NoDup)
    as (He & Ho & Hn & Hd).
  split_and!; try done. intros q id Hq.
  destruct (replacer_entry q id Hq) as (cid & v & _ & Hin & Hdec & Hv).
  exists v. split; [done|]. rewrite Hd, decide_True by done.
  rewrite Hdec. simpl. by rewrite Hv.
Qed.
End replacer.

Lemma replaceColumnNamesInRScript_rewrite fuel rCode (changedNames : gmap string string) r :
  (3 * N.of_nat (base.size changedNames) < 2 ^ 64)%N →
  (∀ n, is_Some (changedNames !! n) → identifier n) →
  (∀ c, changedNames !! encodedName "JASPColumn_" "_For_Replacement" c = None) →
  (∀ c p, occurs_at (chars rCode)
            (chars (encodedName "JASPColumn_" "_For_Replacement" c)) p = false) →
  size rCode < fuel →
  replaceColumnNamesInRScript fuel rCode changedNames r
  = (Some (Ok (of_chars (rewriteTokens (renamed changedNames) None false (chars rCode)))),
     invalidateAll r).
Proof.
  intros Hsz Hkeys Hfresh Hfree Hfuel.
  unfold replaceColumnNamesInRScript.
  destruct (replacerEncoder changedNames r) as [temp r'] eqn:Htemp.
  assert (r' = invalidateAll r) as -> by (unfold replacerEncoder in Htemp; congruence).
  destruct (replacerEncoder_tables changedNames Hsz r) as (He & Ho & Hn & Hd).
  rewrite Htemp in He, Ho, Hn, Hd. cbn [fst] in He, Ho, Hn, Hd.
  set (temp0 := setCurrentNames_members _ _) in *.
  rewrite He, Ho, Hn.
  assert (identChars (chars "JASPColumn_") ∧ identChars (chars "_For_Replacement"))
    as [HP HQ] by (split; by repeat constructor).
  assert (identifierNames (_encodingMap temp0) (_originalNames temp0)
            (_originalNames temp0)) as Hnames.
  { intros n Hin. apply (replacer_listed changedNames) in Hin as Hkey.
    split; [by apply Hkeys|].
    apply (replacer_keys changedNames) in Hkey as [id Hid].
    exists id. split; [done|].
    destruct (replacer_entry changedNames Hsz n id Hid) as (cid & v & -> & _).
    split; [by apply encodedName_identifier|].
    intros [v' Hv']%(replacer_listed changedNames). by rewrite Hfresh in Hv'. }
  destruct (encodeRScript_rewrite (_encodingMap temp0) (_originalNames temp0)
              (_originalNames temp0) (reflexivity _) Hnames rCode ∅) as [found Henc].
  unfold encodeRScript. rewrite Henc. f_equal. unfold replaceAll.
  rewrite (rewriteTokens_ext (renamed changedNames)
             (repAll changedNames (_originalNames temp0))).
  2:{ intros w. unfold renamed, repAll. case_decide as Hin; [done|].
      destruct (changedNames !! of_chars w) eqn:Hw; [|done].
      destruct Hin. apply (replacer_listed changedNames). by eexists. }
  apply (replaceAll_rewritten (repAll (_encodingMap temp0) (_originalNames temp0))
           (repAll changedNames (_originalNames temp0))
           (_decodingMap temp) (_encodedNames temp0)) with (pre := []).
  - by eapply repAll_ident.
  - intros n (cid & ->)%(replacer_ids changedNames Hsz). by apply encodedName_identifier.
  - intros w id. unfold repAll. case_decide as Hin; [|done].
    destruct (_encodingMap temp0 !! of_chars w) as [id'|] eqn:Hid; [|done].
    simpl. intros [= <-]. rewrite of_chars_chars.
    destruct (replacer_entry changedNames Hsz _ _ Hid) as (cid & v & _ & Hids & _ & Hv).
    split; [done|]. destruct (Hd _ _ Hid) as (v' & Hv' & Hdec).
    exists v'. split; [done|]. by rewrite Hv'.
  - intros w. unfold repAll. case_decide as Hin; [|done].
    apply (replacer_listed changedNames) in Hin as Hkey.
    apply (replacer_keys changedNames) in Hkey as [id Hid]. fold temp0 in Hid.
    by rewrite Hid.
  - intros w id n. unfold repAll. case_decide as Hin; [|done].
    destruct (_encodingMap temp0 !! of_chars w) as [id'|] eqn:Hid; [|done].
    simpl. intros [= <-] (j & ->)%(replacer_ids changedNames Hsz) Ht.
    destruct (replacer_entry changedNames Hsz _ _ Hid) as (k & v & -> & _).
    rewrite of_chars_chars. f_equal.
    by eapply (encodedName_prefix_eq _ "_For_Replacement").
  - intros n p (cid & ->)%(replacer_ids changedNames Hsz). apply Hfree.
  - done.
Qed.

(** X22: [replaceColumnNamesInRScript] renames token by token.  When the
    old names are non-empty runs of identifier characters, no identifier of
    the temporary encoder is an old name or occurs in the script, and the
    map is small enough for the counter not to wrap, the result is the
    script in which every token that is an old name, stands outside quoted
    runs and is not followed by a call parenthesis is replaced by its new
    name, whatever the new names look like; [size rCode + 1] rounds of the
    inner [replaceAll] suffice, and the static views are invalidated. *)
Theorem replaceColumnNamesInRScript_spec fuel rCode (changedNames : gmap string string) r :
  (3 * N.of_nat (base.size changedNames) < 2 ^ 64)%N →
  (∀ n, is_Some (changedNames !! n) → identifier n) →
  (∀ c, changedNames !! encodedName "JASPColumn_" "_For_Replacement" c = None) →
  (∀ c p, occurs_at (chars rCode)
            (chars (encodedName "JASPColumn_" "_For_Replacement" c)) p = false) →
  size rCode < fuel →
  replaceColumnNamesInRScript fuel rCode changedNames r
  = (Some (Ok (of_chars (rewriteTokens (renamed changedNames) None false (chars rCode)))),
     invalidateAll r).
Proof. apply replaceColumnNamesInRScript_rewrite. Qed.

Lemma replaceBy_lookup colsToRemove n :
  replaceBy colsToRemove !! n
  = if decide (n ∈ colsToRemove) then Some (removedColumn n) else None.
Proof.
  unfold replaceBy.
  cut (∀ m : gmap string string,
         foldl (λ replaceBy col, <[col := removedColumn col]> replaceBy) m colsToRemove !! n
         = if decide (n ∈ colsToRemove) then Some (removedColumn n) else m !! n).
  { intros H. by rewrite H, lookup_empty. }
  induction colsToRemove as [|c cols IH]; intros m; cbn [foldl].
  { rewrite decide_False; [done|apply not_elem_of_nil]. }
  rewrite IH. destruct (decide (n ∈ cols)) as [Hin|Hin].
  - rewrite decide_True; [done|by right].
  - destruct (decide (n = c)) as [->|Hne].
    + rewrite lookup_insert_eq. rewrite decide_True; [done|by left].
    + rewrite lookup_insert_ne by done. rewrite decide_False; [done|].
      by intros [?|?]%elem_of_cons.
Qed.

Lemma replaceBy_size colsToRemove :
  base.size (replaceBy colsToRemove) ≤ length colsToRemove.
Proof.
  unfold replaceBy.
  cut (∀ m : gmap string string,
         base.size (foldl (λ replaceBy col, <[col := removedColumn col]> replaceBy)
                      m colsToRemove)
         ≤ base.size m + length colsToRemove).
  { intros H. etrans; [apply H|]. by rewrite map_size_empty. }
  induction colsToRemove as [|c cols IH]; intros m; simpl; [lia|].
  etrans; [apply IH|].
  destruct (m !! c) eqn:Hc.
  - rewrite map_size_insert_Some by done. lia.
  - rewrite map_size_insert_None by done. lia.
Qed.

(** X23: [removeColumnNamesFromRScript] puts a call of [stop] with the
    message that the column was removed in the place of every token that is
    one of the columns, stands outside quoted runs and is not followed by a
    call parenthesis, under the conditions of the renaming above. *)
Theorem removeColumnNamesFromRScript_spec fuel rCode colsToRemove r :
  (3 * N.of_nat (length colsToRemove) < 2 ^ 64)%N →
  (∀ n, n ∈ colsToRemove → identifier n) →
  (∀ c, encodedName "JASPColumn_" "_For_Replacement" c ∉ colsToRemove) →
  (∀ c p, occurs_at (chars rCode)
            (chars (encodedName "JASPColumn_" "_For_Replacement" c)) p = false) →
  size rCode < fuel →
  removeColumnNamesFromRScript fuel rCode colsToRemove r
  = (Some (Ok (of_chars
       (rewriteTokens
          (λ w, if decide (of_chars w ∈ colsToRemove)
                then Some (chars (removedColumn (of_chars w))) else None)
          None false (chars rCode)))),
     invalidateAll r).
Proof.
  intros Hsz Hcols Hfresh Hfree Hfuel. unfold removeColumnNamesFromRScript.
  rewrite replaceColumnNamesInRScript_rewrite; try done.
  - do 4 f_equal. apply rewriteTokens_ext. intros w. unfold renamed.
    rewrite replaceBy_lookup. by case_decide.
  - pose proof (replaceBy_size colsToRemove). lia.
  - intros n. rewrite replaceBy_lookup. case_decide; [auto|by intros [? [=]]].
  - intros c. rewrite replaceBy_lookup. rewrite decide_False; [done|apply Hfresh].
Qed.

(** ** The registry under construction and destruction *)

Lemma deleteOther_fold qs r :
  NoDup qs → (∀ q, q ∈ qs → is_Some (heap r !! q)) →
  ∃ r', foldl_result (λ r colEnc, deleteOther colEnc r) r qs = Ok r'
    ∧ _columnEncoder r' = _columnEncoder r
    ∧ _otherEncoders r' = (λ others, others ∖ list_to_set qs) <$> _otherEncoders r
    ∧ (∀ q, heap r' !! q = if decide (q ∈ qs) then None else heap r !! q).
Proof.
  intros Hnd. revert r. induction Hnd as [|q0 qs Hq0 _ IH]; intros r Hlive.
  { exists r. simpl. split_and!; try done.
    destruct (_otherEncoders r) as [o|]; simpl; [|done]. f_equal. set_solver. }
  cbn [foldl_result]. cbv beta.
  destruct (Hlive q0) as [e0 He0]; [by left|].
  assert (deleteOther q0 r
          = Ok (with_heap (delete q0 (heap r)) (destroyOther q0 r))) as ->.
  { unfold deleteOther. by rewrite He0. }
  cbn [mbind result_bind].
  set (r1 := with_heap _ _).
  destruct (IH r1) as (r' & -> & Hc & Ho & Hh).
  { intros q Hq. unfold r1. simpl. rewrite lookup_delete_ne by (by intros ->).
    apply Hlive. by right. }
  exists r'. split; [done|]. split; [done|]. split.
  - rewrite Ho. unfold r1. simpl. destruct (_otherEncoders r) as [o|]; simpl; [|done].
    f_equal. set_solver.
  - intros q. rewrite Hh. unfold r1. simpl.
    destruct (decide (q ∈ qs)) as [Hin|Hin].
    + rewrite decide_True; [done|by right].
    + destruct (decide (q = q0)) as [->|Hne].
      * rewrite lookup_delete_eq. rewrite decide_True; [done|by left].
      * rewrite lookup_delete_ne by done. rewrite decide_False; [done|].
        by intros [?|?]%elem_of_cons.
Qed.

(** X24: deleting the primary encoder, when it is not itself an element of
    [*_otherEncoders], deletes every encoder of that set with it and puts
    the statics back to their initial state: both pointers are null and all
    views are invalidated.  Every other object on the heap stays. *)
Theorem delete_primary r p primary others :
  wellFormed r p primary → _otherEncoders r = Some others → p ∉ others →
  ∃ r', delete_ p r = Ok r'
    ∧ _columnEncoder r' = None ∧ _otherEncoders r' = None
    ∧ _encodingMapInvalidated r' = true ∧ _decodingMapInvalidated r' = true
    ∧ _decodingTypeInvalidated r' = true ∧ _decoSafeMapInvalidated r' = true
    ∧ _originalNamesInvalidated r' = true ∧ _encodedNamesInvalidated r' = true
    ∧ ∀ q, heap r' !! q = if decide (q = p ∨ q ∈ others) then None else heap r !! q.
Proof.
  intros (Hp & Hprim & Hlive) Ho Hnot.
  unfold delete_. rewrite Hprim. unfold destroy.
  rewrite decide_False by (by intros []). cbn zeta.
  cbn [_otherEncoders with_pointers]. rewrite Ho. cbn [mbind result_bind].
  destruct (deleteOther_fold (std_set_items others) (with_pointers None (Some others) r))
    as (r1 & -> & Hc & Ho1 & Hh).
  { unfold std_set_items. eapply NoDup_Permutation_proper;
      [apply merge_sort_Permutation|apply NoDup_elements]. }
  { intros q Hq%elem_of_std_set_items. simpl. by eapply Hlive. }
  cbn [mbind result_bind]. cbn [heap invalidateAll with_pointers].
  rewrite Hh. rewrite decide_False by (by rewrite elem_of_std_set_items).
  simpl. rewrite Hprim. eexists. split; [done|]. simpl. split_and!; try done.
  intros q. destruct (decide (q = p)) as [->|Hne].
  - rewrite lookup_delete_eq. rewrite decide_True; [done|by left].
  - rewrite lookup_delete_ne by done. rewrite Hh. simpl.
    destruct (decide (q ∈ std_set_items others)) as [Hin|Hin].
    + rewrite decide_True; [done|]. right. by apply elem_of_std_set_items.
    + rewrite decide_False; [done|]. intros [?|?]; [done|].
      by apply Hin, elem_of_std_set_items.
Qed.

Lemma construct_fields this prefix postfix r :
  let r' := construct this prefix postfix r in
  _columnEncoder r' = _columnEncoder r
  ∧ heap r' = <[this := emptyEncoder prefix postfix]> (heap r)
  ∧ _otherEncoders r' = Some ({[this]} ∪ default ∅ (_otherEncoders r)).
Proof. unfold construct. cbn zeta. destruct r as [? ? [o|] ? ? ? ? ? ? ? ? ? ? ?]; simpl; done. Qed.

(** X25: the registry stays well-formed under the operations on encoders
    other than the primary one: constructing an encoder at a fresh address
    enters it in [*_otherEncoders]; deleting a live encoder that is not the
    primary one takes it out of the set and off the heap; and
    [setCurrentNames] on any live encoder keeps every encoder alive. *)
Theorem wellFormed_preserved r p primary :
  wellFormed r p primary →
  (∀ this prefix postfix, heap r !! this = None →
     let r' := construct this prefix postfix r in
     wellFormed r' p primary
     ∧ ∃ others, _otherEncoders r' = Some others ∧ this ∈ others)
  ∧ (∀ q, q ≠ p → is_Some (heap r !! q) →
       ∃ r', delete_ q r = Ok r' ∧ wellFormed r' p primary
         ∧ heap r' !! q = None
         ∧ ∀ others, _otherEncoders r = Some others →
                     _otherEncoders r' = Some (others ∖ {[q]}))
  ∧ (∀ q e namesWithTypes, heap r !! q = Some e →
       ∃ r', setCurrentNames q namesWithTypes r = Ok r'
         ∧ wellFormed r' p
             (if decide (q = p) then setCurrentNames_members namesWithTypes primary
              else primary)).
Proof.
  intros (Hp & Hprim & Hlive). split_and!.
  - intros this prefix postfix Hfresh. cbn zeta.
    destruct (construct_fields this prefix postfix r) as (Hc' & Hh' & Ho').
    split.
    + unfold wellFormed. rewrite Hc', Hh', Ho'. split; [done|]. split.
      { rewrite lookup_insert_ne; [done|]. intros ->. congruence. }
      intros others q [= <-] Hq. rewrite lookup_insert. case_decide; [done|].
      destruct (_otherEncoders r) as [o|] eqn:Ho; simpl in Hq.
      * apply (Hlive o); [done|set_solver].
      * set_solver.
    + eexists. split; [done|]. set_solver.
  - intros q Hq [e He]. unfold delete_. rewrite He. unfold destroy.
    rewrite decide_True by (rewrite Hp; by intros [= ->]).
    cbn [mbind result_bind]. cbn [heap destroyOther with_pointers]. rewrite He.
    eexists. split; [done|]. split; [|split].
    + unfold wellFormed. simpl. split; [done|]. split; [by rewrite lookup_delete_ne|].
      intros others q' Ho Hq'. destruct (_otherEncoders r) as [o|] eqn:Ho'; [|done].
      simpl in Ho. injection Ho as <-.
      rewrite lookup_delete_ne by set_solver. apply (Hlive o); [done|set_solver].
    + simpl. by rewrite lookup_delete_eq.
    + intros others Ho. simpl. by rewrite Ho.
  - intros q e m He. unfold setCurrentNames. rewrite He. eexists. split; [done|].
    unfold wellFormed. simpl. split; [done|]. split.
    + case_decide as Hq.
      * subst q. rewrite lookup_insert_eq. congruence.
      * by rewrite lookup_insert_ne.
    + intros others q' Ho Hq'. rewrite lookup_insert. case_decide; [done|].
      by eapply Hlive.
Qed.

(** ** JSON *)

Lemma Json_size_member (members : gmap string Json) k j :
  members !! k = Some j → Json_size j < Json_size (objectValue members).
Proof.
  intros Hk. simpl. rewrite <-(insert_delete_id members k j Hk).
  rewrite map_fold_insert_L; [lia| |apply lookup_delete_eq].
  intros; lia.
Qed.

Lemma Json_size_element (elements : list Json) j :
  j ∈ elements → Json_size j < Json_size (arrayValue elements).
Proof.
  simpl. induction elements as [|j0 l IH]; [by intros []%elem_of_nil|].
  intros [->|Hin]%elem_of_cons; simpl; [lia|]. specialize (IH Hin). lia.
Qed.

(** Induction on JSON values. *)
Lemma Json_induction (P : Json → Prop) :
  P nullValue → (∀ i, P (intValue i)) → (∀ u, P (uintValue u)) →
  (∀ bits, P (realValue bits)) → (∀ s, P (stringValue s)) →
  (∀ b, P (booleanValue b)) →
  (∀ elements, Forall P elements → P (arrayValue elements)) →
  (∀ members, map_Forall (λ _, P) members → P (objectValue members)) →
  ∀ json, P json.
Proof.
  intros Hnull Hint Huint Hreal Hstring Hbool Harray Hobject json.
  remember (Json_size json) as k eqn:Hk. revert json Hk.
  induction (lt_wf k) as [k _ IH]. intros json ->.
  destruct json as [| | | | | |elements|members]; try done.
  - apply Harray. apply Forall_forall. intros j Hj.
    apply (IH (Json_size j)); [by apply Json_size_element|done].
  - apply Hobject. intros key j Hj.
    apply (IH (Json_size j)); [by eapply Json_size_member|done].
Qed.

Lemma allThen_Ok {A} (l : list (option (result A))) (l' : list A) :
  Forall2 (λ x a, x = Some (Ok a)) l l' → allThen l = Some (Ok l').
Proof. induction 1 as [|x a l l' -> _ IH]; [done|]. simpl. by rewrite IH. Qed.

(** The loop over the members when every member is replaced without a
    failure and no name is touched. *)
Lemma replaceMember_values fuel map names replaceStrict
    (items : list (string * option (result Json))) (values : gmap string Json) :
  NoDup items.*1 →
  (∀ k x, (k, x) ∈ items → ∃ v, x = Some (Ok v) ∧ values !! k = Some v) →
  ∀ json,
  ∃ json',
    foldl_andThen (replaceMember fuel map names false replaceStrict) (json, ∅) items
    = Some (Ok (json', ∅))
    ∧ ∀ k, json' !! k = if decide (k ∈ items.*1) then values !! k else json !! k.
Proof.
  induction items as [|[k0 x0] items IH]; intros Hnd Hitems json.
  { exists json. split; [done|]. intros k. rewrite decide_False; [done|apply not_elem_of_nil]. }
  rewrite fmap_cons in Hnd. apply NoDup_cons in Hnd as [Hk0 Hnd]. simpl in Hk0.
  destruct (Hitems k0 x0) as (v0 & -> & Hv0); [by left|].
  cbn [foldl_andThen]. unfold replaceMember at 1. cbn [andThen].
  destruct (IH Hnd) with (json := <[k0 := v0]> json) as (json' & -> & Hl).
  { intros k x Hin. apply Hitems. by right. }
  exists json'. split; [done|]. intros k. rewrite Hl. rewrite fmap_cons. simpl.
  destruct (decide (k ∈ items.*1)) as [Hin|Hin].
  - rewrite decide_True; [done|by right].
  - destruct (decide (k = k0)) as [->|Hne].
    + rewrite lookup_insert_eq. rewrite decide_True; [done|by left].
    + rewrite lookup_insert_ne by done. rewrite decide_False; [done|].
      by intros [?|?]%elem_of_cons.
Qed.

(** Without renaming of members, and when the replacement of every string
    of the value succeeds and gives [f] of that string, the traversal gives
    the value with [f] applied to its strings. *)
Lemma replaceAll_json_values fuel map names replaceStrict (f : string → string) json :
  stringsIn (λ s, replaceString fuel map names replaceStrict s = Some (Ok (f s))) json →
  replaceAll_json fuel map names false replaceStrict json
  = Some (Ok (mapStrings f json)).
Proof.
  induction json as [| | | |s| |elements IH|members IH] using Json_induction;
    intros Hall; try done.
  - inversion_clear Hall as [| | | | |? Hs| |]. simpl. by rewrite Hs.
  - inversion_clear Hall as [| | | | | |? Hl|]. simpl.
    rewrite (allThen_Ok _ (mapStrings f <$> elements)); [done|].
    apply Forall2_fmap. apply Forall_Forall2_diag.
    rewrite Forall_forall in IH, Hl. apply Forall_forall. intros j Hj. by apply IH, Hl.
  - inversion_clear Hall as [| | | | | | |? Hm]. simpl.
    destruct (replaceMember_values fuel map names replaceStrict
                (std_map_items (replaceAll_json fuel map names false replaceStrict
                                  <$> members))
                (mapStrings f <$> members)) with (json := members)
      as (json' & -> & Hl).
    + apply NoDup_fst_std_map_items.
    + intros k x Hin%elem_of_std_map_items. rewrite lookup_fmap in Hin.
      destruct (members !! k) as [j|] eqn:Hj; [|done]. injection Hin as <-.
      exists (mapStrings f j). split; [by eapply IH, Hm|].
      by rewrite lookup_fmap, Hj.
    + simpl. do 3 f_equal. unfold std_map_items at 1. rewrite map_to_list_empty. 
      change (merge_sort key_le []) with (@nil (string * string)). simpl.
      apply map_eq. intros k. rewrite Hl. case_decide as Hin; [done|].
      rewrite lookup_fmap. destruct (members !! k) as [j|] eqn:Hj; [|done].
      destruct Hin. apply list_elem_of_fmap.
      exists (k, replaceAll_json fuel map names false replaceStrict j).
      split; [done|]. apply elem_of_std_map_items. by rewrite lookup_fmap, Hj.
Qed.

Lemma stringsIn_all (P : string → Prop) json : (∀ s, P s) → stringsIn P json.
Proof.
  intros HP. induction json as [| | | |s| |elements IH|members IH] using Json_induction;
    by constructor.
Qed.

Lemma stringsIn_mapStrings (Q : string → Prop) f json :
  stringsIn (λ s, Q (f s)) json → stringsIn Q (mapStrings f json).
Proof.
  induction json as [| | | |s| |elements IH|members IH] using Json_induction;
    intros Hall; try (by constructor).
  - inversion_clear Hall. by constructor.
  - inversion_clear Hall as [| | | | | |? Hl|]. simpl. constructor.
    apply Forall_fmap. rewrite Forall_forall in IH, Hl. apply Forall_forall.
    intros j Hj. by apply IH, Hl.
  - inversion_clear Hall as [| | | | | | |? Hm]. simpl. constructor.
    apply map_Forall_fmap. intros k j Hj. simpl. by eapply IH, Hm.
Qed.

Lemma mapStrings_inverse f g json :
  stringsIn (λ s, g (f s) = s) json → mapStrings g (mapStrings f json) = json.
Proof.
  induction json as [| | | |s| |elements IH|members IH] using Json_induction;
    intros Hall; try done.
  - inversion_clear Hall as [| | | | |? Hs| |]. simpl. by rewrite Hs.
  - inversion_clear Hall as [| | | | | |? Hl|]. simpl. f_equal.
    rewrite <-list_fmap_compose. rewrite <-(list_fmap_id elements) at 2.
    apply list_fmap_ext. intros i j Hj. simpl.
    rewrite Forall_forall in IH, Hl.
    apply list_elem_of_lookup_2 in Hj. by apply IH, Hl.
  - inversion_clear Hall as [| | | | | | |? Hm]. simpl. f_equal.
    rewrite <-map_fmap_compose. rewrite <-(map_fmap_id members) at 2.
    apply map_fmap_ext. intros k j Hj. simpl. by eapply IH, Hm.
Qed.

Lemma stringsIn_impl (P Q : string → Prop) json :
  (∀ s, P s → Q s) → stringsIn P json → stringsIn Q json.
Proof.
  intros HPQ.
  induction json as [| | | |s| |elements IH|members IH] using Json_induction;
    intros Hall; try (by constructor).
  - inversion_clear Hall. constructor. by apply HPQ.
  - inversion_clear Hall as [| | | | | |? Hl|]. constructor.
    rewrite Forall_forall in IH, Hl. apply Forall_forall. intros j Hj. by apply IH, Hl.
  - inversion_clear Hall as [| | | | | | |? Hm]. constructor.
    intros k j Hj. by eapply IH, Hm.
Qed.

(** X26: [encodeJson] without renaming of members and with strict
    replacement cannot fail on the strings and needs no search: on the views
    it reads, it returns the value in which every string that is a key of
    the merged encode map is replaced by its identifier and every other
    string, every member name and every value of another type is as it was. *)
Theorem encodeJson_strict fuel json r emap r1 names r2 :
  encodingMap r = (Ok emap, r1) → originalNames r1 = (Ok names, r2) →
  encodeJson fuel json false true r
  = (Some (Ok (mapStrings (λ s, replaceAllStrict s emap) json)), r2).
Proof.
  intros Hm Hn. unfold encodeJson. rewrite Hm, Hn. f_equal.
  apply replaceAll_json_values. by apply stringsIn_all.
Qed.

Lemma encodedNames_sorted r names r' :
  encodedNames r = (Ok names, r') → StronglySorted bigger_first names.
Proof.
  unfold encodedNames. destruct (if _encodedNamesInvalidated r then _ else _); [|done].
  intros [= <- _]. apply sortVectorBigToSmall_sorted.
Qed.

(** X27: [decodeJson] undoes a strict [encodeJson].  For a value whose
    strings are either keys of the encode map, with an identifier that is a
    listed encoded name and decodes to the string, or contain no encoded
    name at all, decoding the strictly encoded value gives the value back.
    The encoded names are non-empty; two rounds of the search suffice for
    every string. *)
Theorem decodeJson_undoes_strict fuel json (emap : gmap string string) r dmap r1 names r2 :
  decodingMap r = (Ok dmap, r1) → encodedNames r1 = (Ok names, r2) →
  (∀ n, n ∈ names → n ≠ EmptyString) →
  stringsIn (λ s, match emap !! s with
                  | Some id => id ∈ names ∧ dmap !! id = Some s
                  | None => ∀ n p, n ∈ names →
                                   occurs_at (chars s) (chars n) p = false
                  end) json →
  decodeJson (S (S fuel)) (mapStrings (λ s, replaceAllStrict s emap) json) false r
  = (Some (Ok json), r2).
Proof.
  intros Hm Hn Hne Hall. unfold decodeJson. rewrite Hm, Hn. f_equal.
  pose proof (encodedNames_sorted _ _ _ Hn) as Hsorted.
  set (g := λ s', if decide (s' ∈ names) then default s' (dmap !! s') else s').
  rewrite (replaceAll_json_values _ _ _ _ g).
  - do 2 f_equal. apply mapStrings_inverse.
    eapply stringsIn_impl; [|exact Hall]. intros s Hs. simpl in Hs.
    unfold replaceAllStrict, g. destruct (emap !! s) as [id|].
    + destruct Hs as [Hin Hd]. rewrite decide_True by done. by rewrite Hd.
    + rewrite decide_False; [done|]. intros Hin.
      specialize (Hs s 0 Hin). by rewrite occurs_at_self in Hs.
  - apply stringsIn_mapStrings.
    eapply stringsIn_impl; [|exact Hall]. intros s Hs. simpl in Hs.
    unfold replaceString, replaceAllStrict, g. destruct (emap !! s) as [id|].
    + destruct Hs as [Hin Hd]. rewrite decide_True by done. rewrite Hd. simpl.
      by apply replaceAll_exact.
    + rewrite decide_False.
      * apply replaceAll_unchanged. intros n p Hin. by apply Hs.
      * intros Hin. specialize (Hs s 0 Hin). by rewrite occurs_at_self in Hs.
Qed.

(** ** [Utils::remove] *)

(** X28: [Utils::remove] leaves exactly the strings of [target] that are
    not among [toRemove], every occurrence of them, in their order. *)
Theorem Utils_remove_spec target toRemove :
  Utils.remove target toRemove = filter (λ str, str ∉ toRemove) target.
Proof.
  unfold Utils.remove. revert target.
  induction toRemove as [|r toRemove IH]; intros target; simpl.
  { induction target as [|s target IHt]; [done|].
    rewrite filter_cons_True by apply not_elem_of_nil. by f_equal. }
  rewrite IH. rewrite list_filter_filter. apply list_filter_iff.
  intros x. rewrite not_elem_of_cons. naive_solver.
Qed.

(** ** [Utils::getTypeFromFileName] *)

Lemma find_last_of_absent s c : c ∉ chars s → Utils.find_last_of s c = None.
Proof.
  intros Hc. unfold Utils.find_last_of.
  replace (filter _ _) with (@nil nat); [done|]. symmetry.
  apply elem_of_nil_inv. intros p [Hp _]%list_elem_of_filter.
  apply Hc. by eapply list_elem_of_lookup_2.
Qed.

Lemma find_last_of_split s stem c ext :
  chars s = stem ++ c :: ext → c ∉ ext →
  Utils.find_last_of s c = Some (length stem).
Proof.
  intros Hs Hc. unfold Utils.find_last_of, size. rewrite Hs.
  rewrite length_app. cbn [length].
  replace (length stem + S (length ext)) with (length stem + (1 + length ext)) by lia.
  rewrite seq_app, filter_app. cbn [seq plus]. rewrite filter_cons_True.
  2:{ rewrite lookup_app_r, Nat.sub_diag; [done|lia]. }
  replace (filter _ (seq (S (length stem)) (length ext))) with (@nil nat).
  { by rewrite last_snoc. }
  symmetry. apply elem_of_nil_inv. intros p [Hp Hin%elem_of_seq]%list_elem_of_filter.
  apply Hc. rewrite lookup_app_r in Hp by lia.
  replace (p - length stem) with (S (p - S (length stem))) in Hp by lia.
  simpl in Hp. by eapply list_elem_of_lookup_2.
Qed.

Section getTypeFromFileName.
Context (empty unknown : Z) (FileTypeBaseToString : Z → string).

Lemma findFileType_spec fuel i suffix filetype :
  let ft := Utils.findFileType FileTypeBaseToString fuel i suffix filetype in
  (i ≤ ft < i + Z.of_nat fuel ∧ FileTypeBaseToString ft = suffix
   ∧ ∀ j, i ≤ j < ft → FileTypeBaseToString j ≠ suffix)%Z
  ∨ (ft = filetype
     ∧ ∀ j, i ≤ j < i + Z.of_nat fuel → FileTypeBaseToString j ≠ suffix)%Z.
Proof.
  revert i. induction fuel as [|fuel IH]; intros i; simpl.
  { right. split; [done|]. lia. }
  case_decide as Heq.
  - left. split; [lia|]. split; [done|]. lia.
  - destruct (IH (i + 1)%Z) as [(? & ? & Hmin)|[? Hnone]]; [left|right].
    + split; [lia|]. split; [done|]. intros j Hj.
      destruct (decide (j = i)) as [->|]; [done|]. apply Hmin. lia.
    + split; [done|]. intros j Hj.
      destruct (decide (j = i)) as [->|]; [done|]. apply Hnone. lia.
Qed.

(** X29: a path without a dot has the file type [empty]; a path that ends
    in a dot has the file type [unknown]. *)
Theorem getTypeFromFileName_no_suffix path :
  ("."%char ∉ chars path →
     Utils.getTypeFromFileName empty unknown FileTypeBaseToString path = Ok empty)
  ∧ Utils.getTypeFromFileName empty unknown FileTypeBaseToString (path +:+ ".")
    = Ok unknown.
Proof.
  split.
  - intros Hc. unfold Utils.getTypeFromFileName. by rewrite find_last_of_absent.
  - unfold Utils.getTypeFromFileName.
    rewrite (find_last_of_split _ (chars path) _ []);
      [|by rewrite chars_app|apply not_elem_of_nil].
    rewrite decide_False; [done|]. rewrite size_app. unfold size. simpl. lia.
Qed.

(** X30: for a path that ends in a dot and a non-empty suffix without a
    dot, the file type is the first enumerator below [empty] whose name is
    the suffix, and [unknown] when there is none; the call does not throw. *)
Theorem getTypeFromFileName_suffix stem ext :
  "."%char ∉ chars ext → ext ≠ EmptyString →
  ∃ ft,
    Utils.getTypeFromFileName empty unknown FileTypeBaseToString (stem +:+ "." +:+ ext)
    = Ok ft
    ∧ ((0 ≤ ft < empty ∧ FileTypeBaseToString ft = ext
        ∧ ∀ j, 0 ≤ j < ft → FileTypeBaseToString j ≠ ext)%Z
       ∨ (ft = unknown ∧ ∀ j, 0 ≤ j < empty → FileTypeBaseToString j ≠ ext)%Z).
Proof.
  intros Hdot Hne. unfold Utils.getTypeFromFileName.
  assert (chars (stem +:+ "." +:+ ext) = chars stem ++ "."%char :: chars ext) as Hs.
  { by rewrite !chars_app. }
  rewrite (find_last_of_split _ _ _ _ Hs Hdot).
  assert (size ext ≠ 0) as Hlen by by rewrite size_empty_iff.
  rewrite decide_True.
  2:{ unfold size in *. rewrite Hs, length_app. simpl. lia. }
  assert (substr (stem +:+ "." +:+ ext) (length (chars stem) + 1)
            (size (stem +:+ "." +:+ ext)) = Ok ext) as ->.
  { apply substr_eq_Ok. unfold size. rewrite Hs, length_app. simpl.
    split; [lia|]. rewrite Nat.add_1_r.
    change (chars stem ++ "."%char :: chars ext)
      with (chars stem ++ ["."%char] ++ chars ext).
    rewrite app_assoc. replace (S (length (chars stem))) with (length (chars stem ++ ["."%char]))
      by (rewrite length_app; simpl; lia).
    rewrite drop_app_length. apply take_ge. lia. }
  cbn [mbind result_bind]. eexists. split; [done|].
  destruct (findFileType_spec (Z.to_nat empty) 0 ext unknown) as [(? & ? & ?)|[? Hnone]].
  - left. split; [lia|done].
  - right. split; [done|]. intros j Hj. apply Hnone. lia.
Qed.
End getTypeFromFileName.

(** ** Occurrences in a concrete text *)

Lemma occurs_at_lt l s p : s ≠ [] → occurs_at l s p = true → p < length l.
Proof.
  intros Hs Ho. unfold occurs_at in Ho. apply bool_decide_eq_true in Ho.
  apply (f_equal length) in Ho. rewrite length_take, length_drop in Ho.
  destruct s; [done|]. cbn [length] in Ho. lia.
Qed.

(** A property of all occurrences is decided on the offsets of the text. *)
Lemma occurs_at_forall (Q : nat → bool) l s :
  s ≠ [] →
  forallb (λ p, implb (occurs_at l s p) (Q p)) (seq 0 (length l)) = true →
  ∀ p, occurs_at l s p = true → Q p = true.
Proof.
  intros Hs Hall p Ho. rewrite forallb_forall in Hall.
  specialize (Hall p). rewrite Ho in Hall. apply Hall.
  apply in_seq. pose proof (occurs_at_lt l s p Hs Ho). lia.
Qed.

Lemma occurs_at_nowhere l s :
  s ≠ [] → forallb (λ p, negb (occurs_at l s p)) (seq 0 (length l)) = true →
  ∀ p, occurs_at l s p = false.
Proof.
  intros Hs Hall p. destruct (occurs_at l s p) eqn:Ho; [|done].
  rewrite forallb_forall in Hall. specialize (Hall p). rewrite Ho in Hall.
  symmetry. apply Hall, in_seq. pose proof (occurs_at_lt l s p Hs Ho). lia.
Qed.

(** ** The claims at concrete inputs *)

Lemma getPositionsColumnNameMatches_spec_witness :
  getPositionsColumnNameMatches "colname + 'colname'" "colname"
  = findOccurrences_spec "colname + 'colname'" "colname".
Proof.
  apply getPositionsColumnNameMatches_spec;
    [discriminate | intros c [= <-]; reflexivity].
Defined.

(** C5, as stated, fails for a name that begins with a quote character: a
    quote at which a match is recorded does not open a run, so the scanner
    returns offset 5 although it lies inside the double-quoted run. *)
Lemma getPositions_quote_leading_name :
  String "'"%char "x" ≠ EmptyString
  ∧ getPositionsColumnNameMatches quoteExampleText (String "'"%char "x") = [0; 5]
  ∧ insideQuotedRun quoteExampleText 5 = true
  ∧ findOccurrences_spec quoteExampleText (String "'"%char "x") = [0]
  ∧ getPositionsColumnNameMatches quoteExampleText (String "'"%char "x")
    ≠ findOccurrences_spec quoteExampleText (String "'"%char "x").
Proof. vm_compute. repeat split; try reflexivity; discriminate. Qed.

(** C4, as stated, fails: a name followed by an opening parenthesis, at once
    or behind blanks, is not free and stays as it is. *)
Lemma call_parenthesis_not_replaced :
  testEndFree "rep(1)" 3 = Ok false
  ∧ testEndFree "rep (1)" 3 = Ok false
  ∧ fst <$> encodeRScript "rep(1) + rep (2) + rep"
              {[ "rep" := "JASPColumn_0_Encoded" ]} ["rep"] EmptyString
    = Ok "rep(1) + rep (2) + JASPColumn_0_Encoded".
Proof. vm_compute. repeat split; reflexivity. Qed.

Lemma replaceAll_terminates_witness :
  ∃ r, replaceAll (S (size "abc ab")) "abc ab" {[ "ab" := "X"; "abc" := "Y" ]}
         ["abc"; "ab"] = Some (Ok r).
Proof.
  apply replaceAll_terminates. intros n Hn.
  apply elem_of_cons in Hn as [->|Hn]; [split; [discriminate|eexists; reflexivity]|].
  apply elem_of_cons in Hn as [->|Hn]; [split; [discriminate|eexists; reflexivity]|].
  by apply elem_of_nil in Hn.
Defined.

Lemma encode_decode_spec_witness :
  (encode "b" (registryOfTables {[ "a" := "X" ]} {[ "a" := "Z"; "b" := "Y" ]})).1
    = Ok "Y"
  ∧ (decode "b" (registryOfTables {[ "a" := "X" ]} {[ "a" := "Z"; "b" := "Y" ]})).1
    = Throw (NotAnEncodedName "b").
Proof.
  destruct (encode_decode_spec
              (registryOfTables {[ "a" := "X" ]} {[ "a" := "Z"; "b" := "Y" ]}) "b"
              _ _ _ _ eq_refl eq_refl) as [He Hd].
  rewrite He, Hd. split; vm_compute; reflexivity.
Defined.



Lemma roundtrip_qualified_witness :
  ∃ r1 id r2 r3 r4,
    setCurrentNames 1 {[ "a" := scale ]}
      (columnEncoder 1 "JASPColumn_" "_Encoded" initialRegistry).2 = Ok r1
    ∧ encode ("a" +:+ "." +:+ columnTypeToString scale) r1 = (Ok id, r2)
    ∧ decode id r2 = (Ok "a", r3)
    ∧ columnTypeFromEncoded id r3 = (Ok scale, r4).
Proof.
  eapply (roundtrip_qualified _ 1%N (emptyEncoder "JASPColumn_" "_Encoded")).
  - split; [reflexivity|]. split; [reflexivity|].
    intros others q [= <-] Hq.
    apply elem_of_union in Hq as [->%elem_of_singleton|Hq];
      [eexists; reflexivity|by apply not_elem_of_empty in Hq].
  - reflexivity.
  - left.
  - reflexivity.
  - vm_compute. reflexivity.
Defined.

(** C9, as stated, fails twice over: the type nominalText has no qualified
    entry, and a registered name spelled like a qualified name takes the
    entry over. *)
Lemma roundtrip_fails :
  (r ← registryWith {[ "a" := nominalText ]}; (encode "a.nominalText" r).1)
    = Throw (NotAColumnName "a.nominalText")
  ∧ (r ← registryWith {[ "a" := scale; "a.scale" := unknown ]};
     let '(id, r) := encode "a.scale" r in
     id ← id;
     let '(n, r) := decode id r in
     n ← n;
     t ← (columnTypeFromEncoded id r).1;
     Ok (id, n, t))
    = Ok ("JASPColumn_3_Encoded", "a.scale", unknown).
Proof. vm_compute. split; reflexivity. Qed.

(** C2 at the failing input: a second call of [setCurrentNames] leaves the
    first call's names in [_originalNames] and its types in
    [_decodingTypes]; the reused identifier of [b] still carries the type
    registered for [a.scale]. *)
Theorem setCurrentNames_leaves_old_state :
  (r ← registryRenamed {[ "a" := scale ]} {[ "b" := unknown ]};
   e ← deref r 1;
   Ok (_originalNames e, _encodingMap e, _decodingMap e,
       _decodingTypes e !! "JASPColumn_0_Encoded",
       _decodingTypes e !! "JASPColumn_1_Encoded"))
  = Ok (["a.ordinal"; "a.nominal"; "a.scale"; "a"; "b"],
        {[ "b" := "JASPColumn_0_Encoded" ]},
        {[ "JASPColumn_0_Encoded" := "b" ]},
        Some scale, Some ordinal)
  ∧ (r ← registryRenamed {[ "a" := scale ]} {[ "b" := unknown ]};
     let '(id, r) := encode "b" r in
     id ← id; (columnTypeFromEncoded id r).1)
    = Ok scale.
Proof. vm_compute. split; reflexivity. Qed.

(** C3 at the failing input: after a second call of [setCurrentNames] the
    name [a] is in [_originalNames] without a key in [_encodingMap], and
    encoding a script, which looks every listed name up, throws. *)
Theorem originalNames_without_key :
  (r ← registryRenamed {[ "a" := unknown ]} {[ "b" := unknown ]};
   e ← deref r 1;
   Ok (_originalNames e, _encodingMap e !! "a", _encodingMap e !! "b"))
  = Ok (["a"; "b"], None, Some "JASPColumn_0_Encoded")
  ∧ (r ← registryRenamed {[ "a" := unknown ]} {[ "b" := unknown ]};
     (encodeRScript_static "b + 1" r).1)
    = Throw out_of_range.
Proof. vm_compute. split; reflexivity. Qed.

(** C6, as stated, fails: the encoder for a set of allowed prefixes runs the
    empty prefix first, which encodes the bare occurrence and files [score]
    under the empty prefix as well. *)
Lemma allowed_prefixes_encode_bare_name :
  (r ← registryWith {[ "score" := unknown ]};
   '(text, found, _) ← encodeRScript_prefixes "data.score + score" {[ "data." ]} r;
   Ok (text, found))
  = Ok ("data.JASPColumn_0_Encoded + JASPColumn_0_Encoded",
        {[ EmptyString := {[ "score" ]}; "data." := {[ "score" ]} ]}).
Proof. vm_compute. reflexivity. Qed.

(** C6 (amended): with only [score] registered, the encoder with the
    mandatory prefix [data.] replaces the prefixed occurrence alone and
    finds [score]; the encoder for the set of allowed prefixes [{data.}]
    tries the empty prefix first, so it replaces the bare occurrence too and
    reports [score] for the empty prefix and for [data.]. *)
Theorem prefix_scoping_score :
  (r ← registryWith {[ "score" := unknown ]};
   map ← (encodingMap r).1;
   names ← (originalNames r).1;
   encodeRScript "data.score + score" map names "data.")
  = Ok ("data.JASPColumn_0_Encoded + score", {[ "score" ]})
  ∧ (r ← registryWith {[ "score" := unknown ]};
     '(text, found, _) ← encodeRScript_prefixes "data.score + score" {[ "data." ]} r;
     Ok (text, found))
    = Ok ("data.JASPColumn_0_Encoded + JASPColumn_0_Encoded",
          {[ EmptyString := {[ "score" ]}; "data." := {[ "score" ]} ]}).
Proof. vm_compute. split; reflexivity. Qed.

(** C1, as stated, fails: [encodeRScript] makes one pass per name, in list
    order and from right to left within a pass.  It can replace a later
    occurrence of a longer name first, encode inserted text again, and with
    a mandatory prefix miss what the cursor-resuming run finds. *)
Lemma encodeRScript_not_cursorResuming :
  (fst <$> encodeRScript "a b c d" {[ "b c d" := "Y"; "a b" := "X" ]}
             ["b c d"; "a b"] EmptyString = Ok "a Y"
   ∧ encodeInScriptText_spec 10 "a b c d" {[ "b c d" := "Y"; "a b" := "X" ]}
       ["b c d"; "a b"] EmptyString = Some (Ok "X c d"))
  ∧ (fst <$> encodeRScript "a" {[ "a" := "b"; "b" := "c" ]} ["a"; "b"] EmptyString
     = Ok "c"
     ∧ encodeInScriptText_spec 10 "a" {[ "a" := "b"; "b" := "c" ]} ["a"; "b"]
         EmptyString = Some (Ok "b"))
  ∧ (fst <$> encodeRScript "x$x$y" {[ "x" := "J0"; "y" := "J1" ]} ["y"; "x"] "x$"
     = Ok "x$J0$J1"
     ∧ encodeInScriptText_spec 10 "x$x$y" {[ "x" := "J0"; "y" := "J1" ]} ["y"; "x"]
         "x$" = Some (Ok "x$J0$y")).
Proof. vm_compute. repeat split; reflexivity. Qed.

Lemma encodeRScript_cursorResuming_witness :
  ∃ out found,
    encodeRScript "a+ab (ab)" {[ "ab" := "J0_E"; "a" := "J1_E" ]} ["ab"; "a"] EmptyString
      = Ok (out, found)
    ∧ encodeInScriptText_spec (S (size "a+ab (ab)")) "a+ab (ab)"
        {[ "ab" := "J0_E"; "a" := "J1_E" ]} ["ab"; "a"] EmptyString
      = Some (Ok out).
Proof.
  apply encodeRScript_cursorResuming. intros n Hn.
  assert (∀ r : string, r ≠ "ab" → r ≠ "a" → r ∉ ["ab"; "a"]) as Hnot.
  { intros r ?? Hr. apply elem_of_cons in Hr as [?|Hr]; [done|].
    apply elem_of_cons in Hr as [?|Hr]; [done|]. by apply elem_of_nil in Hr. }
  apply elem_of_cons in Hn as [->|Hn];
    [|apply elem_of_cons in Hn as [->|Hn]; [|by apply elem_of_nil in Hn]].
  - split; [split; [discriminate|repeat constructor]|].
    exists "J0_E". split; [reflexivity|].
    split; [split; [discriminate|repeat constructor]|]. apply Hnot; discriminate.
  - split; [split; [discriminate|repeat constructor]|].
    exists "J1_E". split; [reflexivity|].
    split; [split; [discriminate|repeat constructor]|]. apply Hnot; discriminate.
Defined.
(** ** Further properties at concrete inputs *)

Lemma encodeRScript_missing_key_witness :
  encodeRScript "a + 1" {[ "a" := "X" ]} ["a"; "b"] EmptyString = Throw out_of_range.
Proof.
  apply (encodeRScript_missing_key _ _ _ _ "b"); [repeat constructor|reflexivity].
Defined.

Lemma encodeRScript_found_listed_witness :
  ∃ out found,
    encodeRScript "a + b" {[ "a" := "X" ]} ["a"] EmptyString = Ok (out, found)
    ∧ ∀ n, n ∈ found → n ∈ ["a"].
Proof.
  eexists _, _. split; [vm_compute; reflexivity|].
  eapply (encodeRScript_found_listed "a + b" {[ "a" := "X" ]} ["a"] EmptyString).
  vm_compute. reflexivity.
Defined.

Lemma encodeRScript_nothing_found_witness :
  ∃ out,
    encodeRScript "x + 1" {[ "a" := "X" ]} ["a"] EmptyString = Ok (out, ∅)
    ∧ out = "x + 1".
Proof.
  eexists. split; [vm_compute; reflexivity|].
  apply (encodeRScript_nothing_found "x + 1" {[ "a" := "X" ]} ["a"] EmptyString).
  vm_compute. reflexivity.
Defined.

Lemma encodeRScript_quoted_untouched_witness :
  encodeRScript "'a' + 1" {[ "a" := "X" ]} ["a"] EmptyString = Ok ("'a' + 1", ∅).
Proof.
  apply encodeRScript_quoted_untouched. intros n Hn.
  apply elem_of_cons in Hn as [->|Hn]; [|by apply elem_of_nil in Hn].
  split; [discriminate|]. split; [eexists; reflexivity|]. split.
  - intros c [= <-]. reflexivity.
  - apply (occurs_at_forall (insideQuotedRun "'a' + 1")); [discriminate|].
    vm_compute. reflexivity.
Defined.

Lemma encodeRScript_prefix_absent_witness :
  encodeRScript "a + 1" {[ "a" := "X" ]} ["a"] "data." = Ok ("a + 1", ∅).
Proof.
  apply encodeRScript_prefix_absent.
  - discriminate.
  - apply occurs_at_nowhere; [discriminate|]. vm_compute. reflexivity.
  - intros n Hn. apply elem_of_cons in Hn as [->|Hn]; [|by apply elem_of_nil in Hn].
    eexists. reflexivity.
Defined.

(** The two names of the examples below are identifiers with identifiers
    for them that are no names. *)
Lemma identifierNames_example :
  ∀ n, n ∈ ["ab"; "a"] →
    identifier n
    ∧ ∃ r, ({[ "ab" := "J0_E"; "a" := "J1_E" ]} : gmap string string) !! n = Some r
           ∧ identifier r ∧ r ∉ ["ab"; "a"].
Proof.
  intros n Hn.
  assert (∀ r : string, r ≠ "ab" → r ≠ "a" → r ∉ ["ab"; "a"]) as Hnot.
  { intros r ?? Hr. apply elem_of_cons in Hr as [?|Hr]; [done|].
    apply elem_of_cons in Hr as [?|Hr]; [done|]. by apply elem_of_nil in Hr. }
  apply elem_of_cons in Hn as [->|Hn];
    [|apply elem_of_cons in Hn as [->|Hn]; [|by apply elem_of_nil in Hn]].
  - split; [split; [discriminate|repeat constructor]|].
    exists "J0_E". split; [reflexivity|].
    split; [split; [discriminate|repeat constructor]|]. apply Hnot; discriminate.
  - split; [split; [discriminate|repeat constructor]|].
    exists "J1_E". split; [reflexivity|].
    split; [split; [discriminate|repeat constructor]|]. apply Hnot; discriminate.
Defined.

Lemma encodeRScript_tokenwise_witness :
  ∃ found,
    encodeRScript "a+ab 'a' ab(1)" {[ "ab" := "J0_E"; "a" := "J1_E" ]} ["ab"; "a"]
      EmptyString
    = Ok (of_chars (rewriteTokens (repAll {[ "ab" := "J0_E"; "a" := "J1_E" ]} ["ab"; "a"])
                      None false (chars "a+ab 'a' ab(1)")), found).
Proof. apply encodeRScript_tokenwise, identifierNames_example. Defined.

Lemma encodeRScript_idempotent_witness :
  ∃ found',
    encodeRScript "J1_E+J0_E" {[ "ab" := "J0_E"; "a" := "J1_E" ]} ["ab"; "a"] EmptyString
    = Ok ("J1_E+J0_E", found').
Proof.
  eapply (encodeRScript_idempotent "a+ab" _ _ _ _ identifierNames_example).
  vm_compute. reflexivity.
Defined.

Lemma replaceAll_no_occurrence_witness :
  replaceAll 1 "x + 1" ∅ ["a"; "b"] = Some (Ok "x + 1").
Proof.
  apply replaceAll_no_occurrence. intros n p Hn. revert p.
  apply elem_of_cons in Hn as [->|Hn];
    [|apply elem_of_cons in Hn as [->|Hn]; [|by apply elem_of_nil in Hn]];
    (apply occurs_at_nowhere; [discriminate|vm_compute; reflexivity]).
Defined.

Lemma replaceAll_exact_name_witness :
  replaceAll 2 "ab" {[ "ab" := "a"; "a" := "Z" ]} ["ab"; "a"] = Some (Ok "a").
Proof.
  apply replaceAll_exact_name.
  - repeat constructor.
  - intros n Hn.
    apply elem_of_cons in Hn as [->|Hn];
      [|apply elem_of_cons in Hn as [->|Hn]; [|by apply elem_of_nil in Hn]];
      discriminate.
  - repeat constructor.
  - reflexivity.
Defined.

Lemma setCurrentNames_encodedNames_witness :
  let e' := setCurrentNames_members {[ "b" := unknown; "a" := ordinal ]}
              (emptyEncoder "JASPColumn_" "_Encoded") in
  _encodedNames e'
  = (λ k, encodedName "JASPColumn_" "_Encoded" (N.of_nat k))
      <$> seq 0 (length (_encodedNames e'))
  ∧ NoDup (_encodedNames e')
  ∧ ∀ id, shouldDecode e' id = true ↔ id ∈ _encodedNames e'.
Proof.
  apply (setCurrentNames_encodedNames {[ "b" := unknown; "a" := ordinal ]}
           (emptyEncoder "JASPColumn_" "_Encoded")).
  vm_compute. reflexivity.
Defined.

Lemma setCurrentNames_originalNames_witness :
  let e' := setCurrentNames_members {[ "b" := unknown; "a" := ordinal ]}
              (emptyEncoder "JASPColumn_" "_Encoded") in
  StronglySorted bigger_first (_originalNames e')
  ∧ ∀ q, q ∈ _originalNames e'
         ↔ is_Some (({[ "b" := unknown; "a" := ordinal ]} : gmap string columnType) !! q)
           ∨ ∃ n t ct,
               ({[ "b" := unknown; "a" := ordinal ]} : gmap string columnType) !! n
               = Some t
               ∧ t ≠ unknown ∧ ct ∈ [scale; ordinal; nominal] ∧ q = qualified n ct.
Proof.
  apply (setCurrentNames_originalNames {[ "b" := unknown; "a" := ordinal ]}
           (emptyEncoder "JASPColumn_" "_Encoded")).
  reflexivity.
Defined.

Lemma setCurrentNames_listed_have_keys_witness :
  let e' := setCurrentNames_members {[ "b" := unknown; "a" := ordinal ]}
              (emptyEncoder "JASPColumn_" "_Encoded") in
  Forall (λ q, is_Some (_encodingMap e' !! q)) (_originalNames e').
Proof.
  apply Forall_forall.
  apply (setCurrentNames_listed_have_keys {[ "b" := unknown; "a" := ordinal ]}
           (emptyEncoder "JASPColumn_" "_Encoded")); [reflexivity|].
  intros n Hn. apply lookup_insert_Some in Hn as [[_ [=]]|[Hne Hn]].
  apply lookup_singleton_Some in Hn as [_ [=]].
Defined.

(** The registry of the examples is well-formed: the primary encoder is at
    address 1 and both encoders are alive. *)
Lemma wellFormed_registryOfTables primary auxiliary :
  wellFormed (registryOfTables primary auxiliary) 1
    (mkColumnEncoder "JASPColumn_" "_Encoded" primary ∅ ∅ [] [] ∅).
Proof.
  split; [reflexivity|]. split; [reflexivity|].
  intros others q [= <-] Hq.
  apply elem_of_union in Hq as [->%elem_of_singleton| ->%elem_of_singleton];
    eexists; reflexivity.
Defined.

Lemma encode_decode_roundtrip_witness :
  ∃ r1 id r2 n t r3 ty r4,
    setCurrentNames 1 {[ "a" := scale ]} (registryOfTables ∅ ∅) = Ok r1
    ∧ encode "a.ordinal" r1 = (Ok id, r2)
    ∧ decode id r2 = (Ok n, r3)
    ∧ columnTypeFromEncoded id r3 = (Ok ty, r4)
    ∧ ({[ "a" := scale ]} : gmap string columnType) !! n = Some t
    ∧ (("a.ordinal" = n ∧ (t = unknown ∨ ty = t))
       ∨ (t ≠ unknown ∧ ∃ ct, ct ∈ [scale; ordinal; nominal]
            ∧ "a.ordinal" = qualified n ct ∧ ty = ct)).
Proof.
  apply (encode_decode_roundtrip (registryOfTables ∅ ∅) 1 _ {[ "a" := scale ]}
           "a.ordinal" (wellFormed_registryOfTables ∅ ∅)).
  - vm_compute. reflexivity.
  - discriminate.
  - eexists. vm_compute. reflexivity.
Defined.

Lemma bare_name_roundtrip_witness :
  ∃ r1 id r2 r3 ty r4,
    setCurrentNames 1 {[ "a" := scale ]} (registryOfTables ∅ ∅) = Ok r1
    ∧ encode "a" r1 = (Ok id, r2)
    ∧ decode id r2 = (Ok "a", r3)
    ∧ columnTypeFromEncoded id r3 = (Ok ty, r4)
    ∧ (scale = unknown ∨ ty = scale).
Proof.
  apply (bare_name_roundtrip (registryOfTables ∅ ∅) 1 _ {[ "a" := scale ]} "a" scale
           (wellFormed_registryOfTables ∅ ∅)).
  - vm_compute. reflexivity.
  - discriminate.
  - reflexivity.
  - discriminate.
  - intros n' t' ct Hn' _ _ Heq. apply lookup_singleton_Some in Hn' as [<- _].
    symmetry in Heq. by apply qualified_ne_name in Heq.
Defined.

Lemma encode_from_some_encoder_witness :
  ∃ q e, consulted (registryOfTables {[ "a" := "X" ]} {[ "a" := "Z"; "b" := "Y" ]}) q
    ∧ heap (registryOfTables {[ "a" := "X" ]} {[ "a" := "Z"; "b" := "Y" ]}) !! q = Some e
    ∧ _encodingMap e !! "b" = Some "Y".
Proof.
  assert ((encode "b" (registryOfTables {[ "a" := "X" ]} {[ "a" := "Z"; "b" := "Y" ]})).1
          = Ok "Y") as Hid by (vm_compute; reflexivity).
  pose proof (encode_from_some_encoder _ 1 _ "b"
                (wellFormed_registryOfTables {[ "a" := "X" ]} {[ "a" := "Z"; "b" := "Y" ]})
                eq_refl) as H.
  rewrite Hid in H. apply H. discriminate.
Defined.

Lemma columnNames_encoded_listed_witness :
  ∃ r1 names ids,
    setCurrentNames 1 {[ "a" := scale ]} (registryOfTables ∅ ∅) = Ok r1
    ∧ columnNames r1 = Ok names ∧ columnNamesEncoded r1 = Ok ids
    ∧ ∀ q, q ∈ names → q ≠ EmptyString →
        ∃ id r2, encode q r1 = (Ok id, r2) ∧ id ∈ ids.
Proof.
  apply (columnNames_encoded_listed (registryOfTables ∅ ∅) 1 _ {[ "a" := scale ]}
           (wellFormed_registryOfTables ∅ ∅)).
  - reflexivity.
  - vm_compute. reflexivity.
  - intros n [_ [=]]%lookup_singleton_Some.
Defined.

Lemma originalNames_rebuilt_witness :
  ∃ r' es,
    originalNames (registryOfNameLists {[ "a" := unknown; "bb" := unknown ]}
                     {[ "ccc" := unknown; "dd" := unknown ]})
    = (Ok ["ccc"; "bb"; "dd"; "a"], r')
    ∧ mapM (λ q, heap (registryOfNameLists {[ "a" := unknown; "bb" := unknown ]}
                         {[ "ccc" := unknown; "dd" := unknown ]}) !! q) [2%N]
      = Some es
    ∧ StronglySorted bigger_first ["ccc"; "bb"; "dd"; "a"]
    ∧ ["ccc"; "bb"; "dd"; "a"] ≡ₚ ["bb"; "a"] ++ concat (_originalNames <$> es).
Proof.
  destruct (originalNames_rebuilt
              (registryOfNameLists {[ "a" := unknown; "bb" := unknown ]}
                 {[ "ccc" := unknown; "dd" := unknown ]}) 1
              (setCurrentNames_members {[ "a" := unknown; "bb" := unknown ]}
                 (emptyEncoder "JASPColumn_" "_Encoded")))
    as (vec & r' & es & Hvec & Hes & Hsorted & Hperm).
  - split; [reflexivity|]. split; [reflexivity|].
    intros others q [= <-] ->%elem_of_singleton. eexists. reflexivity.
  - reflexivity.
  - assert (vec = ["ccc"; "bb"; "dd"; "a"]) as ->.
    { vm_compute in Hvec. by injection Hvec as <- _. }
    exists r', es. split; [exact Hvec|]. split; [exact Hes|]. split; [exact Hsorted|].
    exact Hperm.
Defined.

Lemma encodeRScript_prefixes_found_witness :
  ∃ out found r',
    encodeRScript_prefixes "a + data$a" {[ "data$" ]} (registryOfTables {[ "a" := "X" ]} ∅)
    = Ok (out, found, r')
    ∧ dom found = {[EmptyString]} ∪ {[ "data$" ]}
    ∧ ∃ map r1 names r2 text1 found1,
        encodingMap (registryOfTables {[ "a" := "X" ]} ∅) = (Ok map, r1)
        ∧ originalNames r1 = (Ok names, r2)
        ∧ encodeRScript "a + data$a" map names EmptyString = Ok (text1, found1)
        ∧ found !! EmptyString = Some found1.
Proof.
  eexists _, _, _. split; [vm_compute; reflexivity|].
  eapply (encodeRScript_prefixes_found "a + data$a" {[ "data$" ]}
            (registryOfTables {[ "a" := "X" ]} ∅)).
  vm_compute. reflexivity.
Defined.

(** A text without the first character of a string has no occurrence of
    the string. *)
Lemma occurs_at_head_absent l c s p : c ∉ l → occurs_at l (c :: s) p = false.
Proof.
  intros Hc. unfold occurs_at. apply bool_decide_eq_false. intros H. apply Hc.
  rewrite <-(take_drop p l). apply elem_of_app. right.
  destruct (drop p l) as [|d l']; [done|]. injection H as -> _. by left.
Qed.

Lemma no_replacement_name (c : N) p :
  occurs_at (chars "a + b") (chars (encodedName "JASPColumn_" "_For_Replacement" c)) p
  = false.
Proof.
  apply occurs_at_head_absent.
  repeat (apply not_elem_of_cons; split; [discriminate|]). apply not_elem_of_nil.
Qed.

Lemma replaceColumnNamesInRScript_spec_witness :
  replaceColumnNamesInRScript 6 "a + b" {[ "a" := "c" ]} (registryOfTables ∅ ∅)
  = (Some (Ok "c + b"), invalidateAll (registryOfTables ∅ ∅)).
Proof.
  etrans; [apply replaceColumnNamesInRScript_spec|vm_compute; reflexivity].
  - vm_compute. reflexivity.
  - intros n [x [<- _]%lookup_singleton_Some]. split; [discriminate|repeat constructor].
  - intros c. by apply lookup_singleton_None.
  - apply no_replacement_name.
  - vm_compute. lia.
Defined.

Lemma removeColumnNamesFromRScript_spec_witness :
  removeColumnNamesFromRScript 6 "a + b" ["a"] (registryOfTables ∅ ∅)
  = (Some (Ok "stop('column a was removed from this RScript') + b"),
     invalidateAll (registryOfTables ∅ ∅)).
Proof.
  etrans; [apply removeColumnNamesFromRScript_spec|vm_compute; reflexivity].
  - vm_compute. reflexivity.
  - intros n ->%list_elem_of_singleton. split; [discriminate|repeat constructor].
  - intros c Hc%list_elem_of_singleton. discriminate.
  - apply no_replacement_name.
  - vm_compute. lia.
Defined.

Lemma delete_primary_witness :
  ∃ r', delete_ 1 (registryApart ∅ ∅) = Ok r'
    ∧ _columnEncoder r' = None ∧ _otherEncoders r' = None
    ∧ _encodingMapInvalidated r' = true ∧ _decodingMapInvalidated r' = true
    ∧ _decodingTypeInvalidated r' = true ∧ _decoSafeMapInvalidated r' = true
    ∧ _originalNamesInvalidated r' = true ∧ _encodedNamesInvalidated r' = true
    ∧ ∀ q, heap r' !! q
           = if decide (q = 1%N ∨ q ∈ ({[ 2%N ]} : gset N)) then None
             else heap (registryApart ∅ ∅) !! q.
Proof.
  apply (delete_primary (registryApart ∅ ∅) 1
           (mkColumnEncoder "JASPColumn_" "_Encoded" ∅ ∅ ∅ [] [] ∅) {[ 2%N ]}).
  - split; [reflexivity|]. split; [reflexivity|].
    intros others q [= <-] ->%elem_of_singleton. eexists. reflexivity.
  - reflexivity.
  - intros [=]%elem_of_singleton.
Defined.

Lemma wellFormed_preserved_witness :
  (∀ this prefix postfix, heap (registryOfTables ∅ ∅) !! this = None →
     let r' := construct this prefix postfix (registryOfTables ∅ ∅) in
     wellFormed r' 1 (mkColumnEncoder "JASPColumn_" "_Encoded" ∅ ∅ ∅ [] [] ∅)
     ∧ ∃ others, _otherEncoders r' = Some others ∧ this ∈ others)
  ∧ (∀ q, q ≠ 1%N → is_Some (heap (registryOfTables ∅ ∅) !! q) →
       ∃ r', delete_ q (registryOfTables ∅ ∅) = Ok r'
         ∧ wellFormed r' 1 (mkColumnEncoder "JASPColumn_" "_Encoded" ∅ ∅ ∅ [] [] ∅)
         ∧ heap r' !! q = None
         ∧ ∀ others, _otherEncoders (registryOfTables ∅ ∅) = Some others →
                     _otherEncoders r' = Some (others ∖ {[q]}))
  ∧ (∀ q e namesWithTypes, heap (registryOfTables ∅ ∅) !! q = Some e →
       ∃ r', setCurrentNames q namesWithTypes (registryOfTables ∅ ∅) = Ok r'
         ∧ wellFormed r' 1
             (if decide (q = 1%N)
              then setCurrentNames_members namesWithTypes
                     (mkColumnEncoder "JASPColumn_" "_Encoded" ∅ ∅ ∅ [] [] ∅)
              else mkColumnEncoder "JASPColumn_" "_Encoded" ∅ ∅ ∅ [] [] ∅)).
Proof.
  exact (wellFormed_preserved _ 1 _ (wellFormed_registryOfTables ∅ ∅)).
Defined.

Lemma encodeJson_strict_witness :
  ∃ r2,
    encodeJson 3
      (arrayValue [stringValue "a"; stringValue "a b";
                   objectValue {[ "a" := stringValue "a" ]}])
      false true (registryOfTables {[ "a" := "X" ]} ∅)
    = (Some (Ok (arrayValue [stringValue "X"; stringValue "a b";
                             objectValue {[ "a" := stringValue "X" ]}])), r2).
Proof.
  eexists.
  etrans; [eapply encodeJson_strict; vm_compute; reflexivity|vm_compute; reflexivity].
Defined.

Lemma decodeJson_undoes_strict_witness :
  ∃ r2,
    decodeJson 2
      (mapStrings (λ s, replaceAllStrict s {[ "a" := "JASPColumn_0_Encoded" ]})
         (arrayValue [stringValue "a"; stringValue "x y"]))
      false (registryOfNames {[ "a" := unknown ]})
    = (Some (Ok (arrayValue [stringValue "a"; stringValue "x y"])), r2).
Proof.
  eexists.
  eapply (decodeJson_undoes_strict 0 _ {[ "a" := "JASPColumn_0_Encoded" ]}
            (registryOfNames {[ "a" := unknown ]})).
  - vm_compute. reflexivity.
  - vm_compute. reflexivity.
  - intros n Hn. repeat (apply elem_of_cons in Hn as [->|Hn]; [discriminate|]).
    by apply elem_of_nil in Hn.
  - apply stringsIn_array.
    apply Forall_cons; split; [|apply Forall_cons; split; [|by apply Forall_nil]];
      apply stringsIn_string.
    + change (("JASPColumn_0_Encoded" : string)
                ∈ ["JASPColumn_0_Encoded"; "JASPColumn_0_Encoded"]
              ∧ ({[ "JASPColumn_0_Encoded" := "a" ]} : gmap string string)
                  !! "JASPColumn_0_Encoded" = Some "a").
      split; [by left|reflexivity].
    + change (∀ n p, n ∈ ["JASPColumn_0_Encoded"; "JASPColumn_0_Encoded"] →
                     occurs_at (chars "x y") (chars n) p = false).
      intros n p Hn. revert p.
      repeat (apply elem_of_cons in Hn as [->|Hn];
              [apply occurs_at_nowhere; [discriminate|vm_compute; reflexivity]|]).
      by apply elem_of_nil in Hn.
Defined.

Lemma getTypeFromFileName_no_suffix_witness :
  Utils.getTypeFromFileName 2 3 (λ i, if decide (i = 0)%Z then "jasp" else "csv") "data"
  = Ok 2%Z
  ∧ Utils.getTypeFromFileName 2 3 (λ i, if decide (i = 0)%Z then "jasp" else "csv")
      "data."
    = Ok 3%Z.
Proof.
  destruct (getTypeFromFileName_no_suffix 2 3
              (λ i, if decide (i = 0)%Z then "jasp" else "csv") "data") as [H1 H2].
  split; [apply H1|exact H2].
  repeat (apply not_elem_of_cons; split; [discriminate|]). apply not_elem_of_nil.
Defined.

Lemma getTypeFromFileName_suffix_witness :
  ∃ ft,
    Utils.getTypeFromFileName 2 3 (λ i, if decide (i = 0)%Z then "jasp" else "csv")
      "data.csv" = Ok ft
    ∧ ((0 ≤ ft < 2 ∧ (if decide (ft = 0)%Z then "jasp" else "csv") = "csv"
        ∧ ∀ j, 0 ≤ j < ft → (if decide (j = 0)%Z then "jasp" else "csv") ≠ "csv")%Z
       ∨ (ft = 3 ∧ ∀ j, 0 ≤ j < 2 →
                        (if decide (j = 0)%Z then "jasp" else "csv") ≠ "csv")%Z).
Proof.
  apply (getTypeFromFileName_suffix 2 3
           (λ i, if decide (i = 0)%Z then "jasp" else "csv") "data" "csv").
  - repeat (apply not_elem_of_cons; split; [discriminate|]). apply not_elem_of_nil.
  - discriminate.
Defined.
